(** * Verification of the image compositing core of ebiten

    The development embeds, function by function,

    - of package ebiten, the mipmap pyramid ([type mipmap]),
    - of package ebiten, the vertex arena ([type verticesBackend]) and
      [quadVertices],
    - of package restorable, the pixel patch store ([type rectToPixels]),
    - of package ebitenmobileview, the ids of the touches on iOS
      ([getIDFromPtr], [updateTouchesOnIOSImpl]),

    and states the properties of the specification over the embedding.

    Conventions.  A Go [int] is a [Z] in the range of a 64-bit two's complement
    integer and every arithmetic operation writes its wrap-around out
    ([GoInt.add], [GoInt.mul], ...).  A Go [float32] / [float64] is a
    [spec_float] at precision 24 / 53.  A function that can panic runs in the
    monad [M S A := S -> outcome A * S]: the state reached when the panic is
    raised is kept, so that "nothing was stored" can be stated. *)

From Stdlib Require Import ZArith Lia Bool List Sorted.
From Stdlib.Strings Require Import Byte.
From Stdlib Require Import SpecFloat.
From stdpp Require Import base decidable countable gmap list.

Local Open Scope Z_scope.

(** ** Go integers *)

Module GoInt.

Definition minInt : Z := - 2 ^ 63.
Definition maxInt : Z := 2 ^ 63 - 1.

Definition inRange (z : Z) : Prop := minInt <= z <= maxInt.

(** Two's complement wrap-around of a mathematical integer. *)
Definition wrap (z : Z) : Z := (z + 2 ^ 63) `mod` 2 ^ 64 - 2 ^ 63.

#[global] Arguments wrap : simpl never.

Definition add (a b : Z) : Z := wrap (a + b).
Definition sub (a b : Z) : Z := wrap (a - b).
Definition mul (a b : Z) : Z := wrap (a * b).
Definition neg (a : Z) : Z := wrap (- a).

(** [a / b] for [b <> 0]: truncated division ([minInt / -1] wraps). *)
Definition quot (a b : Z) : Z := wrap (Z.quot a b).

(** [a << uint(n)]: converting a negative [n] to [uint] gives a count of at
    least 64, and a shift by 64 or more gives 0. *)
Definition shl (a n : Z) : Z :=
  if bool_decide (0 <= n < 64) then wrap (a * 2 ^ n) else 0.

End GoInt.

(** ** Outcomes, panics and the state monad *)

(** The run-time panics the embedded functions can raise: the explicit
    [panic(...)] calls of the sources, with the values their messages print, and
    the panics of the Go run time. *)
Inductive panic : Type :=
  | PanicPixelsLen (want got : Z)
      (* "restorable: len(pixels) must be %d but %d" *)
  | PanicRegionConflict (newr r : (Z * Z) * (Z * Z))
      (* "restorable: region (%#v) conflicted with the other region (%#v)" *)
  | PanicLevelZero
      (* "ebiten: level must be non-zero at level" *)
  | PanicVolatileMipmap
      (* "ebiten: mipmap images for a volatile image is not implemented yet" *)
  | PanicInvalidLevel (level : Z)
      (* "ebiten: invalid level: %d": the default case of the switch of
         [level], which no level reaches *)
  | PanicDetNaN_mipmapLevel
      (* "ebiten: det must be finite at mipmapLevel" *)
  | PanicDetZero_mipmapLevel
      (* "ebiten: dst must be non zero at mipmapLevel" *)
  | PanicDetNaN_mipmapLevelForDownscale
      (* "ebiten: det must be finite at mipmapLevelForDownscale" *)
  | PanicDetZero_mipmapLevelForDownscale
      (* "ebiten: dst must be non zero at mipmapLevelForDownscale" *)
  | PanicIndexOutOfRange (idx len : Z)
      (* runtime error: index out of range *)
  | PanicSliceBounds (lo hi cap : Z)
      (* runtime error: slice bounds out of range *)
  | PanicMakeSlice (len : Z)
      (* runtime error: makeslice: len out of range *)
  | PanicDivideByZero
      (* runtime error: integer divide by zero *)
  | PanicNilDereference.
      (* runtime error: invalid memory address or nil pointer dereference *)

(** [Diverge] is the outcome of a loop that never ends. *)
Inductive outcome (A : Type) : Type :=
  | Ok (a : A)
  | Panic (p : panic)
  | Diverge.
Arguments Ok {A} a.
Arguments Panic {A} p.
Arguments Diverge {A}.

Definition M (S A : Type) : Type := S -> outcome A * S.

Definition ret {S A} (a : A) : M S A := fun s => (Ok a, s).

Definition bind {S A B} (c : M S A) (k : A -> M S B) : M S B :=
  fun s =>
    match c s with
    | (Ok a, s') => k a s'
    | (Panic p, s') => (Panic p, s')
    | (Diverge, s') => (Diverge, s')
    end.

Definition throw {S A} (p : panic) : M S A := fun s => (Panic p, s).
Definition get {S} : M S S := fun s => (Ok s, s).
Definition put {S} (s : S) : M S unit := fun _ => (Ok tt, s).
Definition modify {S} (f : S -> S) : M S unit := fun s => (Ok tt, f s).

Notation "x <- c ;; k" := (bind c (fun x => k))
  (at level 100, c at next level, right associativity).
Notation "c ;;; k" := (bind c (fun _ => k))
  (at level 100, right associativity).

(** ** Package [image] of the Go standard library *)

Module image.

Record Point : Type := Pt { X : Z; Y : Z }.

Record Rectangle : Type := mkRectangle { Min : Point; Max : Point }.

(** The zero value [image.Rectangle{}]. *)
Definition ZR : Rectangle := mkRectangle (Pt 0 0) (Pt 0 0).

(** [Rect] swaps the coordinates so that [Min] is below [Max]. *)
Definition Rect (x0 y0 x1 y1 : Z) : Rectangle :=
  let '(x0, x1) := if bool_decide (x0 > x1) then (x1, x0) else (x0, x1) in
  let '(y0, y1) := if bool_decide (y0 > y1) then (y1, y0) else (y0, y1) in
  mkRectangle (Pt x0 y0) (Pt x1 y1).

Definition Dx (r : Rectangle) : Z := GoInt.sub (X (Max r)) (X (Min r)).
Definition Dy (r : Rectangle) : Z := GoInt.sub (Y (Max r)) (Y (Min r)).

Definition Empty (r : Rectangle) : bool :=
  bool_decide (X (Min r) >= X (Max r)) || bool_decide (Y (Min r) >= Y (Max r)).

Definition Overlaps (r s : Rectangle) : bool :=
  negb (Empty r) && negb (Empty s) &&
  bool_decide (X (Min r) < X (Max s)) && bool_decide (X (Min s) < X (Max r)) &&
  bool_decide (Y (Min r) < Y (Max s)) && bool_decide (Y (Min s) < Y (Max r)).

Definition In (p : Point) (r : Rectangle) : bool :=
  bool_decide (X (Min r) <= X p) && bool_decide (X p < X (Max r)) &&
  bool_decide (Y (Min r) <= Y p) && bool_decide (Y p < Y (Max r)).

(** The coordinates of a rectangle, as a panic message prints them. *)
Definition coords (r : Rectangle) : (Z * Z) * (Z * Z) :=
  ((X (Min r), Y (Min r)), (X (Max r), Y (Max r))).

#[global] Instance Point_eq_dec : EqDecision Point.
Proof. solve_decision. Defined.

#[global] Instance Rectangle_eq_dec : EqDecision Rectangle.
Proof. solve_decision. Defined.

#[global] Instance Rectangle_countable : Countable Rectangle.
Proof.
  refine (inj_countable' coords
            (fun c => mkRectangle (Pt c.1.1 c.1.2) (Pt c.2.1 c.2.2)) _).
  intros [[? ?] [? ?]]. reflexivity.
Defined.

End image.

(** ** Package restorable: the pixel patch store *)

Module rectToPixels.

(** [type rectToPixels struct { m map[image.Rectangle][]byte; last image.Rectangle }].
    [m = None] is the nil map.  A stored patch is a value: [addOrReplace]
    copies the caller's buffer, so no later write of the caller reaches it. *)
Record t : Type := mk {
  m : option (gmap image.Rectangle (list byte));
  last : image.Rectangle
}.

(** The zero value [rectToPixels{}]. *)
Definition zero : t := mk None image.ZR.

(** The keys of the map; the nil map has none. *)
Definition keys (rtp : t) : list image.Rectangle :=
  match m rtp with
  | None => []
  | Some mp => elements (dom mp)
  end.

(** Go leaves the order of [for r := range rtp.m] unspecified.  Each function
    with such a loop takes the order the loop visits the keys in as its first
    argument; [range_order rtp order] says that [order] is an order of the
    keys of [rtp.m], each visited once. *)
Definition range_order (rtp : t) (order : list image.Rectangle) : Prop :=
  order ≡ₚ keys rtp.

(** [pix[idx]] *)
Definition index (pix : list byte) (idx : Z) : M t byte :=
  if bool_decide (0 <= idx < Z.of_nat (length pix)) then
    ret (nth (Z.to_nat idx) pix x00)
  else
    throw (PanicIndexOutOfRange idx (Z.of_nat (length pix))).

(** The loop of [addOrReplace]: the first key that is [newr] or overlaps it. *)
Inductive ranged : Type :=
  | RangeSame (r : image.Rectangle)
  | RangeOverlaps (r : image.Rectangle)
  | RangeDone.

Fixpoint addOrReplace_range (newr : image.Rectangle)
    (order : list image.Rectangle) : ranged :=
  match order with
  | [] => RangeDone
  | r :: order' =>
      if bool_decide (r = newr) then RangeSame r
      else if image.Overlaps r newr then RangeOverlaps r
      else addOrReplace_range newr order'
  end.

(** [rtp.m[r] = pix] on a map that is not nil. *)
Definition store (r : image.Rectangle) (pix : list byte) : M t unit :=
  modify (fun rtp => mk (Some (<[r := pix]> (default ∅ (m rtp)))) (last rtp)).

Definition addOrReplace (order : list image.Rectangle) (pixels : list byte)
    (x y width height : Z) : M t unit :=
  let want := GoInt.mul (GoInt.mul 4 width) height in
  if bool_decide (Z.of_nat (length pixels) <> want) then
    throw (PanicPixelsLen want (Z.of_nat (length pixels)))
  else
    rtp <- get ;;
    (match m rtp with
     | None => put (mk (Some ∅) (last rtp))
     | Some _ => ret tt
     end) ;;;
    let copied := pixels in
    let newr := image.Rect x y (GoInt.add x width) (GoInt.add y height) in
    match addOrReplace_range newr order with
    | RangeSame r =>
        (* Replace the region. *)
        store r copied
    | RangeOverlaps r =>
        throw (PanicRegionConflict (image.coords newr) (image.coords r))
    | RangeDone =>
        (* Add the region. *)
        store newr copied
    end.

Definition remove (order : list image.Rectangle) (x y width height : Z) : M t unit :=
  rtp <- get ;;
  match m rtp with
  | None => ret tt
  | Some mp =>
      let newr := image.Rect x y (GoInt.add x width) (GoInt.add y height) in
      match find (fun r => bool_decide (r = newr)) order with
      | Some r => put (mk (Some (delete r mp)) (last rtp))
      | None => ret tt
      end
  end.

(** The first part of [at]: the rectangle [r] points to, [None] for nil.
    A hit in the scan is remembered in [rtp.last]. *)
Definition at_find (order : list image.Rectangle) (pt : image.Point)
    : M t (option image.Rectangle) :=
  rtp <- get ;;
  if image.In pt (last rtp) then
    ret (Some (last rtp))
  else
    match find (image.In pt) order with
    | Some rr => put (mk (m rtp) rr) ;;; ret (Some rr)
    | None => ret None
    end.

(** The last part of [at]: [pix := rtp.m[*r]] and the four bytes at [idx].
    Indexing a map at a missing key gives the nil slice. *)
Definition at_read (r : image.Rectangle) (i j : Z)
    : M t (byte * byte * byte * byte * bool) :=
  rtp <- get ;;
  let pix := default [] (default ∅ (m rtp) !! r) in
  let idx :=
    GoInt.mul 4
      (GoInt.add
         (GoInt.mul (GoInt.sub j (image.Y (image.Min r))) (image.Dx r))
         (GoInt.sub i (image.X (image.Min r)))) in
  p0 <- index pix idx ;;
  p1 <- index pix (GoInt.add idx 1) ;;
  p2 <- index pix (GoInt.add idx 2) ;;
  p3 <- index pix (GoInt.add idx 3) ;;
  ret (p0, p1, p2, p3, true).

Definition at_ (order : list image.Rectangle) (i j : Z)
    : M t (byte * byte * byte * byte * bool) :=
  rtp <- get ;;
  match m rtp with
  | None => ret (x00, x00, x00, x00, false)
  | Some _ =>
      r <- at_find order (image.Pt i j) ;;
      match r with
      | None => ret (x00, x00, x00, x00, false)
      | Some r => at_read r i j
      end
  end.

(** The states a store goes through: from the zero value, by calls that
    return, each loop visiting the keys in any order. *)
Inductive reachable : t -> Prop :=
  | reach_zero : reachable zero
  | reach_addOrReplace rtp order pixels x y width height rtp' :
      reachable rtp -> range_order rtp order ->
      addOrReplace order pixels x y width height rtp = (Ok tt, rtp') ->
      reachable rtp'
  | reach_remove rtp order x y width height rtp' :
      reachable rtp -> range_order rtp order ->
      remove order x y width height rtp = (Ok tt, rtp') ->
      reachable rtp'
  | reach_at rtp order i j v rtp' :
      reachable rtp -> range_order rtp order ->
      at_ order i j rtp = (Ok v, rtp') ->
      reachable rtp'.

(** No two stored rectangles overlap. *)
Definition no_overlap (rtp : t) : Prop :=
  forall r1 r2, r1 ∈ keys rtp -> r2 ∈ keys rtp -> r1 <> r2 ->
    image.Overlaps r1 r2 = false.

(** [last] is fresh for the point [pt]: it holds [pt] only if it is a key of
    the map.  [remove] does not keep this up. *)
Definition last_fresh (rtp : t) (pt : image.Point) : Prop :=
  image.In pt (last rtp) = true -> last rtp ∈ keys rtp.

(** [last] is the zero rectangle or a key of the map: it is fresh for every
    point. *)
Definition last_valid (rtp : t) : Prop :=
  last rtp = image.ZR \/ last rtp ∈ keys rtp.

(** The patch stored for [r], if any. *)
Definition patch (rtp : t) (r : image.Rectangle) : option (list byte) :=
  default ∅ (m rtp) !! r.

(** A call [img.ReplacePixels(pixels, x, y, width, height)] on a
    [*graphicscommand.Image].  Package graphicscommand is not among the
    sources: a call is recorded with its arguments. *)
Record ReplacePixelsCall : Type := mkReplacePixelsCall {
  call_pixels : list byte;
  call_x : Z;
  call_y : Z;
  call_width : Z;
  call_height : Z
}.

(** The call the loop of [apply] makes at the key [r]. *)
Definition apply_call (rtp : t) (r : image.Rectangle) : ReplacePixelsCall :=
  mkReplacePixelsCall (default [] (patch rtp r))
    (image.X (image.Min r)) (image.Y (image.Min r)) (image.Dx r) (image.Dy r).

(** [apply]: the calls made on [img], in the order they are made.  The store
    is only read. *)
Definition apply (order : list image.Rectangle) (rtp : t) : list ReplacePixelsCall :=
  apply_call rtp <$> order.

End rectToPixels.

(** ** Go floating-point numbers

    [float32] and [float64] are the IEEE 754 binary32 and binary64 formats,
    with the operations of [SpecFloat] (round to nearest, ties to even).  Each
    Go operation is one rounded operation: operations are not fused. *)

Definition float32 : Type := spec_float.
Definition float64 : Type := spec_float.

Module f32.
Definition prec : Z := 24.
Definition emax : Z := 128.

Definition valid (x : float32) : Prop := valid_binary prec emax x = true.

(** [float32(z)] for an integer [z], and [z * 2^e]. *)
Definition of_Z (z : Z) : float32 := binary_normalize prec emax z 0 false.
Definition of_Z_exp (z e : Z) : float32 := binary_normalize prec emax z e false.

Definition add : float32 -> float32 -> float32 := SFadd prec emax.
Definition sub : float32 -> float32 -> float32 := SFsub prec emax.
Definition mul : float32 -> float32 -> float32 := SFmul prec emax.
Definition div : float32 -> float32 -> float32 := SFdiv prec emax.

Definition eqb : float32 -> float32 -> bool := SFeqb.   (* [==] *)
Definition ltb : float32 -> float32 -> bool := SFltb.   (* [<]  *)
Definition leb : float32 -> float32 -> bool := SFleb.   (* [<=] *)

Definition zero : float32 := S754_zero false.
Definition one : float32 := of_Z 1.
Definition two : float32 := of_Z 2.
Definition half : float32 := of_Z_exp 1 (-1).
Definition inf (neg : bool) : float32 := S754_infinity neg.   (* [math.Inf(+-1)] *)
End f32.

Module f64.
Definition prec : Z := 53.
Definition emax : Z := 1024.

Definition valid (x : float64) : Prop := valid_binary prec emax x = true.

Definition of_Z_exp (z e : Z) : float64 := binary_normalize prec emax z e false.

(** [float64(x)] for a [float32]: every [float32] is a [float64], only its
    mantissa and exponent are normalised to the wider format. *)
Definition of_float32 (x : float32) : float64 :=
  match x with
  | S754_finite s m e => binary_round prec emax s m e
  | _ => x
  end.

Definition mul : float64 -> float64 -> float64 := SFmul prec emax.
Definition ltb : float64 -> float64 -> bool := SFltb.
Definition abs : float64 -> float64 := SFabs.           (* [math.Abs] *)

Definition quarter : float64 := of_Z_exp 1 (-2).        (* 0.25 *)
Definition four : float64 := of_Z_exp 4 0.
End f64.

(** The magnitude of a finite float [m * 2^e]: the [g] with
    [2^(g-1) <= m * 2^e < 2^g]; 0 for the other floats. *)
Definition mag (x : spec_float) : Z :=
  match x with
  | S754_finite _ m e => Zpos (digits2_pos m) + e
  | _ => 0
  end.

(** [float32(p/q)], the float nearest to the fraction: what a Go constant
    such as [0.2] is as a [float32]. *)
Definition float32_of_ratio (p q : Z) : float32 :=
  f32.div (f32.of_Z p) (f32.of_Z q).

(** [math.IsNaN] *)
Definition IsNaN (x : float64) : bool :=
  match x with
  | S754_nan => true
  | _ => false
  end.

(** Equality of floats as data (not [==]) is decidable. *)
#[global] Instance spec_float_eq_dec : EqDecision spec_float.
Proof. solve_decision. Defined.

(** ** Package ebiten: the pure functions of the mipmap pyramid *)

(** The loop [for i := 0; i < level; i++] of [sizeForLevel], [n] rounds left. *)
Fixpoint sizeForLevel_halve (n : nat) (width height : Z) : Z * Z :=
  match n with
  | O => (width, height)
  | S n' =>
      let width := GoInt.quot width 2 in
      let height := GoInt.quot height 2 in
      if bool_decide (width = 0) || bool_decide (height = 0) then (0, 0)
      else sizeForLevel_halve n' width height
  end.

(** The loop [for i := 0; i < -level; i++] of [sizeForLevel]. *)
Fixpoint sizeForLevel_double (n : nat) (width height : Z) : Z * Z :=
  match n with
  | O => (width, height)
  | S n' => sizeForLevel_double n' (GoInt.mul width 2) (GoInt.mul height 2)
  end.

Definition sizeForLevel (origWidth origHeight level : Z) : Z * Z :=
  if bool_decide (level > 0) then
    sizeForLevel_halve (Z.to_nat level) origWidth origHeight
  else
    sizeForLevel_double (Z.to_nat (GoInt.neg level)) origWidth origHeight.

(** One round of each loop of [sizeForLevel], as a function of the sizes. *)
Definition halve_step (s : Z * Z) : Z * Z :=
  let '(w, h) := s in
  if bool_decide (GoInt.quot w 2 = 0) || bool_decide (GoInt.quot h 2 = 0) then (0, 0)
  else (GoInt.quot w 2, GoInt.quot h 2).

Definition double_step (s : Z * Z) : Z * Z :=
  let '(w, h) := s in (GoInt.mul w 2, GoInt.mul h 2).

(** The loop [for d < 0.25 { level++; d *= 4 }] of [mipmapLevelForDownscale].
    [fuel] bounds the rounds; out of fuel, the loop is taken not to end. *)
Fixpoint mipmapLevelForDownscale_loop (fuel : nat) (d : float64) (level : Z)
    : outcome Z :=
  if f64.ltb d f64.quarter then
    match fuel with
    | O => Diverge
    | S fuel' =>
        mipmapLevelForDownscale_loop fuel' (f64.mul d f64.four) (GoInt.add level 1)
    end
  else Ok level.

(** A [float64] below 0.25 that is not zero is at least [2^-1074]; it passes
    0.25 within 536 multiplications by 4. *)
Definition mipmapLevelForDownscale_fuel : nat := 600.

Definition mipmapLevelForDownscale (det : float32) : outcome Z :=
  if IsNaN (f64.of_float32 det) then
    Panic PanicDetNaN_mipmapLevelForDownscale
  else if f32.eqb det f32.zero then
    Panic PanicDetZero_mipmapLevelForDownscale
  else
    (* TODO: Should this be determined by x/y scales instead of det? *)
    let d := f64.abs (f64.of_float32 det) in
    mipmapLevelForDownscale_loop mipmapLevelForDownscale_fuel d 0.

(** The levels [mipmapLevelForDownscale] counts, in the words of the
    specification: [d] multiplied by 4 [n] times. *)
Definition times4 (n : nat) (d : float64) : float64 :=
  Nat.iter n (fun d => f64.mul d f64.four) d.

(** The level of a determinant of magnitude [g]: one level for each two
    binary orders of magnitude below 0.25. *)
Definition downscale_steps (g : Z) : Z := Z.max 0 (- g / 2).

Definition pow2 (power : Z) : float32 :=
  if bool_decide (power >= 0) then
    f32.of_Z (GoInt.shl 1 power)
  else
    Nat.iter (Z.to_nat (GoInt.neg power)) (fun x => f32.div x f32.two) f32.one.

Definition maxf32 (values : list float32) : float32 :=
  fold_left (fun max v => if f32.ltb max v then v else max) values (f32.inf true).

Definition minf32 (values : list float32) : float32 :=
  fold_left (fun min v => if f32.ltb v min then v else min) values (f32.inf false).

(** One round of the loop of [maxf32], and of [minf32]. *)
Definition max_step (max v : float32) : float32 := if f32.ltb max v then v else max.
Definition min_step (min v : float32) : float32 := if f32.ltb v min then v else min.

(** ** Package ebiten: the vertex arena *)

(** Modelled from the spec: the constant [graphics.VertexFloatNum], "the fixed
    per-vertex stride", is declared in package [graphics], which is not among
    the sources.  Its value is read off its two users here: [drawTriangles]
    writes the floats 0 to 11 of each vertex and [quadVertices] takes
    [vs[:48]] of [vertexSlice(4)]. *)
Definition VertexFloatNum : Z := 12.

(** A Go slice [a[lo:hi]] of [float32], as a window of the array [a] it is
    backed by.  Arrays are named by the order [make] allocated them in.  Two
    windows share memory iff they are windows of one array and their ranges
    meet. *)
Record Slice : Type := mkSlice {
  array : nat;
  lo : Z;
  hi : Z
}.

Definition disjoint (s1 s2 : Slice) : Prop :=
  array s1 <> array s2 \/ hi s1 <= lo s2 \/ hi s2 <= lo s1.

Module verticesBackend.

(** [type verticesBackend struct { backend []float32; head int; m sync.Mutex }].
    [backend] is nil or a whole array, kept with its length.  The mutex
    brackets the whole of [slice]: calls run one after the other, which is
    how they are composed here. *)
Record t : Type := mk {
  backend : option (nat * Z);
  head : Z
}.

(** The values [slice] works on: the arena and the arrays allocated so far
    (the length of each, in order of allocation). *)
Record heap : Type := mkHeap {
  v : t;
  arrays : list Z
}.

(** [var theVerticesBackend = &verticesBackend{}] *)
Definition init : heap := mkHeap (mk None 0) [].

(** [len(v.backend)] *)
Definition len (b : option (nat * Z)) : Z :=
  match b with
  | None => 0
  | Some (_, l) => l
  end.

(** [make([]float32, l)]: a fresh array.  A negative length panics; memory
    is not bounded. *)
Definition make (l : Z) : M heap (nat * Z) :=
  if bool_decide (l < 0) then throw (PanicMakeSlice l)
  else
    h <- get ;;
    put (mkHeap (v h) (arrays h ++ [l])) ;;;
    ret (length (arrays h), l).

(** [b[low:high]] for a slice [b] that is a whole array or nil. *)
Definition reslice (b : option (nat * Z)) (low high : Z) : M heap Slice :=
  if bool_decide (0 <= low <= high /\ high <= len b) then
    ret (mkSlice (match b with Some (a, _) => a | None => O end) low high)
  else
    throw (PanicSliceBounds low high (len b)).

Definition slice (n : Z) : M heap Slice :=
  let need := GoInt.mul n VertexFloatNum in
  h <- get ;;
  (if bool_decide (GoInt.add (head (v h)) need > len (backend (v h))) then
     put (mkHeap (mk None 0) (arrays h))
   else ret tt) ;;;
  h <- get ;;
  (match backend (v h) with
   | None =>
       let l := if bool_decide (n > 1024) then n else 1024 in
       b <- make (GoInt.mul VertexFloatNum l) ;;
       h <- get ;;
       put (mkHeap (mk (Some b) (head (v h))) (arrays h))
   | Some _ => ret tt
   end) ;;;
  h <- get ;;
  s <- reslice (backend (v h)) (head (v h)) (GoInt.add (head (v h)) need) ;;
  put (mkHeap (mk (backend (v h)) (GoInt.add (head (v h)) need)) (arrays h)) ;;;
  ret s.

(** Successive calls [slice(n1)], [slice(n2)], ... and the slices returned. *)
Fixpoint slices (ns : list Z) : M heap (list Slice) :=
  match ns with
  | [] => ret []
  | n :: ns' =>
      s <- slice n ;;
      ss <- slices ns' ;;
      ret (s :: ss)
  end.

(** The arena between calls: the cursor lies within the buffer, and the
    buffer is one of the arrays allocated, at its length. *)
Definition wf (h : heap) : Prop :=
  match backend (v h) with
  | None => head (v h) = 0
  | Some (a, l) =>
      0 <= head (v h) <= l /\ l <= 2 ^ 62 /\
      nth_error (arrays h) a = Some l
  end.

(** The sizes [n] for which [n * VertexFloatNum] and the cursor stay far
    from the end of [int]. *)
Definition small (n : Z) : Prop := 0 <= n <= 2 ^ 58.

(** [slice] in the words of the specification: when the buffer is missing
    or too short for [n] more vertices, the call discards it, allocates one
    of [max(1024, n)] vertices, resets the cursor to 0 and carves the slice
    from the front; otherwise it carves the slice at the cursor.  Either way
    the cursor then moves on by [n] vertices. *)
Definition slice_spec (n : Z) (h : heap) : Slice * heap :=
  let need := n * VertexFloatNum in
  match backend (v h) with
  | Some (a, l) =>
      if bool_decide (head (v h) + need > l) then
        let l' := VertexFloatNum * Z.max 1024 n in
        (mkSlice (length (arrays h)) 0 need,
         mkHeap (mk (Some (length (arrays h), l')) need) (arrays h ++ [l']))
      else
        (mkSlice a (head (v h)) (head (v h) + need),
         mkHeap (mk (Some (a, l)) (head (v h) + need)) (arrays h))
  | None =>
      let l' := VertexFloatNum * Z.max 1024 n in
      (mkSlice (length (arrays h)) 0 need,
       mkHeap (mk (Some (length (arrays h), l')) need) (arrays h ++ [l']))
  end.

(** [within h s]: [s] is a window of an array of [h]. *)
Definition within (h : heap) (s : Slice) : Prop :=
  0 <= lo s <= hi s /\
  exists l, nth_error (arrays h) (array s) = Some l /\ hi s <= l.

(** [later h s]: [s] does not reach below the cursor of [h]: it is a window
    of the buffer of [h] above the cursor, or of an array allocated after
    [h]. *)
Definition later (h : heap) (s : Slice) : Prop :=
  (exists l, backend (v h) = Some (array s, l) /\ head (v h) <= lo s)
  \/ (length (arrays h) <= array s)%nat.

(** [before s1 s2]: if both are windows of one array, [s1] ends where [s2]
    starts or below. *)
Definition before (s1 s2 : Slice) : Prop :=
  array s1 = array s2 -> hi s1 <= lo s2.

End verticesBackend.

Definition vertexSlice (n : Z) : M verticesBackend.heap Slice :=
  verticesBackend.slice n.

(** [quadVertices]: the slice of the arena the quad is written to, and the 48
    floats written to it. *)
Definition quadVertices (sx0 sy0 sx1 sy1 : Z) (a b c d tx ty : float32)
    (cr cg cb ca : float32) : M verticesBackend.heap (Slice * list float32) :=
  let x := f32.of_Z (GoInt.sub sx1 sx0) in
  let y := f32.of_Z (GoInt.sub sy1 sy0) in
  let ax := f32.mul a x in
  let by_ := f32.mul b y in
  let cx := f32.mul c x in
  let dy := f32.mul d y in
  let u0 := f32.of_Z sx0 in
  let v0 := f32.of_Z sy0 in
  let u1 := f32.of_Z sx1 in
  let v1 := f32.of_Z sy1 in
  (* This function is very performance-sensitive and implement in a very dumb way. *)
  vs <- vertexSlice 4 ;;
  (* _ = vs[:48] *)
  (if bool_decide (48 <= hi vs - lo vs) then ret tt
   else throw (PanicSliceBounds 0 48 (hi vs - lo vs))) ;;;
  ret (vs,
       [ tx; ty; u0; v0; u0; v0; u1; v1; cr; cg; cb; ca;
         f32.add ax tx; f32.add cx ty; u1; v0; u0; v0; u1; v1; cr; cg; cb; ca;
         f32.add by_ tx; f32.add dy ty; u0; v1; u0; v0; u1; v1; cr; cg; cb; ca;
         f32.add (f32.add ax by_) tx; f32.add (f32.add cx dy) ty;
           u1; v1; u0; v0; u1; v1; cr; cg; cb; ca ]).

(** ** Package ebiten: the mipmap pyramid *)

(** The declarations the pyramid uses from files that are not among the
    sources, taken as parameters: the geometry matrix ([GeoM], of package
    ebiten), the colour matrix ([affine.ColorM]), the enumerations of package
    [driver] and the index list of a quad ([graphics.QuadIndices]).
    [colorm] is a pointer and may be nil ([None]). *)
Class Externals : Type := {
  GeoM : Type;
  GeoM_det : GeoM -> float32;
  GeoM_elements : GeoM -> float32 * float32 * float32 * float32 * float32 * float32;
  ColorM : Type;
  ColorM_ScaleOnly : option ColorM -> bool;
  ColorM_UnsafeElements : option ColorM -> list float32 * list float32;
  Color : Type;
  Filter : Type;
  Filter_eq_dec :: EqDecision Filter;
  FilterNearest : Filter;
  FilterLinear : Filter;
  CompositeMode : Type;
  CompositeModeCopy : CompositeMode;
  Address : Type;
  AddressClampToZero : Address;
  QuadIndices : list Z
}.


(** A [*shareable.Image] is nil ([None]) or names an image of the backend. *)
Definition Image : Type := nat.

(** A [*mipmap]. *)
Definition loc : Type := nat.

(** [type levelToImage map[int]*shareable.Image] *)
Abbreviation levelToImage := (gmap Z (option Image)).

Record mipmap : Type := mkMipmap {
  width : Z;
  height : Z;
  volatile : bool;
  orig : option Image;
  imgs : gmap image.Rectangle levelToImage
}.

Section Mipmap.
Context {ext : Externals}.

(** Modelled from the spec: package [shareable] is not among the sources.
    The spec treats the graphics backend as "an opaque, correctly-ordered
    operation": a call to it is recorded, with its arguments, in the order it
    is issued, and returns.  A vertex slice is recorded with the floats it
    holds at the call. *)
Inductive event : Type :=
  | NewImage (img : Image) (width height : Z) (volatile : bool)
  | NewScreenFramebufferImage (img : Image) (width height : Z)
  | Fill (img : option Image) (clr : Color)
  | ReplacePixels (img : option Image) (pix : list byte)
  | DrawTriangles (dst src : option Image) (vs : Slice) (vertices : list float32)
      (indices : list Z) (colorm : option ColorM) (mode : CompositeMode)
      (filter : Filter) (address : Address)
  | Dispose (img : option Image).

(** The state the pyramids work on: the pyramids allocated, by address, the
    vertex arena, and the calls made to the backend so far. *)
Record World : Type := mkWorld {
  mipmaps : gmap loc mipmap;
  arena : verticesBackend.heap;
  next_image : Image;
  trace : list event
}.

(** The draw calls of a trace. *)
Definition is_draw (e : event) : bool :=
  match e with
  | DrawTriangles _ _ _ _ _ _ _ _ _ => true
  | _ => false
  end.

Definition draws (w : World) : list event := filter is_draw (trace w).

(** *** Access to the state *)

Definition emit (e : event) : M World unit :=
  modify (fun w => mkWorld (mipmaps w) (arena w) (next_image w) (trace w ++ [e])).

(** [shareable.NewImage(width, height, volatile)] *)
Definition shareable_NewImage (width height : Z) (volatile : bool) : M World Image :=
  w <- get ;;
  put (mkWorld (mipmaps w) (arena w) (S (next_image w)) (trace w)) ;;;
  emit (NewImage (next_image w) width height volatile) ;;;
  ret (next_image w).

(** [shareable.NewScreenFramebufferImage(width, height)] *)
Definition shareable_NewScreenFramebufferImage (width height : Z) : M World Image :=
  w <- get ;;
  put (mkWorld (mipmaps w) (arena w) (S (next_image w)) (trace w)) ;;;
  emit (NewScreenFramebufferImage (next_image w) width height) ;;;
  ret (next_image w).

(** Reading through a [*mipmap]. *)
Definition deref (m : loc) : M World mipmap :=
  w <- get ;;
  match mipmaps w !! m with
  | Some mm => ret mm
  | None => throw PanicNilDereference
  end.

(** Writing through a [*mipmap]. *)
Definition assign (m : loc) (mm : mipmap) : M World unit :=
  modify (fun w => mkWorld (<[m := mm]> (mipmaps w)) (arena w) (next_image w) (trace w)).

(** Running a function of the vertex arena on the arena of the world. *)
Definition on_arena {A} (c : M verticesBackend.heap A) : M World A :=
  fun w =>
    let '(o, a) := c (arena w) in
    (o, mkWorld (mipmaps w) a (next_image w) (trace w)).

(** [m.imgs[r][level] = img] *)
Definition set_level (m : loc) (r : image.Rectangle) (level : Z)
    (img : option Image) : M World unit :=
  mm <- deref m ;;
  assign m (mkMipmap (width mm) (height mm) (volatile mm) (orig mm)
              (<[r := <[level := img]> (default ∅ (imgs mm !! r))]> (imgs mm))).

(** *** The functions of the pyramid *)

Definition newMipmap (width height : Z) (volatile : bool) : M World loc :=
  img <- shareable_NewImage width height volatile ;;
  w <- get ;;
  let m := fresh (dom (mipmaps w)) in
  assign m (mkMipmap width height volatile (Some img) ∅) ;;;
  ret m.

Definition newScreenFramebufferMipmap (width height : Z) : M World loc :=
  img <- shareable_NewScreenFramebufferImage width height ;;
  w <- get ;;
  let m := fresh (dom (mipmaps w)) in
  assign m (mkMipmap width height false (Some img) ∅) ;;;
  ret m.

(** [img.Dispose()] for each image of a list. *)
Fixpoint dispose_each (l : list (option Image)) : M World unit :=
  match l with
  | [] => ret tt
  | img :: l' => emit (Dispose img) ;;; dispose_each l'
  end.

(** The two loops of [disposeMipmaps].  Go leaves the order of the first
    unspecified; the images are disposed in the order of [map_to_list], and
    nothing below depends on that order.  The markers of levels that cannot
    be represented are nil images, and are passed to [Dispose] like the
    others. *)
Definition disposeMipmaps (m : loc) : M World unit :=
  mm <- deref m ;;
  dispose_each (mjoin ((fun a => (map_to_list a.2).*2) <$> map_to_list (imgs mm))) ;;;
  mm <- deref m ;;
  assign m (mkMipmap (width mm) (height mm) (volatile mm) (orig mm) ∅).



Definition size (m : loc) : M World (Z * Z) :=
  mm <- deref m ;;
  ret (width mm, height mm).

(** The body of [level], for the level [k + 1] ([neg = false]) or
    [-(k + 1)] ([neg = true]).  [prev] is the recursive call
    [m.level(r, level-1)], respectively [m.level(r, level+1)], made when
    [k > 0]. *)
Definition level_body (neg : bool) (k : nat) (prev : M World (option Image))
    (m : loc) (r : image.Rectangle) : M World (option Image) :=
  let level := if neg then - Z.of_nat (S k) else Z.of_nat (S k) in
  if bool_decide (level = 0) then throw PanicLevelZero
  else
    mm <- deref m ;;
    if volatile mm then throw PanicVolatileMipmap
    else
      (match imgs mm !! r with
       | None =>
           assign m (mkMipmap (width mm) (height mm) (volatile mm) (orig mm)
                       (<[r := ∅]> (imgs mm)))
       | Some _ => ret tt
       end) ;;;
      mm <- deref m ;;
      match default ∅ (imgs mm !! r) !! level with
      | Some img => ret img
      | None =>
          prepared <-
            (match k with
             | O =>
                 (* case level == 1, case level == -1 *)
                 let s := if neg then f32.two else f32.half in
                 vs <- on_arena
                         (quadVertices (image.X (image.Min r)) (image.Y (image.Min r))
                            (image.X (image.Max r)) (image.Y (image.Max r))
                            s f32.zero f32.zero s f32.zero f32.zero
                            f32.one f32.one f32.one f32.one) ;;
                 ret (Some (orig mm, vs))
             | S _ =>
                 (* case level > 1, case level < -1 *)
                 src <- prev ;;
                 match src with
                 | None => set_level m r level None ;;; ret None
                 | Some _ =>
                     let prev_level :=
                       if neg then GoInt.add level 1 else GoInt.sub level 1 in
                     let '(w, h) := sizeForLevel (image.Dx r) (image.Dy r) prev_level in
                     let s := if neg then f32.two else f32.half in
                     vs <- on_arena
                             (quadVertices 0 0 w h
                                s f32.zero f32.zero s f32.zero f32.zero
                                f32.one f32.one f32.one f32.one) ;;
                     ret (Some (src, vs))
                 end
             end) ;;
          match prepared with
          | None => ret None
          | Some (src, vs) =>
              let filter := if neg then FilterNearest else FilterLinear in
              let is_ := QuadIndices in
              let '(w2, h2) := sizeForLevel (image.Dx r) (image.Dy r) level in
              if bool_decide (w2 = 0) || bool_decide (h2 = 0) then
                set_level m r level None ;;; ret None
              else
                s <- shareable_NewImage w2 h2 (volatile mm) ;;
                emit (DrawTriangles (Some s) src vs.1 vs.2 is_ None
                        CompositeModeCopy filter AddressClampToZero) ;;;
                set_level m r level (Some s) ;;;
                ret (Some s)
          end
      end.

(** [level] by recursion on the distance of the level from 1, or -1. *)
Fixpoint level_rec (neg : bool) (k : nat) (m : loc) (r : image.Rectangle)
    {struct k} : M World (option Image) :=
  level_body neg k
    (match k with
     | O => ret None
     | S k' => level_rec neg k' m r
     end) m r.

Definition level (m : loc) (r : image.Rectangle) (level : Z) : M World (option Image) :=
  if bool_decide (level = 0) then throw PanicLevelZero
  else level_rec (bool_decide (level < 0)) (Z.to_nat (Z.abs level - 1)) m r.

Definition isDisposed (m : loc) : M World bool :=
  mm <- deref m ;;
  ret (bool_decide (orig mm = None)).

Definition dispose (m : loc) : M World unit :=
  disposeMipmaps m ;;;
  mm <- deref m ;;
  emit (Dispose (orig mm)) ;;;
  mm <- deref m ;;
  assign m (mkMipmap (width mm) (height mm) (volatile mm) None (imgs mm)).

Definition geomScaleSize (geom : GeoM) : float32 * float32 :=
  let '(a, b, c, d, _, _) := GeoM_elements geom in
  (* (0, 1) *)
  let x0 := f32.add (f32.mul f32.zero a) (f32.mul f32.one b) in
  let y0 := f32.add (f32.mul f32.zero c) (f32.mul f32.one d) in
  (* (1, 0) *)
  let x1 := f32.add (f32.mul f32.one a) (f32.mul f32.zero b) in
  let y1 := f32.add (f32.mul f32.one c) (f32.mul f32.zero d) in
  (* (1, 1) *)
  let x2 := f32.add (f32.mul f32.one a) (f32.mul f32.one b) in
  let y2 := f32.add (f32.mul f32.one c) (f32.mul f32.one d) in
  let maxx := maxf32 [f32.zero; x0; x1; x2] in
  let maxy := maxf32 [f32.zero; y0; y1; y2] in
  let minx := minf32 [f32.zero; x0; x1; x2] in
  let miny := minf32 [f32.zero; y0; y1; y2] in
  (f32.sub maxx minx, f32.sub maxy miny).

Definition tooBigScale : float32 := f32.of_Z 128.
Definition mipmapMaxSize : Z := 1024.

(** The loop [for sx >= tooBigScale || sy >= tooBigScale] of [mipmapLevel].
    With an infinite scale and sizes that never reach [mipmapMaxSize] the
    loop does not end; [fuel] bounds the rounds. *)
Fixpoint mipmapLevel_loop (fuel : nat) (sx sy : float32) (w h level : Z)
    : outcome Z :=
  if f32.leb tooBigScale sx || f32.leb tooBigScale sy then
    match fuel with
    | O => Diverge
    | S fuel' =>
        let level := GoInt.sub level 1 in
        let sx := f32.div sx f32.two in
        let sy := f32.div sy f32.two in
        let w := GoInt.mul w 2 in
        let h := GoInt.mul h 2 in
        if bool_decide (w >= mipmapMaxSize) || bool_decide (h >= mipmapMaxSize) then
          Ok level
        else mipmapLevel_loop fuel' sx sy w h level
    end
  else Ok level.

(** A finite [float32] is below [2^128] and falls below 128 within 122
    halvings; an [int] doubled 64 times is 0 and stays 0. *)
Definition mipmapLevel_fuel : nat := 256.

Definition lift {S A} (o : outcome A) : M S A := fun s => (o, s).

(** mipmapLevel returns an appropriate mipmap level for the given determinant
    of a geometry matrix.  mipmapLevel panics if det is NaN or 0. *)
Definition mipmapLevel (m : loc) (geom : GeoM) (width height : Z)
    (filter : Filter) : M World Z :=
  let det := GeoM_det geom in
  if IsNaN (f64.of_float32 det) then throw PanicDetNaN_mipmapLevel
  else if f32.eqb det f32.zero then throw PanicDetZero_mipmapLevel
  else
    (* Use 'negative' mipmap to render edges correctly (#611, #907). *)
    let '(sx, sy) := geomScaleSize geom in
    if f32.leb tooBigScale sx || f32.leb tooBigScale sy then
      (* If the filter is not nearest, the target needs to be rendered with
         graduation. Don't use mipmaps. *)
      if bool_decide (filter <> FilterNearest) then ret 0
      else
        let w := width in
        let h := height in
        if bool_decide (w >= mipmapMaxSize) || bool_decide (h >= mipmapMaxSize) then
          ret 0
        else lift (mipmapLevel_loop mipmapLevel_fuel sx sy w h 0)
    else if bool_decide (filter <> FilterLinear) then ret 0
    else
      mm <- deref m ;;
      if volatile mm then ret 0
      else
        (* This is a separate function for testing. *)
        lift (mipmapLevelForDownscale det).

(** The loop [for level >= 0] of [drawImage], entered with [level >= 0]:
    the largest level not above [level] at which neither side is scaled to
    0, or -1.  [1 << uint(level)] is 0 from level 64 on, and the division
    by it panics. *)
Fixpoint drawImage_adjust (w h : Z) (level : nat) : outcome Z :=
  let s := GoInt.shl 1 (Z.of_nat level) in
  if bool_decide (s = 0) then Panic PanicDivideByZero
  else if bool_decide (GoInt.quot w s = 0) || bool_decide (GoInt.quot h s = 0) then
    match level with
    | O => Ok (-1)
    | S level' => drawImage_adjust w h level'
    end
  else Ok (Z.of_nat level).

(** [body[i]] *)
Definition index_f32 {S} (body : list float32) (i : Z) : M S float32 :=
  if bool_decide (0 <= i < Z.of_nat (length body)) then
    ret (nth (Z.to_nat i) body f32.zero)
  else throw (PanicIndexOutOfRange i (Z.of_nat (length body))).

Definition drawImage (m src : loc) (bounds : image.Rectangle) (geom : GeoM)
    (colorm : option ColorM) (mode : CompositeMode) (filter : Filter)
    : M World unit :=
  let det := GeoM_det geom in
  if f32.eqb det f32.zero then ret tt
  else if IsNaN (f64.of_float32 det) then ret tt
  else
    lv <- mipmapLevel src geom (image.Dx bounds) (image.Dy bounds) filter ;;
    adjusted <-
      (if bool_decide (lv > 0) then
         (* If the image can be scaled into 0 size, adjust the level. (#839) *)
         lift (drawImage_adjust (image.Dx bounds) (image.Dy bounds) (Z.to_nat lv))
       else ret lv) ;;
    if bool_decide (lv > 0) && bool_decide (adjusted < 0) then
      (* As the render source is too small, nothing is rendered. *)
      ret tt
    else
      let lv := adjusted in
      let lv := if bool_decide (lv > 6) then 6 else lv in
      let lv := if bool_decide (lv < -6) then -6 else lv in
      color <-
        (if ColorM_ScaleOnly colorm then
           let body := (ColorM_UnsafeElements colorm).1 in
           cr <- index_f32 body 0 ;;
           cg <- index_f32 body 5 ;;
           cb <- index_f32 body 10 ;;
           ca <- index_f32 body 15 ;;
           ret (cr, cg, cb, ca, None)
         else ret (f32.one, f32.one, f32.one, f32.one, colorm)) ;;
      let '(cr, cg, cb, ca, colorm) := color in
      let '(a, b, c, d, tx, ty) := GeoM_elements geom in
      (if bool_decide (lv = 0) then
         vs <- on_arena
                 (quadVertices (image.X (image.Min bounds)) (image.Y (image.Min bounds))
                    (image.X (image.Max bounds)) (image.Y (image.Max bounds))
                    a b c d tx ty cr cg cb ca) ;;
         let is_ := QuadIndices in
         mm <- deref m ;;
         srcm <- deref src ;;
         emit (DrawTriangles (orig mm) (orig srcm) vs.1 vs.2 is_ colorm mode filter
                 AddressClampToZero)
       else
         shared <- level src bounds lv ;;
         match shared with
         | Some _ =>
             let '(w, h) := sizeForLevel (image.Dx bounds) (image.Dy bounds) lv in
             let s := pow2 lv in
             let a := f32.mul a s in
             let b := f32.mul b s in
             let c := f32.mul c s in
             let d := f32.mul d s in
             vs <- on_arena (quadVertices 0 0 w h a b c d tx ty cr cg cb ca) ;;
             let is_ := QuadIndices in
             mm <- deref m ;;
             emit (DrawTriangles (orig mm) shared vs.1 vs.2 is_ colorm mode filter
                     AddressClampToZero)
         | None => ret tt
         end) ;;;
      disposeMipmaps m.


(** *** Predicates on the worlds *)


(** The level [level_rec neg k] derives. *)
Definition level_of (neg : bool) (k : nat) : Z :=
  if neg then - Z.of_nat (S k) else Z.of_nat (S k).

(** The cache of [m] has no entry for the rectangle [r] at [level]. *)
Definition uncached (m : loc) (r : image.Rectangle) (level : Z) (w : World) : Prop :=
  forall mm a, mipmaps w !! m = Some mm -> imgs mm !! r = Some a -> a !! level = None.

(** The calls [evs] derive the image [img]: they allocate it and draw into
    it, by one quad, with composite mode copy and no colour matrix. *)
Definition derives (img : Image) (evs : list event) : Prop :=
  (exists width height volatile, NewImage img width height volatile ∈ evs)
  /\ (exists src vs vertices filter,
        DrawTriangles (Some img) src vs vertices QuadIndices None
          CompositeModeCopy filter AddressClampToZero ∈ evs).


(** The cache of the pyramid [m] is empty. *)
Definition cache_empty (m : loc) (w : World) : Prop :=
  exists mm, mipmaps w !! m = Some mm /\ imgs mm = ∅.

(** From [w] to [w']: the calls [evs] were made to the backend, after those
    of [w], and the images allocated are still allocated. *)
Definition extends_by (evs : list event) (w w' : World) : Prop :=
  trace w' = trace w ++ evs /\ (next_image w <= next_image w')%nat.

(** An event that concerns an image allocated at [n] or later only: the
    allocation of such an image, or a draw into one. *)
Definition fresh_event (n : Image) (e : event) : Prop :=
  match e with
  | NewImage i _ _ _ => (n <= i)%nat
  | DrawTriangles (Some i) _ _ _ _ _ _ _ _ => (n <= i)%nat
  | _ => False
  end.

(** From [w] to [w'], nothing has changed but the cache of the pyramid [m]
    for the rectangle [r] at the levels [touched], and the backend has only
    been asked to allocate images and to draw into the images allocated. *)
Definition level_changes (m : loc) (r : image.Rectangle) (touched : Z -> Prop)
    (w w' : World) : Prop :=
  (forall m', m' <> m -> mipmaps w' !! m' = mipmaps w !! m')
  /\ (exists mm mm',
        mipmaps w !! m = Some mm /\ mipmaps w' !! m = Some mm'
        /\ width mm' = width mm /\ height mm' = height mm
        /\ volatile mm' = volatile mm /\ orig mm' = orig mm
        /\ (forall r', r' <> r -> imgs mm' !! r' = imgs mm !! r')
        /\ (forall l, ~ touched l ->
              default ∅ (imgs mm' !! r) !! l = default ∅ (imgs mm !! r) !! l))
  /\ (exists evs,
        trace w' = trace w ++ evs /\ Forall (fresh_event (next_image w)) evs)
  /\ (next_image w <= next_image w')%nat.

End Mipmap.

(** ** A concrete choice of the parameters

    The closed examples are run with these: a geometry matrix given by its six
    elements and kept with its determinant [a*d - b*c], no colour matrix other
    than nil (which is not scale-only here), and the four filters of package
    [driver]. *)

Module sample.

Record matrix : Type := mkMatrix {
  a : float32; b : float32; c : float32; d : float32;
  tx : float32; ty : float32;
  det : float32
}.

Definition geoM (a b c d tx ty : float32) : matrix :=
  mkMatrix a b c d tx ty (f32.sub (f32.mul a d) (f32.mul b c)).

Definition elements (g : matrix) :=
  (a g, b g, c g, d g, tx g, ty g).

Inductive filter : Type := Default | Nearest | Linear | Screen.

#[global] Instance filter_eq_dec : EqDecision filter.
Proof. solve_decision. Defined.

#[global] Instance externals : Externals := {|
  GeoM := matrix;
  GeoM_det := det;
  GeoM_elements := elements;
  ColorM := Empty_set;
  ColorM_ScaleOnly := fun _ => false;
  ColorM_UnsafeElements := fun _ => ([], []);
  Color := unit;
  Filter := filter;
  FilterNearest := Nearest;
  FilterLinear := Linear;
  CompositeMode := unit;
  CompositeModeCopy := tt;
  Address := unit;
  AddressClampToZero := tt;
  QuadIndices := [0; 1; 2; 1; 2; 3]
|}.

(** The matrix that scales by [s] in both directions. *)
Definition scale (s : float32) : matrix :=
  geoM s f32.zero f32.zero s f32.zero f32.zero.

(** The world without pyramids. *)
Definition empty : World := mkWorld ∅ verticesBackend.init O [].

(** Two pyramids of 100x50, at the addresses 0 and 1. *)
Definition two : World :=
  (newMipmap 100 50 false (newMipmap 100 50 false empty).2).2.

(** The bounds of these pyramids. *)
Definition whole : image.Rectangle := image.Rect 0 0 100 50.


(** The scale [2^-70]; the matrix that scales by it in both directions has
    the determinant [2^-140]. *)
Definition tiny : float32 := S754_finite false 8388608 (-93).

(** Two pyramids of 100x50, the second volatile. *)
Definition volatile_source : World :=
  (newMipmap 100 50 true (newMipmap 100 50 false empty).2).2.

End sample.

(** ** Package ebitenmobileview: the ids of the touches on iOS *)

Module ebitenmobileview.

(** The loop [for _, id := range ptrToID] of [getIDFromPtr], visiting the ids
    in the order [order]. *)
Definition maxID_range (order : list Z) : Z :=
  fold_left (fun maxID id => if bool_decide (maxID < id) then id else maxID) order 0.

(** [order] is an order of the values of [ptrToID], each entry visited
    once. *)
Definition range_order (ptrToID : gmap Z Z) (order : list Z) : Prop :=
  order ≡ₚ (map_to_list ptrToID).*2.

(** [getIDFromPtr], on the map [var ptrToID = map[int64]int{}]: the id and
    the map it leaves. *)
Definition getIDFromPtr (order : list Z) (ptr : Z) (ptrToID : gmap Z Z)
    : Z * gmap Z Z :=
  match ptrToID !! ptr with
  | Some id => (id, ptrToID)
  | None =>
      let maxID := maxID_range order in
      let id := GoInt.add maxID 1 in
      (id, <[ptr := id]> ptrToID)
  end.

(** No two pointers have the same id. *)
Definition ids_distinct (ptrToID : gmap Z Z) : Prop :=
  forall p1 p2 id, ptrToID !! p1 = Some id -> ptrToID !! p2 = Some id -> p1 = p2.

(** [position{x, y}].  The type [position], the map [touches] and the
    function [updateTouches] are declared in a file of the package that is
    not among the sources; they are taken as [updateTouchesOnIOSImpl] uses
    them: [touches] maps an id to a position, and a call [updateTouches()]
    is counted. *)
Record position : Type := mkPosition { x : Z; y : Z }.

Record state : Type := mkState {
  ptrToID : gmap Z Z;
  touches : gmap Z position;
  updateTouches_calls : nat
}.

(** The constants [C.UITouchPhaseBegan], ... of UIKit, which cgo imports.
    They are distinct: Go refuses a switch with a constant in two cases. *)
Class UIKit : Type := {
  UITouchPhaseBegan : Z;
  UITouchPhaseMoved : Z;
  UITouchPhaseStationary : Z;
  UITouchPhaseEnded : Z;
  UITouchPhaseCancelled : Z;
  UITouchPhase_NoDup :
    NoDup [UITouchPhaseBegan; UITouchPhaseMoved; UITouchPhaseStationary;
           UITouchPhaseEnded; UITouchPhaseCancelled]
}.

(** How a call of [updateTouchesOnIOSImpl] ends: it returns, or panics with
    "ebitenmobileview: invalid phase: %d". *)
Inductive result : Type :=
  | Done
  | PanicInvalidPhase (phase : Z).

Definition updateTouchesOnIOSImpl `{UIKit} (order : list Z) (phase : Z) (ptr : Z)
    (x y : Z) (s : state) : result * state :=
  if bool_decide (phase = UITouchPhaseBegan \/ phase = UITouchPhaseMoved
                  \/ phase = UITouchPhaseStationary) then
    let '(id, ptrToID) := getIDFromPtr order ptr (ptrToID s) in
    let touches := <[id := mkPosition x y]> (touches s) in
    (Done, mkState ptrToID touches (S (updateTouches_calls s)))
  else if bool_decide (phase = UITouchPhaseEnded \/ phase = UITouchPhaseCancelled) then
    let '(id, ptrToID) := getIDFromPtr order ptr (ptrToID s) in
    let ptrToID := delete ptr ptrToID in
    let touches := delete id (touches s) in
    (Done, mkState ptrToID touches (S (updateTouches_calls s)))
  else (PanicInvalidPhase phase, s).

(** Every touch has the id of a pointer, and no two pointers have the same
    id. *)
Definition touches_owned (s : state) : Prop :=
  ids_distinct (ptrToID s)
  /\ forall id, is_Some (touches s !! id) -> exists ptr, ptrToID s !! ptr = Some id.

(** The values of [enum UITouchPhase] in UIKit. *)
#[global] Instance UIKit_values : UIKit := {|
  UITouchPhaseBegan := 0;
  UITouchPhaseMoved := 1;
  UITouchPhaseStationary := 2;
  UITouchPhaseEnded := 3;
  UITouchPhaseCancelled := 4;
  UITouchPhase_NoDup := ltac:(apply (bool_decide_unpack _); vm_compute; exact I)
|}.

End ebitenmobileview.

(** * Properties *)

(** ** Facts on Go integers and rectangles *)

Module GoIntFacts.
Import GoInt.

Lemma wrap_inRange z : inRange (wrap z).
Proof.
  unfold inRange, wrap, minInt, maxInt.
  pose proof (Z.mod_pos_bound (z + 2 ^ 63) (2 ^ 64)). lia.
Qed.

Lemma wrap_id z : inRange z -> wrap z = z.
Proof.
  unfold inRange, wrap, minInt, maxInt. intros Hz.
  rewrite Z.mod_small; lia.
Qed.

End GoIntFacts.

Module imageFacts.
Import image.

Lemma In_Overlaps p r s : In p r = true -> In p s = true -> Overlaps r s = true.
Proof.
  unfold In, Overlaps, Empty. intros Hr Hs.
  repeat (apply andb_prop in Hr as [Hr ?]).
  repeat (apply andb_prop in Hs as [Hs ?]).
  repeat match goal with H : bool_decide _ = true |- _ =>
    apply bool_decide_eq_true in H end.
  repeat (apply andb_true_intro; split);
    try (apply bool_decide_eq_true; lia);
    apply negb_true_iff, orb_false_intro; apply bool_decide_eq_false; lia.
Qed.

Lemma Overlaps_sym r s : Overlaps r s = Overlaps s r.
Proof.
  unfold Overlaps.
  destruct (Empty r), (Empty s); simpl; try reflexivity.
  repeat case_bool_decide; reflexivity.
Qed.

Lemma In_ZR p : In p ZR = false.
Proof.
  unfold In, ZR; simpl.
  destruct (bool_decide (0 <= X p)) eqn:E1; [|reflexivity].
  destruct (bool_decide (X p < 0)) eqn:E2; [|reflexivity].
  apply bool_decide_eq_true in E1, E2. lia.
Qed.

End imageFacts.

(** ** The pixel patch store *)

Module rectToPixelsFacts.
Import rectToPixels.

Lemma elem_of_keys rtp r : r ∈ keys rtp <-> is_Some (patch rtp r).
Proof.
  unfold keys, patch. destruct (m rtp) as [mp|]; simpl.
  - rewrite elem_of_elements. apply elem_of_dom.
  - rewrite lookup_empty. split; [intros H; inversion H | intros [? ?]; discriminate].
Qed.

Lemma range_order_elem rtp order r :
  range_order rtp order -> r ∈ order <-> r ∈ keys rtp.
Proof. unfold range_order. intros ->. reflexivity. Qed.

(** What the loop of [addOrReplace] finds. *)
Lemma addOrReplace_range_same newr order r :
  addOrReplace_range newr order = RangeSame r -> r = newr /\ newr ∈ order.
Proof.
  induction order as [|r0 order IH]; simpl; [discriminate|].
  case_bool_decide as Heq.
  - intros [= <-]. split; [assumption|]. subst. left.
  - destruct (image.Overlaps r0 newr); [discriminate|].
    intros H. destruct (IH H) as [-> ?]. split; [reflexivity | by right].
Qed.

Lemma addOrReplace_range_overlaps newr order r :
  addOrReplace_range newr order = RangeOverlaps r ->
  r ∈ order /\ r <> newr /\ image.Overlaps r newr = true.
Proof.
  induction order as [|r0 order IH]; simpl; [discriminate|].
  case_bool_decide as Heq; [discriminate|].
  destruct (image.Overlaps r0 newr) eqn:Hov.
  - intros [= <-]. split; [left | done].
  - intros H. destruct (IH H) as (? & ? & ?). split; [by right | done].
Qed.

Lemma addOrReplace_range_done newr order :
  addOrReplace_range newr order = RangeDone ->
  forall r, r ∈ order -> r <> newr /\ image.Overlaps r newr = false.
Proof.
  induction order as [|r0 order IH]; simpl.
  - intros _ r Hr. inversion Hr.
  - case_bool_decide as Heq; [discriminate|].
    destruct (image.Overlaps r0 newr) eqn:Hov; [discriminate|].
    intros H r Hr. apply elem_of_cons in Hr as [-> | Hr]; [done | by apply IH].
Qed.

Lemma patch_store r pix rtp r' :
  patch (snd (store r pix rtp)) r' = if decide (r = r') then Some pix else patch rtp r'.
Proof. unfold patch, store, modify; simpl. apply lookup_insert. Qed.

Lemma keys_store r pix rtp r' :
  r' ∈ keys (snd (store r pix rtp)) <-> r' = r \/ r' ∈ keys rtp.
Proof.
  rewrite !elem_of_keys, patch_store. destruct (decide (r = r')) as [->|Hne].
  - split; [by left | by eexists].
  - split; [by right | intros [-> | ?]; done].
Qed.

(** [addOrReplace] by cases, once the length check has passed. *)
Lemma addOrReplace_checked order pixels x y width height rtp :
  Z.of_nat (length pixels) = GoInt.mul (GoInt.mul 4 width) height ->
  let newr := image.Rect x y (GoInt.add x width) (GoInt.add y height) in
  let rtp0 := mk (Some (default ∅ (m rtp))) (last rtp) in
  addOrReplace order pixels x y width height rtp =
    match addOrReplace_range newr order with
    | RangeSame r => store r pixels rtp0
    | RangeOverlaps r =>
        (Panic (PanicRegionConflict (image.coords newr) (image.coords r)), rtp0)
    | RangeDone => store newr pixels rtp0
    end.
Proof.
  intros Hlen newr rtp0. unfold addOrReplace.
  rewrite bool_decide_eq_false_2 by (intros Hne; apply Hne, Hlen).
  unfold bind, get, put, ret, throw; subst rtp0 newr.
  destruct rtp as [[mp|] l]; simpl; destruct (addOrReplace_range _ order); reflexivity.
Qed.

End rectToPixelsFacts.

Module rectToPixelsInvariant.
Import rectToPixels rectToPixelsFacts.

Lemma no_overlap_zero : no_overlap zero.
Proof. intros r1 r2 H. inversion H. Qed.

Lemma no_overlap_store_same r pix rtp :
  r ∈ keys rtp -> no_overlap rtp -> no_overlap (snd (store r pix rtp)).
Proof.
  intros Hr Hno r1 r2 H1 H2. apply Hno.
  - apply keys_store in H1 as [-> | ?]; assumption.
  - apply keys_store in H2 as [-> | ?]; assumption.
Qed.

Lemma no_overlap_store_new newr pix rtp :
  (forall r, r ∈ keys rtp -> r <> newr /\ image.Overlaps r newr = false) ->
  no_overlap rtp -> no_overlap (snd (store newr pix rtp)).
Proof.
  intros Hnew Hno r1 r2 H1 H2 Hne.
  apply keys_store in H1 as [-> | H1]; apply keys_store in H2 as [-> | H2].
  - congruence.
  - rewrite imageFacts.Overlaps_sym. by apply Hnew.
  - by apply Hnew.
  - by apply Hno.
Qed.

Lemma keys_init rtp :
  keys (mk (Some (default ∅ (m rtp))) (last rtp)) = keys rtp.
Proof.
  unfold keys. destruct (m rtp); simpl; [reflexivity|].
  by rewrite dom_empty_L, elements_empty.
Qed.

Lemma no_overlap_addOrReplace order pixels x y width height rtp rtp' :
  range_order rtp order ->
  addOrReplace order pixels x y width height rtp = (Ok tt, rtp') ->
  no_overlap rtp -> no_overlap rtp'.
Proof.
  intros Hord Hrun Hno.
  destruct (decide (Z.of_nat (length pixels) = GoInt.mul (GoInt.mul 4 width) height))
    as [Hlen|Hlen];
    [|unfold addOrReplace in Hrun; rewrite bool_decide_eq_true_2 in Hrun by exact Hlen;
      discriminate].
  rewrite (addOrReplace_checked order pixels x y width height rtp Hlen) in Hrun.
  set (rtp0 := mk _ _) in Hrun.
  assert (Hk : keys rtp0 = keys rtp) by apply keys_init.
  assert (Hno0 : no_overlap rtp0) by (unfold no_overlap; rewrite Hk; exact Hno).
  destruct (addOrReplace_range _ order) as [r|r|] eqn:Hrange.
  - apply addOrReplace_range_same in Hrange as [-> Hin].
    replace rtp' with (snd (store (image.Rect x y (GoInt.add x width) (GoInt.add y height)) pixels rtp0))
      by (rewrite Hrun; reflexivity).
    apply no_overlap_store_same; [|assumption].
    rewrite Hk. by apply (range_order_elem rtp order).
  - discriminate.
  - replace rtp' with (snd (store (image.Rect x y (GoInt.add x width) (GoInt.add y height)) pixels rtp0))
      by (rewrite Hrun; reflexivity).
    apply no_overlap_store_new; [|assumption].
    intros r Hr. rewrite Hk in Hr.
    apply (addOrReplace_range_done _ _ Hrange). by apply (range_order_elem rtp order).
Qed.

Lemma keys_remove order x y width height rtp rtp' r :
  remove order x y width height rtp = (Ok tt, rtp') ->
  r ∈ keys rtp' -> r ∈ keys rtp.
Proof.
  unfold remove, bind, get, ret, put. destruct rtp as [[mp|] l]; simpl.
  - destruct (find _ order) as [r0|]; intros [= <-]; [|done].
    rewrite !elem_of_keys. unfold patch; simpl.
    intros [pix Hpix]. apply lookup_delete_Some in Hpix as [_ Hpix]. by eexists.
  - by intros [= <-].
Qed.

Lemma index_state pix idx (s : t) o s' : index pix idx s = (o, s') -> s' = s.
Proof. unfold index, ret, throw. case_bool_decide; by intros [= _ <-]. Qed.

Lemma at_read_state r i j rtp o rtp' : at_read r i j rtp = (o, rtp') -> rtp' = rtp.
Proof.
  unfold at_read, bind, get.
  repeat match goal with
         | |- context [index ?p ?k ?s] =>
             let E := fresh "E" in
             destruct (index p k s) as [[?|?|] ?] eqn:E;
             apply index_state in E; subst
         end;
    unfold ret; by intros [= _ <-].
Qed.

Lemma at_find_m order pt rtp o rtp' : at_find order pt rtp = (o, rtp') -> m rtp' = m rtp.
Proof.
  unfold at_find, bind, get, put, ret.
  destruct (image.In pt (last rtp)); [by intros [= _ <-]|].
  destruct (find _ order); by intros [= _ <-].
Qed.

Lemma m_at order i j rtp o rtp' :
  at_ order i j rtp = (o, rtp') -> m rtp' = m rtp.
Proof.
  unfold at_, bind, get.
  destruct (m rtp) eqn:Hm; [|unfold ret; by intros [= _ <-]].
  destruct (at_find order _ rtp) as [[[r|]|?|] rtp1] eqn:Hfind;
    apply at_find_m in Hfind; unfold ret;
    try (intros [= _ <-]; congruence).
  intros Hread. apply at_read_state in Hread. congruence.
Qed.

(** The invariant of the store. *)
Lemma reachable_no_overlap rtp : reachable rtp -> no_overlap rtp.
Proof.
  induction 1 as [|rtp order pixels x y w h rtp' _ IH Hord Hrun
                  |rtp order x y w h rtp' _ IH Hord Hrun
                  |rtp order i j v rtp' _ IH Hord Hrun].
  - apply no_overlap_zero.
  - by eapply no_overlap_addOrReplace.
  - intros r1 r2 H1 H2. apply IH; by eapply keys_remove.
  - apply m_at in Hrun. unfold no_overlap, keys. rewrite Hrun. exact IH.
Qed.

End rectToPixelsInvariant.


Module rectToPixelsLookup.
Import rectToPixels rectToPixelsFacts rectToPixelsInvariant.

Lemma find_In_none pt (order : list image.Rectangle) :
  (forall r, r ∈ order -> image.In pt r = false) -> find (image.In pt) order = None.
Proof.
  induction order as [|r order IH]; intros Hall; [reflexivity|].
  cbn [find]. rewrite (Hall r) by left. apply IH. intros r' Hr'. apply Hall. by right.
Qed.

Lemma find_In_some pt (order : list image.Rectangle) r :
  r ∈ order -> image.In pt r = true ->
  exists rr, find (image.In pt) order = Some rr /\ rr ∈ order /\ image.In pt rr = true.
Proof.
  induction order as [|r0 order IH]; intros Hr Hin; [inversion Hr|].
  cbn [find]. destruct (image.In pt r0) eqn:Hr0.
  - exists r0. split; [reflexivity|]. split; [left | exact Hr0].
  - apply elem_of_cons in Hr as [-> | Hr]; [congruence|].
    destruct (IH Hr Hin) as (rr & Hfind & Hrr & Hinrr).
    exists rr. split; [exact Hfind|]. split; [by right | exact Hinrr].
Qed.

(** With [last] fresh, [at] does not find a point that is in no stored
    rectangle, and leaves the store as it is. *)
Lemma at_not_found order i j rtp :
  range_order rtp order ->
  (forall r, r ∈ keys rtp -> image.In (image.Pt i j) r = false) ->
  last_fresh rtp (image.Pt i j) ->
  at_ order i j rtp = (Ok (x00, x00, x00, x00, false), rtp).
Proof.
  intros Hord Hout Hfresh. unfold at_, bind, get.
  destruct (m rtp) as [mp|] eqn:Hm; [|reflexivity].
  assert (Hlast : image.In (image.Pt i j) (last rtp) = false).
  { destruct (image.In (image.Pt i j) (last rtp)) eqn:Hin; [|reflexivity].
    rewrite <- Hin. apply Hout, Hfresh, Hin. }
  unfold at_find, bind, get. rewrite Hlast.
  rewrite find_In_none; [reflexivity|].
  intros r Hr. apply Hout. by apply (range_order_elem rtp order).
Qed.

(** In a store without overlaps, a point lies in at most one rectangle. *)
Lemma no_overlap_unique rtp pt r1 r2 :
  no_overlap rtp -> r1 ∈ keys rtp -> r2 ∈ keys rtp ->
  image.In pt r1 = true -> image.In pt r2 = true -> r1 = r2.
Proof.
  intros Hno H1 H2 Hin1 Hin2. destruct (decide (r1 = r2)) as [|Hne]; [done|].
  pose proof (imageFacts.In_Overlaps pt r1 r2 Hin1 Hin2) as Hov.
  rewrite (Hno r1 r2 H1 H2 Hne) in Hov. discriminate.
Qed.

(** With [last] fresh, [at] finds the rectangle that holds the point. *)
Lemma at_find_key order pt rtp r :
  no_overlap rtp -> range_order rtp order ->
  r ∈ keys rtp -> image.In pt r = true -> last_fresh rtp pt ->
  exists rtp', at_find order pt rtp = (Ok (Some r), rtp') /\ m rtp' = m rtp.
Proof.
  intros Hno Hord Hr Hin Hfresh. unfold at_find, bind, get.
  destruct (image.In pt (last rtp)) eqn:Hlast.
  - exists rtp. split; [|reflexivity]. unfold ret. do 3 f_equal.
    eapply no_overlap_unique; eauto.
  - apply (range_order_elem rtp order r Hord) in Hr.
    destruct (find_In_some pt order r Hr Hin) as (rr & -> & Hrr & Hinrr).
    apply (range_order_elem rtp order) in Hrr, Hr; [|exact Hord..].
    assert (rr = r) as -> by (eapply no_overlap_unique; eauto).
    eexists. split; reflexivity.
Qed.

Lemma index_ok pix idx (rtp : t) :
  0 <= idx < Z.of_nat (length pix) ->
  index pix idx rtp = (Ok (nth (Z.to_nat idx) pix x00), rtp).
Proof. intros Hidx. unfold index. by rewrite bool_decide_eq_true_2. Qed.

(** What [addOrReplace] leaves when it returns. *)
Lemma addOrReplace_Ok order pixels x y width height rtp rtp' :
  range_order rtp order ->
  addOrReplace order pixels x y width height rtp = (Ok tt, rtp') ->
  let newr := image.Rect x y (GoInt.add x width) (GoInt.add y height) in
  Z.of_nat (length pixels) = GoInt.mul (GoInt.mul 4 width) height
  /\ newr ∈ keys rtp'
  /\ patch rtp' newr = Some pixels.
Proof.
  intros Hord Hrun newr.
  destruct (decide (Z.of_nat (length pixels) = GoInt.mul (GoInt.mul 4 width) height))
    as [Hlen|Hlen];
    [|unfold addOrReplace in Hrun; rewrite bool_decide_eq_true_2 in Hrun by exact Hlen;
      discriminate].
  split; [exact Hlen|].
  rewrite (addOrReplace_checked order pixels x y width height rtp Hlen) in Hrun.
  fold newr in Hrun. set (rtp0 := mk _ _) in Hrun.
  assert (Hstore : rtp' = (store newr pixels rtp0).2).
  { destruct (addOrReplace_range newr order) as [r|r|] eqn:Hrange.
    - apply addOrReplace_range_same in Hrange as [-> _]. by rewrite Hrun.
    - discriminate.
    - by rewrite Hrun. }
  subst rtp'. split.
  - apply keys_store. by left.
  - rewrite patch_store. by rewrite decide_True.
Qed.

(** With [last] fresh, the [at] that follows an [addOrReplace] finds every
    pixel of the rectangle written and returns the four bytes supplied for
    it, those at the offset [4*((j-y)*width + (i-x))] of the patch. *)
Lemma at_after_addOrReplace order pixels x y width height rtp rtp' order' i j :
  no_overlap rtp -> range_order rtp order ->
  addOrReplace order pixels x y width height rtp = (Ok tt, rtp') ->
  range_order rtp' order' ->
  0 <= width -> 0 <= height ->
  GoInt.inRange x -> GoInt.inRange y ->
  GoInt.inRange (x + width) -> GoInt.inRange (y + height) ->
  GoInt.inRange (4 * width * height) ->
  x <= i < x + width -> y <= j < y + height ->
  last_fresh rtp' (image.Pt i j) ->
  let k := Z.to_nat (4 * ((j - y) * width + (i - x))) in
  exists rtp'',
    at_ order' i j rtp'
    = (Ok (nth k pixels x00, nth (k + 1) pixels x00, nth (k + 2) pixels x00,
           nth (k + 3) pixels x00, true), rtp'').
Proof.
  intros Hno Hord Hrun Hord' Hw Hh Hx Hy Hxw Hyh Harea Hi Hj Hfresh k.
  pose proof (no_overlap_addOrReplace _ _ _ _ _ _ _ _ Hord Hrun Hno) as Hno'.
  destruct (addOrReplace_Ok _ _ _ _ _ _ _ _ Hord Hrun) as (Hlen & Hkey & Hpatch).
  unfold GoInt.inRange, GoInt.minInt, GoInt.maxInt in *.
  assert (Hcell : 0 <= (j - y) * width + (i - x) /\ (j - y) * width + (i - x) < width * height)
    by nia.
  assert (Hwrap : forall z, 0 <= z <= 4 * width * height -> GoInt.wrap z = z).
  { intros z Hz. apply GoIntFacts.wrap_id.
    unfold GoInt.inRange, GoInt.minInt, GoInt.maxInt. lia. }
  assert (Hlen' : Z.of_nat (length pixels) = 4 * width * height).
  { rewrite Hlen. unfold GoInt.mul. rewrite (Hwrap (4 * width)) by nia. apply Hwrap. lia. }
  assert (Hnewr : image.Rect x y (GoInt.add x width) (GoInt.add y height)
                  = image.mkRectangle (image.Pt x y) (image.Pt (x + width) (y + height))).
  { unfold GoInt.add. rewrite !GoIntFacts.wrap_id
      by (unfold GoInt.inRange, GoInt.minInt, GoInt.maxInt; lia).
    unfold image.Rect. rewrite !bool_decide_eq_false_2 by lia. reflexivity. }
  rewrite Hnewr in Hkey, Hpatch.
  set (newr := image.mkRectangle (image.Pt x y) (image.Pt (x + width) (y + height))) in *.
  assert (Hin : image.In (image.Pt i j) newr = true).
  { unfold image.In, newr. cbn [image.X image.Y image.Min image.Max].
    rewrite !bool_decide_eq_true_2 by lia. reflexivity. }
  destruct (at_find_key order' (image.Pt i j) rtp' newr Hno' Hord' Hkey Hin Hfresh)
    as (rtp'' & Hfind & Hm).
  assert (Hsome : exists mp, m rtp' = Some mp).
  { unfold patch in Hpatch. destruct (m rtp') as [mp|]; [by exists mp|].
    cbn in Hpatch. rewrite lookup_empty in Hpatch. discriminate. }
  destruct Hsome as [mp Hmp].
  exists rtp''. unfold at_. unfold bind at 1. unfold get at 1. rewrite Hmp.
  unfold bind at 1. rewrite Hfind.
  unfold at_read. unfold bind at 1. unfold get at 1.
  assert (Hpix : default [] (default ∅ (m rtp'') !! newr) = pixels).
  { rewrite Hm. unfold patch in Hpatch. by rewrite Hpatch. }
  rewrite Hpix.
  assert (Hidx : GoInt.mul 4
                   (GoInt.add
                      (GoInt.mul (GoInt.sub j (image.Y (image.Min newr))) (image.Dx newr))
                      (GoInt.sub i (image.X (image.Min newr))))
                 = 4 * ((j - y) * width + (i - x))).
  { unfold image.Dx, newr. cbn [image.X image.Y image.Min image.Max].
    unfold GoInt.mul, GoInt.add, GoInt.sub.
    replace (x + width - x) with width by lia.
    rewrite (Hwrap (j - y)), (Hwrap width), (Hwrap (i - x)) by nia.
    rewrite (Hwrap ((j - y) * width)) by nia.
    rewrite (Hwrap ((j - y) * width + (i - x))) by nia.
    apply Hwrap. nia. }
  rewrite Hidx. set (idx := 4 * ((j - y) * width + (i - x))) in *.
  assert (Hrange : 0 <= idx /\ idx + 3 < 4 * width * height) by (subst idx; nia).
  unfold GoInt.add. rewrite !Hwrap by lia.
  unfold bind. rewrite !index_ok by lia. unfold ret. subst k.
  replace (Z.to_nat (idx + 1)) with (Z.to_nat idx + 1)%nat by lia.
  replace (Z.to_nat (idx + 2)) with (Z.to_nat idx + 2)%nat by lia.
  replace (Z.to_nat (idx + 3)) with (Z.to_nat idx + 3)%nat by lia.
  reflexivity.
Qed.

(** [addOrReplace] and [at] keep [last] valid; [remove] does not. *)
Lemma last_valid_zero : last_valid zero.
Proof. by left. Qed.

Lemma last_valid_fresh rtp pt : last_valid rtp -> last_fresh rtp pt.
Proof.
  intros [Hzr | Hkey] Hin; [|exact Hkey].
  rewrite Hzr, imageFacts.In_ZR in Hin. discriminate.
Qed.

Lemma last_valid_addOrReplace order pixels x y width height rtp rtp' :
  addOrReplace order pixels x y width height rtp = (Ok tt, rtp') ->
  last_valid rtp -> last_valid rtp'.
Proof.
  intros Hrun Hvalid.
  destruct (decide (Z.of_nat (length pixels) = GoInt.mul (GoInt.mul 4 width) height))
    as [Hlen|Hlen];
    [|unfold addOrReplace in Hrun; rewrite bool_decide_eq_true_2 in Hrun by exact Hlen;
      discriminate].
  rewrite (addOrReplace_checked order pixels x y width height rtp Hlen) in Hrun.
  set (rtp0 := mk _ _) in Hrun.
  assert (Hstore : exists r, rtp' = (store r pixels rtp0).2).
  { destruct (addOrReplace_range _ order) as [r|r|];
      [exists r | discriminate | eexists]; by rewrite Hrun. }
  destruct Hstore as [r ->].
  destruct Hvalid as [Hzr | Hkey]; [by left | right].
  apply keys_store. right. subst rtp0. by rewrite keys_init.
Qed.

Lemma at_find_last order pt rtp o rtp' :
  at_find order pt rtp = (o, rtp') -> last rtp' = last rtp \/ last rtp' ∈ order.
Proof.
  unfold at_find, bind, get, put, ret.
  destruct (image.In pt (last rtp)); [intros [= _ <-]; by left|].
  destruct (find _ order) as [rr|] eqn:Hfind; intros [= _ <-]; [right | by left].
  apply find_some in Hfind as [Hin _]. by apply list_elem_of_In.
Qed.

Lemma last_valid_at order i j rtp v rtp' :
  range_order rtp order ->
  at_ order i j rtp = (Ok v, rtp') ->
  last_valid rtp -> last_valid rtp'.
Proof.
  intros Hord Hrun Hvalid.
  pose proof (m_at _ _ _ _ _ _ Hrun) as Hm.
  assert (Hkeys : keys rtp' = keys rtp) by (unfold keys; by rewrite Hm).
  assert (Hlast : last rtp' = last rtp \/ last rtp' ∈ order).
  { unfold at_, bind, get in Hrun.
    destruct (m rtp); [|injection Hrun as _ <-; by left].
    destruct (at_find order _ rtp) as [[[r|]|?|] rtp1] eqn:Hfind; try discriminate.
    - apply at_read_state in Hrun as ->. by eapply at_find_last.
    - injection Hrun as _ <-. by eapply at_find_last. }
  unfold last_valid. rewrite Hkeys.
  destruct Hlast as [-> | Hin]; [exact Hvalid | right].
  by apply (range_order_elem rtp order).
Qed.

End rectToPixelsLookup.

Module rectToPixelsSpec.
Import rectToPixels rectToPixelsFacts rectToPixelsInvariant.

(** What an [addOrReplace] that returns has done: the length check passed,
    the loop ended at the rectangle itself or at the end of the keys, and
    the patch is stored at the rectangle. *)
Lemma addOrReplace_returns order pixels x y width height rtp rtp' :
  addOrReplace order pixels x y width height rtp = (Ok tt, rtp') ->
  let newr := image.Rect x y (GoInt.add x width) (GoInt.add y height) in
  Z.of_nat (length pixels) = GoInt.mul (GoInt.mul 4 width) height
  /\ rtp' = (store newr pixels (mk (Some (default ∅ (m rtp))) (last rtp))).2
  /\ (addOrReplace_range newr order = RangeSame newr
      \/ addOrReplace_range newr order = RangeDone).
Proof.
  intros Hrun newr.
  destruct (decide (Z.of_nat (length pixels) = GoInt.mul (GoInt.mul 4 width) height))
    as [Hlen|Hlen];
    [|unfold addOrReplace in Hrun; rewrite bool_decide_eq_true_2 in Hrun by exact Hlen;
      discriminate].
  split; [exact Hlen|].
  rewrite (addOrReplace_checked order pixels x y width height rtp Hlen) in Hrun.
  fold newr in Hrun.
  destruct (addOrReplace_range newr order) as [r|r|] eqn:Hrange.
  - pose proof (addOrReplace_range_same _ _ _ Hrange) as [-> _].
    split; [by rewrite Hrun | by left].
  - discriminate.
  - split; [by rewrite Hrun | by right].
Qed.

Lemma patch_init rtp r :
  patch (mk (Some (default ∅ (m rtp))) (last rtp)) r = patch rtp r.
Proof. unfold patch. cbn [m]. by destruct (m rtp). Qed.

(** [addOrReplace] returns when the length is the checked one and no stored
    rectangle other than the rectangle itself overlaps it. *)
Lemma addOrReplace_total order pixels x y width height rtp :
  let newr := image.Rect x y (GoInt.add x width) (GoInt.add y height) in
  range_order rtp order ->
  Z.of_nat (length pixels) = GoInt.mul (GoInt.mul 4 width) height ->
  (forall r, r ∈ keys rtp -> r <> newr -> image.Overlaps r newr = false) ->
  addOrReplace order pixels x y width height rtp
  = (Ok tt, (store newr pixels (mk (Some (default ∅ (m rtp))) (last rtp))).2).
Proof.
  intros newr Hord Hlen Hfree.
  rewrite (addOrReplace_checked order pixels x y width height rtp Hlen).
  fold newr.
  destruct (addOrReplace_range newr order) as [r|r|] eqn:Hrange.
  - apply addOrReplace_range_same in Hrange as [-> _]. reflexivity.
  - apply addOrReplace_range_overlaps in Hrange as (Hr & Hne & Hov).
    apply (range_order_elem rtp order r Hord) in Hr.
    rewrite (Hfree r Hr Hne) in Hov. discriminate.
  - reflexivity.
Qed.

(** C5.  No two stored rectangles overlap after any sequence of calls that
    return, and each call keeps it so: on a store without overlaps,

    - an [addOrReplace] that returns leaves a store without overlaps, in
      which the bytes given are the patch of the rectangle given and every
      other patch is as it was; it returns only if no other stored rectangle
      overlaps the rectangle given;
    - a [remove] that returns leaves a store without overlaps;
    - [addOrReplace] with the rectangle of a stored patch, and a patch of
      the checked length, returns, having replaced the bytes of that
      rectangle and nothing else;
    - [addOrReplace] with a rectangle that no stored rectangle overlaps, and
      a patch of the checked length, returns, having added the rectangle
      with the bytes given and changed nothing else;
    - [addOrReplace] with a rectangle that overlaps a different stored
      rectangle panics, the store left as it was; with a patch of the
      checked length the panic is the region conflict, and names the
      rectangle given and a different stored rectangle that overlaps it. *)
Theorem addOrReplace_keeps_rectangles_disjoint :
  (forall rtp, reachable rtp -> no_overlap rtp)
  /\ (forall rtp order pixels x y width height rtp',
        let newr := image.Rect x y (GoInt.add x width) (GoInt.add y height) in
        no_overlap rtp -> range_order rtp order ->
        addOrReplace order pixels x y width height rtp = (Ok tt, rtp') ->
        no_overlap rtp'
        /\ patch rtp' newr = Some pixels
        /\ (forall r, r <> newr -> patch rtp' r = patch rtp r)
        /\ last rtp' = last rtp
        /\ (forall r, r ∈ keys rtp -> r <> newr -> image.Overlaps r newr = false))
  /\ (forall rtp order x y width height rtp',
        no_overlap rtp ->
        remove order x y width height rtp = (Ok tt, rtp') ->
        no_overlap rtp')
  /\ (forall rtp order pixels x y width height,
        let newr := image.Rect x y (GoInt.add x width) (GoInt.add y height) in
        no_overlap rtp -> range_order rtp order ->
        Z.of_nat (length pixels) = GoInt.mul (GoInt.mul 4 width) height ->
        newr ∈ keys rtp ->
        exists rtp',
          addOrReplace order pixels x y width height rtp = (Ok tt, rtp')
          /\ patch rtp' newr = Some pixels
          /\ (forall r, r <> newr -> patch rtp' r = patch rtp r)
          /\ last rtp' = last rtp)
  /\ (forall rtp order pixels x y width height,
        let newr := image.Rect x y (GoInt.add x width) (GoInt.add y height) in
        range_order rtp order ->
        Z.of_nat (length pixels) = GoInt.mul (GoInt.mul 4 width) height ->
        (forall r, r ∈ keys rtp -> image.Overlaps r newr = false) ->
        newr ∉ keys rtp ->
        exists rtp',
          addOrReplace order pixels x y width height rtp = (Ok tt, rtp')
          /\ patch rtp' newr = Some pixels
          /\ (forall r, r <> newr -> patch rtp' r = patch rtp r)
          /\ (forall r, r ∈ keys rtp' <-> r = newr \/ r ∈ keys rtp)
          /\ last rtp' = last rtp)
  /\ (forall rtp order pixels x y width height r,
        let newr := image.Rect x y (GoInt.add x width) (GoInt.add y height) in
        no_overlap rtp -> range_order rtp order ->
        r ∈ keys rtp -> r <> newr -> image.Overlaps r newr = true ->
        exists p,
          addOrReplace order pixels x y width height rtp = (Panic p, rtp)
          /\ (Z.of_nat (length pixels) = GoInt.mul (GoInt.mul 4 width) height ->
              exists r',
                r' ∈ keys rtp /\ r' <> newr /\ image.Overlaps r' newr = true
                /\ p = PanicRegionConflict (image.coords newr) (image.coords r'))).
Proof.
  split_and!.
  - exact reachable_no_overlap.
  - intros rtp order pixels x y width height rtp' newr Hno Hord Hrun.
    pose proof (no_overlap_addOrReplace _ _ _ _ _ _ _ _ Hord Hrun Hno) as Hno'.
    destruct (addOrReplace_returns _ _ _ _ _ _ _ _ Hrun) as (Hlen & -> & Hrange).
    fold newr in Hrange |- *. split_and!.
    + exact Hno'.
    + rewrite patch_store. by rewrite decide_True.
    + intros r Hr. rewrite patch_store, decide_False by congruence. apply patch_init.
    + reflexivity.
    + intros r Hr Hne. destruct Hrange as [Hsame | Hdone].
      * apply addOrReplace_range_same in Hsame as [_ Hin].
        apply (range_order_elem rtp order newr Hord) in Hin. by apply Hno.
      * apply (range_order_elem rtp order r Hord) in Hr.
        by destruct (addOrReplace_range_done _ _ Hdone r Hr).
  - intros rtp order x y width height rtp' Hno Hrun r1 r2 H1 H2.
    apply Hno; by eapply keys_remove.
  - intros rtp order pixels x y width height newr Hno Hord Hlen Hin.
    eexists. split.
    + apply addOrReplace_total; [exact Hord | exact Hlen |].
      intros r Hr Hne. by apply Hno.
    + fold newr. split_and!.
      * rewrite patch_store. by rewrite decide_True.
      * intros r Hr. rewrite patch_store, decide_False by congruence. apply patch_init.
      * reflexivity.
  - intros rtp order pixels x y width height newr Hord Hlen Hfree Hnew.
    eexists. split.
    + apply addOrReplace_total; [exact Hord | exact Hlen |].
      intros r Hr _. by apply Hfree.
    + fold newr. split_and!.
      * rewrite patch_store. by rewrite decide_True.
      * intros r Hr. rewrite patch_store, decide_False by congruence. apply patch_init.
      * intros r. rewrite keys_store. by rewrite keys_init.
      * reflexivity.
  - intros rtp order pixels x y width height r newr Hno Hord Hr Hne Hov.
    destruct (decide (Z.of_nat (length pixels) = GoInt.mul (GoInt.mul 4 width) height))
      as [Hlen|Hlen].
    + rewrite (addOrReplace_checked order pixels x y width height rtp Hlen).
      fold newr.
      assert (Hrtp : mk (Some (default ∅ (m rtp))) (last rtp) = rtp).
      { apply elem_of_keys in Hr as [pix Hpix]. unfold patch in Hpix.
        destruct rtp as [[mp|] l]; simpl in *; [reflexivity|].
        rewrite lookup_empty in Hpix. discriminate. }
      rewrite Hrtp.
      destruct (addOrReplace_range newr order) as [r0|r0|] eqn:Hrange.
      * apply addOrReplace_range_same in Hrange as [_ Hin].
        apply (range_order_elem rtp order newr Hord) in Hin.
        rewrite (Hno r newr Hr Hin Hne) in Hov. discriminate.
      * apply addOrReplace_range_overlaps in Hrange as (Hr0 & Hne0 & Hov0).
        apply (range_order_elem rtp order r0 Hord) in Hr0.
        eexists. split; [reflexivity|]. intros _. by exists r0.
      * apply (range_order_elem rtp order r Hord) in Hr.
        destruct (addOrReplace_range_done _ _ Hrange r Hr) as [_ Hov'].
        rewrite Hov' in Hov. discriminate.
    + unfold addOrReplace. rewrite bool_decide_eq_true_2 by exact Hlen.
      eexists. split; [reflexivity|]. intros Hlen'. by destruct Hlen.
Qed.

(** A store of one patch of 2x1 pixels at (0, 0): the same rectangle written
    again has its bytes replaced, the pixel at (2, 0) is added beside it,
    and the rectangle of 2x1 pixels at (1, 0), which overlaps it, is
    refused. *)
Lemma addOrReplace_keeps_rectangles_disjoint_witness :
  let old := ["001"; "002"; "003"; "004"; "005"; "006"; "007"; "008"]%byte in
  let new := ["011"; "012"; "013"; "014"; "015"; "016"; "017"; "018"]%byte in
  let rtp := (addOrReplace [] old 0 0 2 1 zero).2 in
  no_overlap rtp
  /\ patch rtp (image.Rect 0 0 2 1) = Some old
  /\ (exists rtp',
        addOrReplace [image.Rect 0 0 2 1] new 0 0 2 1 rtp = (Ok tt, rtp')
        /\ patch rtp' (image.Rect 0 0 2 1) = Some new)
  /\ (exists rtp',
        addOrReplace [image.Rect 0 0 2 1] ["021"; "022"; "023"; "024"]%byte 2 0 1 1 rtp
        = (Ok tt, rtp')
        /\ patch rtp' (image.Rect 2 0 3 1) = Some ["021"; "022"; "023"; "024"]%byte
        /\ patch rtp' (image.Rect 0 0 2 1) = Some old)
  /\ (exists p,
        addOrReplace [image.Rect 0 0 2 1] new 1 0 2 1 rtp = (Panic p, rtp)
        /\ p = PanicRegionConflict ((1, 0), (3, 1)) ((0, 0), (2, 1))).
Proof.
  intros old new rtp.
  destruct addOrReplace_keeps_rectangles_disjoint
    as (Hinv & Hkeep & _ & Hreplace & Hadd & Hconflict).
  assert (Hord0 : range_order zero []) by (unfold range_order; reflexivity).
  assert (Hrun : addOrReplace [] old 0 0 2 1 zero = (Ok tt, rtp))
    by (vm_compute; reflexivity).
  assert (Hord : range_order rtp [image.Rect 0 0 2 1])
    by (unfold range_order; vm_compute; reflexivity).
  assert (Hkey : forall r, r ∈ keys rtp -> r = image.Rect 0 0 2 1).
  { intros r Hr. vm_compute in Hr. by apply list_elem_of_singleton in Hr. }
  destruct (Hkeep zero [] old 0 0 2 1 rtp no_overlap_zero Hord0 Hrun)
    as (Hno & Hold & _).
  split; [exact Hno|]. split; [exact Hold|]. split; [|split].
  - destruct (Hreplace rtp [image.Rect 0 0 2 1] new 0 0 2 1 Hno Hord)
      as (rtp' & Hrun' & Hnew & _).
    + vm_compute. reflexivity.
    + vm_compute. left.
    + exists rtp'. split; [exact Hrun' | exact Hnew].
  - destruct (Hadd rtp [image.Rect 0 0 2 1] ["021"; "022"; "023"; "024"]%byte 2 0 1 1
                Hord) as (rtp' & Hrun' & Hnew & Hframe & _).
    + vm_compute. reflexivity.
    + intros r Hr. rewrite (Hkey r Hr). vm_compute. reflexivity.
    + intros Hin. apply Hkey in Hin. vm_compute in Hin. discriminate.
    + exists rtp'. split; [exact Hrun'|]. split; [exact Hnew|].
      rewrite Hframe by (vm_compute; discriminate). exact Hold.
  - destruct (Hconflict rtp [image.Rect 0 0 2 1] new 1 0 2 1 (image.Rect 0 0 2 1)
                Hno Hord) as (p & Hrun' & Hp).
    + vm_compute. left.
    + vm_compute. discriminate.
    + vm_compute. reflexivity.
    + exists p. split; [exact Hrun'|].
      destruct Hp as (r' & Hr' & _ & _ & ->); [vm_compute; reflexivity|].
      rewrite (Hkey r' Hr'). vm_compute. reflexivity.
Defined.

(** C9.  [addOrReplace] with [len(pixels) != 4*width*height] panics before it
    touches the store: the state at the panic is the state of the call.  The
    product is the one the code computes, on Go's [int]; it is the product on
    the integers whenever that fits an [int]. *)
Theorem addOrReplace_wrong_length order pixels x y width height rtp :
  (Z.of_nat (length pixels) <> GoInt.mul (GoInt.mul 4 width) height ->
   addOrReplace order pixels x y width height rtp =
     (Panic (PanicPixelsLen (GoInt.mul (GoInt.mul 4 width) height)
               (Z.of_nat (length pixels))), rtp))
  /\ (GoInt.inRange (4 * width) -> GoInt.inRange (4 * width * height) ->
      Z.of_nat (length pixels) <> 4 * width * height ->
      addOrReplace order pixels x y width height rtp =
        (Panic (PanicPixelsLen (4 * width * height) (Z.of_nat (length pixels))), rtp)).
Proof.
  assert (Hgo : Z.of_nat (length pixels) <> GoInt.mul (GoInt.mul 4 width) height ->
    addOrReplace order pixels x y width height rtp =
     (Panic (PanicPixelsLen (GoInt.mul (GoInt.mul 4 width) height)
               (Z.of_nat (length pixels))), rtp)).
  { intros Hlen. unfold addOrReplace.
    rewrite bool_decide_eq_true_2 by exact Hlen. reflexivity. }
  split; [exact Hgo|].
  intros H4 H4wh Hlen.
  assert (Hmul : GoInt.mul (GoInt.mul 4 width) height = 4 * width * height).
  { unfold GoInt.mul. rewrite (GoIntFacts.wrap_id (4 * width)) by exact H4.
    apply GoIntFacts.wrap_id, H4wh. }
  rewrite <- Hmul. apply Hgo. rewrite Hmul. exact Hlen.
Qed.

Lemma addOrReplace_wrong_length_witness :
  addOrReplace [] ["001"; "002"; "003"]%byte 0 0 1 1 zero =
    (Panic (PanicPixelsLen 4 3), zero).
Proof.
  apply (proj1 (addOrReplace_wrong_length [] ["001"; "002"; "003"]%byte 0 0 1 1 zero)).
  vm_compute. discriminate.
Defined.

(** C4 (the code fails it).  A store to which one patch is added, queried
    inside and removed again holds no rectangle, yet [at_] inside the removed
    rectangle panics: [last] still names the removed rectangle, [rtp.m] has no
    slice for it, and the nil slice is indexed at 0. *)
Theorem at_after_remove_panics :
  let rtp1 := snd (addOrReplace [] ["001"; "002"; "003"; "004"]%byte 0 0 1 1 zero) in
  let rtp2 := snd (at_ (keys rtp1) 0 0 rtp1) in
  let rtp3 := snd (remove (keys rtp2) 0 0 1 1 rtp2) in
  reachable rtp3
  /\ keys rtp3 = []
  /\ at_ (keys rtp3) 0 0 rtp3 = (Panic (PanicIndexOutOfRange 0 0), rtp3).
Proof.
  intros rtp1 rtp2 rtp3.
  split; [|split]; [|vm_compute; reflexivity|vm_compute; reflexivity].
  apply (reach_remove rtp2 (keys rtp2) 0 0 1 1);
    [| unfold range_order; reflexivity | vm_compute; reflexivity].
  apply (reach_at rtp1 (keys rtp1) 0 0 ("001", "002", "003", "004", true)%byte);
    [| unfold range_order; reflexivity | vm_compute; reflexivity].
  apply (reach_addOrReplace zero [] ["001"; "002"; "003"; "004"]%byte 0 0 1 1);
    [apply reach_zero | unfold range_order; reflexivity | vm_compute; reflexivity].
Qed.

(** C7 (the code fails it).  After the 2x1 rectangle at (0,0) is added,
    queried at (1,0) and removed, [addOrReplace] of a 1x1 patch at (1,0)
    returns, and the [at_] that follows at (1,0), a pixel of the rectangle
    just written, panics instead of returning the four bytes: the point lies
    in the removed rectangle [last] still names. *)
Theorem at_after_addOrReplace_panics :
  let pix8 := ["001"; "002"; "003"; "004"; "005"; "006"; "007"; "008"]%byte in
  let rtp1 := snd (addOrReplace [] pix8 0 0 2 1 zero) in
  let rtp2 := snd (at_ (keys rtp1) 1 0 rtp1) in
  let rtp3 := snd (remove (keys rtp2) 0 0 2 1 rtp2) in
  let rtp4 := snd (addOrReplace (keys rtp3) ["009"; "009"; "009"; "009"]%byte 1 0 1 1 rtp3) in
  reachable rtp3
  /\ addOrReplace (keys rtp3) ["009"; "009"; "009"; "009"]%byte 1 0 1 1 rtp3 = (Ok tt, rtp4)
  /\ image.In (image.Pt 1 0) (image.Rect 1 0 (GoInt.add 1 1) (GoInt.add 0 1)) = true
  /\ at_ (keys rtp4) 1 0 rtp4 = (Panic (PanicIndexOutOfRange 4 0), rtp4).
Proof.
  intros pix8 rtp1 rtp2 rtp3 rtp4.
  split; [|split; [|split]];
    [|vm_compute; reflexivity|vm_compute; reflexivity|vm_compute; reflexivity].
  apply (reach_remove rtp2 (keys rtp2) 0 0 2 1);
    [| unfold range_order; reflexivity | vm_compute; reflexivity].
  apply (reach_at rtp1 (keys rtp1) 1 0 ("005", "006", "007", "008", true)%byte);
    [| unfold range_order; reflexivity | vm_compute; reflexivity].
  apply (reach_addOrReplace zero [] pix8 0 0 2 1);
    [apply reach_zero | unfold range_order; reflexivity | vm_compute; reflexivity].
Qed.

End rectToPixelsSpec.

(** ** [sizeForLevel] *)

Module sizeForLevelSpec.

Lemma halve_step_zero : halve_step (0, 0) = (0, 0).
Proof. reflexivity. Qed.

Lemma sizeForLevel_halve_last n w h :
  sizeForLevel_halve (S n) w h = halve_step (sizeForLevel_halve n w h).
Proof.
  revert w h. induction n as [|n IH]; intros w h.
  - cbn [sizeForLevel_halve halve_step].
    destruct (bool_decide _ || bool_decide _); reflexivity.
  - change (sizeForLevel_halve (S (S n)) w h) with
      (if bool_decide (GoInt.quot w 2 = 0) || bool_decide (GoInt.quot h 2 = 0)
       then (0, 0)
       else sizeForLevel_halve (S n) (GoInt.quot w 2) (GoInt.quot h 2)).
    change (sizeForLevel_halve (S n) w h) with
      (if bool_decide (GoInt.quot w 2 = 0) || bool_decide (GoInt.quot h 2 = 0)
       then (0, 0)
       else sizeForLevel_halve n (GoInt.quot w 2) (GoInt.quot h 2)).
    destruct (bool_decide _ || bool_decide _); [reflexivity | apply IH].
Qed.

Lemma sizeForLevel_double_last n w h :
  sizeForLevel_double (S n) w h = double_step (sizeForLevel_double n w h).
Proof.
  revert w h. induction n as [|n IH]; intros w h; [reflexivity|].
  change (sizeForLevel_double (S (S n)) w h) with
    (sizeForLevel_double (S n) (GoInt.mul w 2) (GoInt.mul h 2)).
  rewrite IH. reflexivity.
Qed.

Lemma sizeForLevel_zero w h : sizeForLevel w h 0 = (w, h).
Proof. reflexivity. Qed.



End sizeForLevelSpec.

(** ** The vertex arena *)

Module verticesBackendSpec.
Import verticesBackend.

Lemma small_need n : small n -> GoInt.mul n VertexFloatNum = n * VertexFloatNum.
Proof.
  unfold small, VertexFloatNum, GoInt.mul. intros Hn.
  apply GoIntFacts.wrap_id. unfold GoInt.inRange, GoInt.minInt, GoInt.maxInt. lia.
Qed.

Lemma small_alloc n :
  small n ->
  GoInt.mul VertexFloatNum (if bool_decide (n > 1024) then n else 1024)
  = VertexFloatNum * Z.max 1024 n.
Proof.
  unfold small, VertexFloatNum, GoInt.mul. intros Hn.
  case_bool_decide.
  - rewrite Z.max_r by lia. apply GoIntFacts.wrap_id.
    unfold GoInt.inRange, GoInt.minInt, GoInt.maxInt. lia.
  - rewrite Z.max_l by lia. reflexivity.
Qed.

Lemma add_cursor hd need :
  0 <= hd <= 2 ^ 62 -> 0 <= need <= 3 * 2 ^ 60 -> GoInt.add hd need = hd + need.
Proof.
  intros Hhd Hneed. apply GoIntFacts.wrap_id.
  unfold GoInt.inRange, GoInt.minInt, GoInt.maxInt. lia.
Qed.

(** The code does what [slice_spec] says, and does not panic. *)
Lemma slice_refines n h :
  wf h -> small n -> slice n h = (Ok (slice_spec n h).1, (slice_spec n h).2).
Proof.
  intros Hwf Hn. unfold slice. rewrite (small_need n Hn).
  assert (Hneed : 0 <= n * VertexFloatNum <= 3 * 2 ^ 60)
    by (unfold small, VertexFloatNum in *; lia).
  assert (Hfront : GoInt.add 0 (n * VertexFloatNum) = n * VertexFloatNum)
    by (apply add_cursor; lia).
  assert (Hfit : n * VertexFloatNum <= VertexFloatNum * Z.max 1024 n)
    by (unfold VertexFloatNum; lia).
  destruct h as [[b hd] arrs]. unfold wf in Hwf. cbn [v backend head arrays] in Hwf.
  unfold slice_spec, bind, get, put, ret. cbn [v backend head arrays].
  destruct b as [[a l]|].
  - destruct Hwf as (Hhd & Hl & Hnth).
    assert (Hadd : GoInt.add hd (n * VertexFloatNum) = hd + n * VertexFloatNum)
      by (apply add_cursor; lia).
    rewrite Hadd.
    cbn [len]. case_bool_decide as Hover; cbn [v backend head arrays].
    + rewrite (small_alloc n Hn). unfold make, bind, get, put, ret.
      rewrite bool_decide_eq_false_2 by (unfold VertexFloatNum; lia).
      cbn [v backend head arrays]. rewrite Hfront.
      unfold reslice, ret. cbn [len].
      rewrite bool_decide_eq_true_2 by lia. reflexivity.
    + unfold reslice, ret. cbn [len]. rewrite !Hadd.
      rewrite bool_decide_eq_true_2 by lia. reflexivity.
  - subst hd. rewrite ?Hfront. cbn [len].
    case_bool_decide; cbn [v backend head arrays];
      rewrite (small_alloc n Hn); unfold make, bind, get, put, ret;
      rewrite bool_decide_eq_false_2 by (unfold VertexFloatNum; lia);
      cbn [v backend head arrays]; rewrite ?Hfront;
      unfold reslice, ret; cbn [len];
      rewrite bool_decide_eq_true_2 by lia; reflexivity.
Qed.

Lemma slice_spec_cases n h :
  wf h -> small n ->
  let s := (slice_spec n h).1 in
  let h1 := (slice_spec n h).2 in
  wf h1
  /\ hi s - lo s = n * VertexFloatNum
  /\ within h1 s
  /\ (exists l1, backend (v h1) = Some (array s, l1))
  /\ head (v h1) = hi s
  /\ later h s
  /\ (exists extra, arrays h1 = arrays h ++ extra)
  /\ (forall s', later h1 s' -> later h s').
Proof.
  intros Hwf Hn. destruct h as [[b hd] arrs].
  unfold wf in Hwf. cbn [v backend head arrays] in Hwf.
  assert (Hneed : 0 <= n * VertexFloatNum <= 3 * 2 ^ 60)
    by (unfold small, VertexFloatNum in *; lia).
  assert (Hfit : n * VertexFloatNum <= VertexFloatNum * Z.max 1024 n)
    by (unfold VertexFloatNum; lia).
  assert (Hcap : VertexFloatNum * Z.max 1024 n <= 2 ^ 62)
    by (unfold small, VertexFloatNum in *; lia).
  assert (Hrealloc :
    let l' := VertexFloatNum * Z.max 1024 n in
    let s := mkSlice (length arrs) 0 (n * VertexFloatNum) in
    let h1 := mkHeap (mk (Some (length arrs, l')) (n * VertexFloatNum)) (arrs ++ [l']) in
    wf h1 /\ hi s - lo s = n * VertexFloatNum /\ within h1 s
    /\ (exists l1, backend (v h1) = Some (array s, l1))
    /\ head (v h1) = hi s
    /\ later (mkHeap (mk b hd) arrs) s
    /\ (exists extra, arrays h1 = arrs ++ extra)
    /\ (forall s', later h1 s' -> later (mkHeap (mk b hd) arrs) s')).
  { intros l' s h1. subst s h1. unfold wf, within, later.
    cbn [v backend head arrays array lo hi].
    assert (Hnew : nth_error (arrs ++ [l']) (length arrs) = Some l').
    { rewrite nth_error_app2 by lia. rewrite Nat.sub_diag. reflexivity. }
    split_and!; try lia; try exact Hnew.
    - exists l'. split; [exact Hnew | subst l'; lia].
    - eexists. reflexivity.
    - eexists. reflexivity.
    - intros s' [(l1 & [= <- _] & _) | Hs']; right; [lia|].
      rewrite length_app in Hs'. simpl in Hs'. lia. }
  unfold slice_spec. cbn [v backend head arrays].
  destruct b as [[a l]|]; [|exact Hrealloc].
  destruct Hwf as (Hhd & Hl & Hnth).
  case_bool_decide as Hover; [exact Hrealloc|].
  unfold wf, within, later. cbn [fst snd v backend head arrays array lo hi].
  split_and!; try lia; try exact Hnth.
  - exists l. split; [exact Hnth | lia].
  - eexists. reflexivity.
  - left. exists l. split; [reflexivity | lia].
  - exists []. by rewrite app_nil_r.
  - intros s' [(l1 & [= <- <-] & Hlo) | Hs']; [left | right; exact Hs'].
    exists l. split; [reflexivity | lia].
Qed.

Lemma within_extend h h' extra s :
  arrays h' = arrays h ++ extra -> within h s -> within h' s.
Proof.
  intros Harr (Hlo & l & Hnth & Hhi). split; [exact Hlo|].
  exists l. split; [|exact Hhi]. rewrite Harr.
  rewrite nth_error_app1; [exact Hnth|].
  apply nth_error_Some. congruence.
Qed.

(** A run of calls: every call returns, each slice has its length and lies
    in an array, and a slice carved earlier lies before one carved later
    from the same array. *)
Lemma slices_sorted ns :
  forall h, wf h -> Forall small ns ->
  exists ss h',
    slices ns h = (Ok ss, h')
    /\ wf h'
    /\ (exists extra, arrays h' = arrays h ++ extra)
    /\ Forall2 (fun n s => hi s - lo s = n * VertexFloatNum) ns ss
    /\ Forall (within h') ss
    /\ Forall (later h) ss
    /\ StronglySorted before ss.
Proof.
  induction ns as [|n ns IH]; intros h Hwf Hns.
  - exists [], h. cbn [slices]. unfold ret.
    repeat split; try constructor; try assumption.
    exists []. by rewrite app_nil_r.
  - apply Forall_cons in Hns as [Hn Hns].
    destruct (slice_spec_cases n h Hwf Hn)
      as (Hwf1 & Hlen & Hin & (l1 & Hb1) & Hhead & Hlater & (extra1 & Harr1) & Hback).
    destruct (IH _ Hwf1 Hns)
      as (ss & h' & Hrun & Hwf' & (extra & Harr) & Hlens & Hins & Hlaters & Hsorted).
    exists ((slice_spec n h).1 :: ss), h'.
    cbn [slices]. unfold bind at 1. rewrite (slice_refines n h Hwf Hn).
    unfold bind at 1. rewrite Hrun. unfold ret.
    split; [reflexivity|]. split; [exact Hwf'|]. split.
    { exists (extra1 ++ extra). rewrite Harr, Harr1. by rewrite app_assoc. }
    split; [constructor; assumption|]. split.
    { constructor; [|exact Hins]. by eapply within_extend. }
    split.
    { constructor; [exact Hlater|].
      eapply Forall_impl; [exact Hlaters | exact Hback]. }
    constructor; [exact Hsorted|].
    eapply Forall_impl; [exact Hlaters|].
    intros s' [(l & Hb & Hlo) | Hfresh] Hsame.
    + lia.
    + destruct Hin as (_ & l & Hnth & _).
      assert ((array (slice_spec n h).1 < length (arrays (slice_spec n h).2))%nat)
        by (apply nth_error_Some; congruence).
      lia.
Qed.

Lemma StronglySorted_lookup {A} (R : A -> A -> Prop) (l : list A) i j a b :
  StronglySorted R l -> (i < j)%nat -> l !! i = Some a -> l !! j = Some b -> R a b.
Proof.
  intros Hsorted. revert i j. induction Hsorted as [|x l Hsorted IH Hall]; intros i j Hij Hi Hj.
  - discriminate.
  - destruct j as [|j]; [lia|]. cbn in Hj. destruct i as [|i]; cbn in Hi.
    + injection Hi as <-. rewrite Forall_forall in Hall.
      apply Hall. by eapply list_elem_of_lookup_2.
    + eapply (IH i j); [lia | exact Hi | exact Hj].
Qed.

Lemma wf_init : wf init.
Proof. reflexivity. Qed.

(** C10.  Successive calls [slice(n1)], [slice(n2)], ... on the arena all
    return; the slice of each call is a window of [n * VertexFloatNum] floats
    of an allocated array; and of two of the slices that are windows of one
    array, that is, with no reallocation between them, the earlier ends
    where the later starts or below: the slices are pairwise disjoint.  Each
    call is the step of [slice_spec]: it carves the slice at the cursor and
    moves the cursor on by [n] vertices, or, the buffer being too short,
    allocates [max(1024, n)] vertices and carves the slice from the front. *)
Theorem slices_disjoint h ns :
  wf h -> Forall small ns ->
  (exists ss h',
    slices ns h = (Ok ss, h')
    /\ wf h'
    /\ Forall2 (fun n s => hi s - lo s = n * VertexFloatNum) ns ss
    /\ Forall (within h') ss
    /\ (forall i j si sj,
          (i < j)%nat -> ss !! i = Some si -> ss !! j = Some sj ->
          disjoint si sj /\ (array si = array sj -> hi si <= lo sj)))
  /\ (forall n, small n -> slice n h = (Ok (slice_spec n h).1, (slice_spec n h).2)).
Proof.
  intros Hwf Hns. split; [|intros n Hn; by apply slice_refines].
  destruct (slices_sorted ns h Hwf Hns)
    as (ss & h' & Hrun & Hwf' & _ & Hlens & Hins & _ & Hsorted).
  exists ss, h'. split_and!; try assumption.
  intros i j si sj Hij Hi Hj.
  pose proof (StronglySorted_lookup before ss i j si sj Hsorted Hij Hi Hj) as Hbefore.
  split; [|exact Hbefore].
  unfold disjoint. destruct (decide (array si = array sj)) as [Heq|Hne].
  - right. left. by apply Hbefore.
  - left. exact Hne.
Qed.

Lemma slices_disjoint_witness :
  wf init /\ Forall small [4; 4; 1020; 4]
  /\ exists ss h',
       slices [4; 4; 1020; 4] init = (Ok ss, h')
       /\ forall i j si sj,
            (i < j)%nat -> ss !! i = Some si -> ss !! j = Some sj ->
            disjoint si sj.
Proof.
  assert (Hsmall : Forall small [4; 4; 1020; 4])
    by (repeat constructor; unfold small; lia).
  split; [exact wf_init|]. split; [exact Hsmall|].
  destruct (proj1 (slices_disjoint init [4; 4; 1020; 4] wf_init Hsmall))
    as (ss & h' & Hrun & _ & _ & _ & Hdisjoint).
  exists ss, h'. split; [exact Hrun|].
  intros i j si sj Hij Hi Hj. exact (proj1 (Hdisjoint i j si sj Hij Hi Hj)).
Defined.

End verticesBackendSpec.

(** ** The mipmap pyramid: the guards of [drawImage] *)

Module drawImageGuards.
Section Guards.
Context {ext : Externals}.

Lemma NaN_not_zero (det : float32) :
  IsNaN (f64.of_float32 det) = true -> f32.eqb det f32.zero = false.
Proof. destruct det as [s| [] | |[] m e]; try reflexivity; discriminate. Qed.

(** C6.  A [drawImage] whose determinant is 0 ([det == 0], for either sign
    of zero) returns with the world as it was: no call reaches the backend,
    so no draw is issued, and no pyramid changes, so the cache of the
    destination is neither disposed nor cleared. *)
Theorem drawImage_det_zero m src bounds geom colorm mode filter (w : World) :
  f32.eqb (GeoM_det geom) f32.zero = true ->
  drawImage m src bounds geom colorm mode filter w = (Ok tt, w)
  /\ forall w', (drawImage m src bounds geom colorm mode filter w).2 = w' ->
       trace w' = trace w /\ draws w' = draws w
       /\ mipmaps w' !! m = mipmaps w !! m.
Proof.
  intros Hdet.
  assert (Hrun : drawImage m src bounds geom colorm mode filter w = (Ok tt, w)).
  { unfold drawImage. rewrite Hdet. reflexivity. }
  split; [exact Hrun|]. intros w' <-. rewrite Hrun. done.
Qed.

(** C1, as the code has it.  A [drawImage] whose determinant is NaN returns
    with the world as it was, like one whose determinant is 0: it does not
    panic.  The panic on a NaN determinant is that of [mipmapLevel], which
    [drawImage] does not call with such a determinant. *)
Theorem drawImage_det_NaN m src bounds geom colorm mode filter (w : World) :
  IsNaN (f64.of_float32 (GeoM_det geom)) = true ->
  drawImage m src bounds geom colorm mode filter w = (Ok tt, w)
  /\ mipmapLevel src geom (image.Dx bounds) (image.Dy bounds) filter w
     = (Panic PanicDetNaN_mipmapLevel, w).
Proof.
  intros Hnan. split.
  - unfold drawImage. rewrite (NaN_not_zero _ Hnan), Hnan. reflexivity.
  - unfold mipmapLevel. rewrite Hnan. reflexivity.
Qed.

End Guards.

Import sample.

Lemma drawImage_det_zero_witness :
  f32.eqb (det (scale f32.zero)) f32.zero = true
  /\ drawImage 0%nat 1%nat (image.Rect 0 0 4 4) (scale f32.zero) None tt Linear empty
     = (Ok tt, empty).
Proof.
  assert (Hdet : f32.eqb (det (scale f32.zero)) f32.zero = true)
    by (vm_compute; reflexivity).
  split; [exact Hdet|].
  exact (proj1 (drawImage_det_zero (ext := externals) 0%nat 1%nat (image.Rect 0 0 4 4)
                  (scale f32.zero) None tt Linear empty Hdet)).
Defined.

Lemma drawImage_det_NaN_witness :
  IsNaN (f64.of_float32 (det (scale S754_nan))) = true
  /\ drawImage 0%nat 1%nat (image.Rect 0 0 4 4) (scale S754_nan) None tt Linear empty
     = (Ok tt, empty).
Proof.
  assert (Hnan : IsNaN (f64.of_float32 (det (scale S754_nan))) = true)
    by (vm_compute; reflexivity).
  split; [exact Hnan|].
  exact (proj1 (drawImage_det_NaN (ext := externals) 0%nat 1%nat (image.Rect 0 0 4 4)
                  (scale S754_nan) None tt Linear empty Hnan)).
Defined.

(** C1, as the specification has it, fails: with the NaN determinant of the
    matrix that scales by NaN, [drawImage] returns; it does not panic. *)
Lemma drawImage_det_NaN_returns :
  IsNaN (f64.of_float32 (GeoM_det (scale S754_nan))) = true
  /\ ~ (exists p, (drawImage 0%nat 1%nat (image.Rect 0 0 4 4) (scale S754_nan)
                     None tt Linear empty).1 = Panic p).
Proof.
  split; [vm_compute; reflexivity|].
  intros [p Hp]. vm_compute in Hp. discriminate.
Qed.

End drawImageGuards.

(** ** The mipmap pyramid: the cache of derived levels *)

Module monadFacts.

Lemma bind_Ok_inv {S A B} (c : M S A) (k : A -> M S B) s b s2 :
  bind c k s = (Ok b, s2) ->
  exists a s1, c s = (Ok a, s1) /\ k a s1 = (Ok b, s2).
Proof.
  unfold bind. destruct (c s) as [[a| |] s1]; [|discriminate..].
  intros Hk. by exists a, s1.
Qed.

Lemma bind_Ok {S A B} (c : M S A) (k : A -> M S B) s a s1 :
  c s = (Ok a, s1) -> bind c k s = k a s1.
Proof. unfold bind. by intros ->. Qed.

Lemma lift_state {S A} (o : outcome A) (s : S) o' s' :
  lift o s = (o', s') -> s' = s.
Proof. by intros [= _ <-]. Qed.

End monadFacts.

(** [inv_bind H as a w H1]: from [H : (x <- c ;; k) s = (Ok b, s2)] to
    [H1 : c s = (Ok a, w)] and [H : k a w = (Ok b, s2)]. *)
Tactic Notation "inv_bind" hyp(H) "as" ident(a) ident(w) ident(H1) :=
  apply monadFacts.bind_Ok_inv in H as (a & w & H1 & H).

Module mipmapFacts.
Section Facts.
Context {ext : Externals}.
Import monadFacts.

Lemma deref_inv m (w : World) mm w' :
  deref m w = (Ok mm, w') -> w' = w /\ mipmaps w !! m = Some mm.
Proof.
  unfold deref, bind, get, ret, throw.
  destruct (mipmaps w !! m); [|discriminate]. by intros [= <- <-].
Qed.

Lemma deref_Some m (w : World) mm :
  mipmaps w !! m = Some mm -> deref m w = (Ok mm, w).
Proof. unfold deref, bind, get, ret. by intros ->. Qed.

Lemma assign_eq m mm (w : World) :
  assign m mm w
  = (Ok tt, mkWorld (<[m := mm]> (mipmaps w)) (arena w) (next_image w) (trace w)).
Proof. reflexivity. Qed.

Lemma emit_eq e (w : World) :
  emit e w = (Ok tt, mkWorld (mipmaps w) (arena w) (next_image w) (trace w ++ [e])).
Proof. reflexivity. Qed.

Lemma shareable_NewImage_eq width height volatile (w : World) :
  shareable_NewImage width height volatile w
  = (Ok (next_image w),
     mkWorld (mipmaps w) (arena w) (S (next_image w))
       (trace w ++ [NewImage (next_image w) width height volatile])).
Proof. reflexivity. Qed.

Lemma on_arena_inv {A} (c : M verticesBackend.heap A) (w : World) o w' :
  on_arena c w = (o, w') ->
  mipmaps w' = mipmaps w /\ next_image w' = next_image w /\ trace w' = trace w.
Proof.
  unfold on_arena. destruct (c (arena w)) as [o1 a]. by intros [= _ <-].
Qed.

Lemma set_level_inv m r level img (w : World) w' :
  set_level m r level img w = (Ok tt, w') ->
  exists mm,
    mipmaps w !! m = Some mm
    /\ w' = mkWorld
              (<[m := mkMipmap (width mm) (height mm) (volatile mm) (orig mm)
                        (<[r := <[level := img]> (default ∅ (imgs mm !! r))]> (imgs mm))]>
                 (mipmaps w))
              (arena w) (next_image w) (trace w).
Proof.
  unfold set_level. intros Hrun. inv_bind Hrun as mm w1 Hderef.
  apply deref_inv in Hderef as [-> Hm]. rewrite assign_eq in Hrun.
  exists mm. split; [exact Hm | congruence].
Qed.


Lemma set_level_extends m r level img (w : World) w' :
  set_level m r level img w = (Ok tt, w') -> extends_by [] w w'.
Proof.
  intros Hrun. apply set_level_inv in Hrun as (mm & _ & ->).
  split; cbn [trace next_image]; [by rewrite app_nil_r | lia].
Qed.




Lemma level_of_nonzero neg k : level_of neg k <> 0.
Proof. unfold level_of. destruct neg; lia. Qed.





Lemma extends_by_refl (w : World) : extends_by [] w w.
Proof. split; [by rewrite app_nil_r | lia]. Qed.

Lemma extends_by_trans evs1 evs2 (w w1 w2 : World) :
  extends_by evs1 w w1 -> extends_by evs2 w1 w2 -> extends_by (evs1 ++ evs2) w w2.
Proof.
  intros [Ht1 Hn1] [Ht2 Hn2]. split; [|lia]. by rewrite Ht2, Ht1, app_assoc.
Qed.

Lemma extends_by_same evs (w w1 w2 : World) :
  extends_by evs w w1 -> trace w2 = trace w1 -> next_image w2 = next_image w1 ->
  extends_by evs w w2.
Proof. intros [Ht Hn] Ht2 Hn2. split; [congruence | lia]. Qed.

Lemma cache_empty_uncached m r level (w : World) :
  cache_empty m w -> uncached m r level w.
Proof.
  intros (mm & Hm & Hempty) mm' a Hm' Hr.
  assert (mm' = mm) as -> by congruence.
  rewrite Hempty, lookup_empty in Hr. discriminate.
Qed.

(** What a call of [level] that returns adds to the trace; when the level
    was not cached, an image it returns is one it has derived. *)
Lemma level_body_trace neg k prev m r img (w w' : World) :
  (k <> O -> forall w0 src w0',
      prev w0 = (Ok src, w0') -> exists evs, extends_by evs w0 w0') ->
  level_body neg k prev m r w = (Ok img, w') ->
  exists evs,
    extends_by evs w w'
    /\ (uncached m r (level_of neg k) w ->
        forall i, img = Some i ->
          (next_image w <= i < next_image w')%nat /\ derives i evs).
Proof.
  intros Hprev Hrun. unfold level_body in Hrun. cbv zeta in Hrun.
  change (if neg then - Z.of_nat (S k) else Z.of_nat (S k))
    with (level_of neg k) in Hrun.
  rewrite bool_decide_eq_false_2 in Hrun by apply level_of_nonzero.
  inv_bind Hrun as mm w0 Hderef. apply deref_inv in Hderef as [-> Hm].
  destruct (volatile mm) eqn:Hvol; [discriminate|].
  inv_bind Hrun as u w1 Hensure.
  assert (Hw1 : extends_by [] w w1
             /\ exists mm1, mipmaps w1 !! m = Some mm1
             /\ (uncached m r (level_of neg k) w ->
                 default ∅ (imgs mm1 !! r) !! level_of neg k = None)).
  { destruct (imgs mm !! r) as [a1|] eqn:Hr.
    - injection Hensure as _ <-. split; [apply extends_by_refl|].
      exists mm. split; [exact Hm|]. intros Hun. rewrite Hr.
      cbn [default from_option id]. by eapply Hun.
    - rewrite assign_eq in Hensure. injection Hensure as _ <-.
      split; [split; cbn [trace next_image]; [by rewrite app_nil_r | lia]|].
      eexists. cbn [mipmaps]. rewrite lookup_insert_eq.
      split; [reflexivity|]. intros _. cbn [imgs]. rewrite lookup_insert_eq.
      cbn [default from_option id]. by rewrite lookup_empty. }
  clear Hensure. destruct Hw1 as (Hext1 & mm1 & Hm1 & Hmiss).
  inv_bind Hrun as mm1' w1' Hderef. apply deref_inv in Hderef as [-> Hm1'].
  assert (mm1' = mm1) as -> by congruence. clear Hm1'.
  destruct (default ∅ (imgs mm1 !! r) !! level_of neg k) as [img0|] eqn:Hlevel.
  { injection Hrun as <- <-. exists []. split; [exact Hext1|].
    intros Hun. discriminate (Hmiss Hun). }
  inv_bind Hrun as prepared w2 Hprepare.
  assert (Hw2 : exists evs2, extends_by evs2 w1 w2).
  { destruct k as [|k'].
    - inv_bind Hprepare as vs w3 Hquad.
      apply on_arena_inv in Hquad as (_ & Hnext & Htrace).
      injection Hprepare as _ <-. exists [].
      eapply extends_by_same; [apply extends_by_refl | done | done].
    - inv_bind Hprepare as src w3 Hsrc.
      destruct (Hprev ltac:(done) _ _ _ Hsrc) as [evs3 Hext3].
      destruct src as [src|].
      + destruct (sizeForLevel _ _ _) as [pw ph].
        inv_bind Hprepare as vs w4 Hquad.
        apply on_arena_inv in Hquad as (_ & Hnext & Htrace).
        injection Hprepare as _ <-. exists evs3.
        eapply extends_by_same; [exact Hext3 | done | done].
      + inv_bind Hprepare as u' w4 Hset. injection Hprepare as _ <-.
        destruct u'. apply set_level_extends in Hset.
        exists (evs3 ++ []). by eapply extends_by_trans. }
  clear Hprepare. destruct Hw2 as [evs2 Hext2].
  pose proof (extends_by_trans _ _ _ _ _ Hext1 Hext2) as Hext. cbn [app] in Hext.
  destruct prepared as [[src vs]|].
  2:{ injection Hrun as <- <-. exists evs2. split; [exact Hext | discriminate]. }
  destruct (sizeForLevel _ _ _) as [w2' h2'].
  destruct (bool_decide (w2' = 0) || bool_decide (h2' = 0)).
  - inv_bind Hrun as u' w3 Hset. injection Hrun as <- <-. destruct u'.
    apply set_level_extends in Hset.
    exists (evs2 ++ []). split; [by eapply extends_by_trans | discriminate].
  - inv_bind Hrun as s w3 Hnew.
    rewrite shareable_NewImage_eq in Hnew. injection Hnew as <- <-.
    inv_bind Hrun as u' w4 Hemit. rewrite emit_eq in Hemit. injection Hemit as _ <-.
    inv_bind Hrun as u'' w5 Hset. injection Hrun as <- <-. destruct u''.
    apply set_level_inv in Hset as (mm2 & _ & ->).
    destruct Hext as [Htrace Hnext].
    eexists (evs2 ++ [_; _]). split.
    + split; cbn [trace next_image].
      * rewrite Htrace, <- !app_assoc. reflexivity.
      * lia.
    + intros _ i [= <-]. cbn [next_image]. split; [lia|]. split.
      * eexists _, _, _. apply elem_of_app. right. apply elem_of_cons. by left.
      * eexists _, _, _, _. apply elem_of_app. right.
        apply elem_of_cons. right. apply elem_of_cons. by left.
Qed.

Lemma level_rec_extends neg k m r img (w w' : World) :
  level_rec neg k m r w = (Ok img, w') -> exists evs, extends_by evs w w'.
Proof.
  revert img w w'. induction k as [|k IH]; intros img w w' Hrun;
    cbn [level_rec] in Hrun;
    apply level_body_trace in Hrun as (evs & Hext & _); try (by exists evs).
  - done.
  - intros _ w0 src w0' Hprev. by eapply IH.
Qed.

Lemma level_rec_body neg k m r :
  level_rec neg k m r
  = level_body neg k
      (match k with O => ret None | S k' => level_rec neg k' m r end) m r.
Proof. destruct k; reflexivity. Qed.

Lemma level_of_level level :
  level <> 0 ->
  level_of (bool_decide (level < 0)) (Z.to_nat (Z.abs level - 1)) = level.
Proof. intros Hne. unfold level_of. case_bool_decide; lia. Qed.

(** [level] and the recursion. *)
Lemma level_eq m r lv :
  lv <> 0 ->
  level m r lv = level_rec (bool_decide (lv < 0)) (Z.to_nat (Z.abs lv - 1)) m r.
Proof. intros Hne. unfold level. by rewrite bool_decide_eq_false_2. Qed.

Lemma level_Ok_nonzero m r lv (w : World) img w' :
  level m r lv w = (Ok img, w') -> lv <> 0.
Proof. unfold level. case_bool_decide; [discriminate | done]. Qed.


Lemma dispose_each_eq l (w : World) :
  dispose_each l w
  = (Ok tt, mkWorld (mipmaps w) (arena w) (next_image w) (trace w ++ (Dispose <$> l))).
Proof.
  revert w. induction l as [|img l IH]; intros w.
  - cbn [dispose_each fmap list_fmap]. rewrite app_nil_r. by destruct w.
  - cbn [dispose_each]. unfold bind at 1. rewrite emit_eq, IH.
    cbn [mipmaps arena next_image trace fmap list_fmap].
    by rewrite <- app_assoc.
Qed.

Lemma filter_draw_dispose (l : list (option Image)) :
  filter is_draw (Dispose <$> l) = [].
Proof.
  induction l as [|img l IH]; [reflexivity|].
  cbn [fmap list_fmap]. rewrite filter_cons_False; [exact IH|].
  cbn [is_draw]. intros [].
Qed.

(** [disposeMipmaps] leaves the cache empty and draws nothing. *)
Lemma disposeMipmaps_inv m (w w' : World) :
  disposeMipmaps m w = (Ok tt, w') ->
  cache_empty m w' /\ draws w' = draws w.
Proof.
  unfold disposeMipmaps. intros Hrun.
  inv_bind Hrun as mm w0 Hderef. apply deref_inv in Hderef as [-> Hm].
  inv_bind Hrun as u w1 Heach. rewrite dispose_each_eq in Heach.
  injection Heach as _ <-.
  inv_bind Hrun as mm1 w2 Hderef. apply deref_inv in Hderef as [-> Hm1].
  rewrite assign_eq in Hrun. injection Hrun as <-. split.
  - eexists. cbn [mipmaps]. rewrite lookup_insert_eq. done.
  - unfold draws. cbn [trace]. rewrite filter_app.
    rewrite filter_draw_dispose. by rewrite app_nil_r.
Qed.


Lemma deref_state m (w : World) o w' : deref m w = (o, w') -> w' = w.
Proof.
  unfold deref, bind, get, ret, throw.
  destruct (mipmaps w !! m); by intros [= _ <-].
Qed.

Lemma mipmapLevel_state m geom width height filter (w : World) o w' :
  mipmapLevel m geom width height filter w = (o, w') -> w' = w.
Proof.
  unfold mipmapLevel.
  destruct (IsNaN _); [by intros [= _ <-]|].
  destruct (f32.eqb _ _); [by intros [= _ <-]|].
  destruct (geomScaleSize geom) as [sx sy].
  destruct (f32.leb tooBigScale sx || f32.leb tooBigScale sy).
  - case_bool_decide; [by intros [= _ <-]|].
    destruct (bool_decide _ || bool_decide _); [by intros [= _ <-]|].
    intros Hrun. by apply lift_state in Hrun.
  - case_bool_decide; [by intros [= _ <-]|].
    unfold bind. destruct (deref m w) as [[mm|p|] w1] eqn:Hderef;
      apply deref_state in Hderef as ->; [|by intros [= _ <-]..].
    destruct (volatile mm); [by intros [= _ <-]|].
    intros Hrun. by apply lift_state in Hrun.
Qed.


End Facts.
End mipmapFacts.

Module mipmapSpec.
Section Cache.
Context {ext : Externals}.
Import mipmapFacts.


End Cache.

Import sample.



End mipmapSpec.

(** ** [mipmapLevelForDownscale] *)

Module floatFacts.

Lemma digits2_size m : digits2_pos m = Pos.size m.
Proof. induction m as [m IH|m IH|]; cbn; congruence. Qed.

(** [2^(digits m - 1) <= m < 2^(digits m)] *)
Lemma digits2_bounds m :
  2 ^ (Zpos (digits2_pos m) - 1) <= Zpos m < 2 ^ Zpos (digits2_pos m).
Proof.
  rewrite digits2_size. split.
  - pose proof (Pos.size_le m) as Hle.
    apply Pos2Z.pos_le_pos in Hle. rewrite Pos2Z.inj_pow in Hle.
    replace (Zpos (Pos.size m)) with (Zpos (Pos.size m) - 1 + 1) in Hle by lia.
    rewrite Z.pow_add_r in Hle by lia. change (Zpos m~0) with (2 * Zpos m) in Hle.
    change (Zpos 2) with 2 in Hle. lia.
  - pose proof (Pos.size_gt m) as Hgt.
    apply Pos2Z.pos_lt_pos in Hgt. by rewrite Pos2Z.inj_pow in Hgt.
Qed.

Lemma digits2_mono m1 m2 :
  (m1 <= m2)%positive -> Zpos (digits2_pos m1) <= Zpos (digits2_pos m2).
Proof.
  intros Hle. pose proof (digits2_bounds m1) as [H1 _].
  pose proof (digits2_bounds m2) as [_ H2].
  assert (Hlt : 2 ^ (Zpos (digits2_pos m1) - 1) < 2 ^ Zpos (digits2_pos m2)) by lia.
  apply Z.pow_lt_mono_r_iff in Hlt; lia.
Qed.

Lemma digits2_iter_xO m d :
  Zpos (digits2_pos (Pos.iter xO m d)) = Zpos (digits2_pos m) + Zpos d.
Proof.
  induction d as [|d IH] using Pos.peano_ind.
  - cbn. lia.
  - rewrite Pos.iter_succ. cbn [digits2_pos]. lia.
Qed.

Lemma bounded_inv prec emax m e :
  bounded prec emax m e = true ->
  e = Z.max (Zpos (digits2_pos m) + e - prec) (3 - emax - prec) /\ e <= emax - prec.
Proof.
  unfold bounded, canonical_mantissa, fexp, emin. intros Hb.
  apply andb_prop in Hb as [Hc He].
  apply Z.eqb_eq in Hc. apply Z.leb_le in He. lia.
Qed.

Lemma bounded_intro prec emax m e :
  e = Z.max (Zpos (digits2_pos m) + e - prec) (3 - emax - prec) -> e <= emax - prec ->
  bounded prec emax m e = true.
Proof.
  unfold bounded, canonical_mantissa, fexp, emin. intros Hc He.
  apply andb_true_intro. split; [apply Z.eqb_eq | apply Z.leb_le]; lia.
Qed.

(** A mantissa that is already canonical is not rounded. *)
Lemma binary_round_aux_canonical prec emax s m e :
  bounded prec emax m e = true ->
  binary_round_aux prec emax s (Zpos m) e loc_Exact = S754_finite s m e.
Proof.
  intros Hb. pose proof (bounded_inv _ _ _ _ Hb) as [Hc He].
  unfold binary_round_aux, shr_fexp, fexp, emin. cbn [Zdigits2 shr_record_of_loc].
  replace (Z.max (Zpos (digits2_pos m) + e - prec) (3 - emax - prec) - e) with 0 by lia.
  cbn [shr shr_m loc_of_shr_record round_nearest_even Zdigits2 shr_record_of_loc].
  replace (Z.max (Zpos (digits2_pos m) + e - prec) (3 - emax - prec) - e) with 0 by lia.
  cbn [shr shr_m]. apply Z.leb_le in He. by rewrite He.
Qed.

(** [float64(x)] of a finite [float32]: the mantissa is shifted to 53 bits,
    the value and the magnitude are kept. *)
Lemma of_float32_finite s m e :
  bounded f32.prec f32.emax m e = true ->
  exists m' e',
    f64.of_float32 (S754_finite s m e) = S754_finite s m' e'
    /\ bounded f64.prec f64.emax m' e' = true
    /\ Zpos (digits2_pos m') + e' = Zpos (digits2_pos m) + e.
Proof.
  intros Hb. apply bounded_inv in Hb as [Hc He].
  unfold f32.prec, f32.emax in *.
  pose proof (Pos2Z.is_pos (digits2_pos m)) as Hpos.
  cbn [f64.of_float32]. unfold binary_round, shl_align, fexp, emin, f64.prec, f64.emax.
  replace (Z.max (Zpos (digits2_pos m) + e - 53) (3 - 1024 - 53) - e)
    with (Zneg (Pos.of_nat (Z.to_nat (53 - Zpos (digits2_pos m))))).
  2:{ rewrite Z.max_l by lia.
      assert (Hd : 0 < 53 - Zpos (digits2_pos m)) by lia.
      destruct (53 - Zpos (digits2_pos m)) as [|d|d] eqn:Hdd; lia. }
  set (d := Pos.of_nat (Z.to_nat (53 - Zpos (digits2_pos m)))).
  assert (Hd : Zpos d = 53 - Zpos (digits2_pos m)).
  { subst d. destruct (53 - Zpos (digits2_pos m)) as [|d|d] eqn:Hdd; lia. }
  rewrite Z.max_l by lia.
  assert (Hb' : bounded 53 1024 (Pos.iter xO m d) (Zpos (digits2_pos m) + e - 53) = true).
  { apply bounded_intro; rewrite ?digits2_iter_xO; lia. }
  exists (Pos.iter xO m d), (Zpos (digits2_pos m) + e - 53).
  split; [by apply binary_round_aux_canonical|].
  split; [exact Hb'|]. rewrite digits2_iter_xO. lia.
Qed.

Lemma four_eq : f64.four = S754_finite false 4503599627370496 (-50).
Proof. vm_compute. reflexivity. Qed.

Lemma quarter_eq : f64.quarter = S754_finite false 4503599627370496 (-54).
Proof. vm_compute. reflexivity. Qed.

Lemma mul_2_52 m : (4503599627370496 * m)%positive = Pos.iter xO m 52.
Proof. cbv [Pos.mul Pos.iter]. reflexivity. Qed.

(** The end of [binary_round_aux], for a mantissa the first shift has made
    canonical. *)
Lemma binary_round_aux_end m1 e1 :
  bounded f64.prec f64.emax m1 e1 = true ->
  (let '(mrs'', e'') :=
     shr_fexp 53 1024
       (round_nearest_even (shr_m (Build_shr_record (Zpos m1) false false))
          (loc_of_shr_record (Build_shr_record (Zpos m1) false false)))
       e1 loc_Exact in
   match shr_m mrs'' with
   | 0 => S754_zero false
   | Zpos m0 =>
       if e'' <=? 1024 - 53 then S754_finite false m0 e'' else S754_infinity false
   | Zneg _ => S754_nan
   end) = S754_finite false m1 e1.
Proof.
  intros Hb. apply bounded_inv in Hb as [Hc He]. unfold f64.prec, f64.emax in *.
  cbn [shr_m loc_of_shr_record round_nearest_even].
  unfold shr_fexp, fexp, emin. cbn [Zdigits2 shr_record_of_loc].
  replace (Z.max (Zpos (digits2_pos m1) + e1 - 53) (3 - 1024 - 53) - e1) with 0 by lia.
  cbn [shr shr_m]. apply Z.leb_le in He. by rewrite He.
Qed.

(** [d *= 4] on a [float64] below 0.25 is exact: the magnitude grows by 2. *)
Lemma mul_four m e :
  bounded f64.prec f64.emax m e = true ->
  Zpos (digits2_pos m) + e <= -2 ->
  exists m' e',
    f64.mul (S754_finite false m e) f64.four = S754_finite false m' e'
    /\ bounded f64.prec f64.emax m' e' = true
    /\ Zpos (digits2_pos m') + e' = Zpos (digits2_pos m) + e + 2.
Proof.
  intros Hb Hmag. apply bounded_inv in Hb as [Hc He].
  unfold f64.prec, f64.emax in Hc, He.
  pose proof (Pos2Z.is_pos (digits2_pos m)) as Hpos.
  rewrite four_eq. unfold f64.mul, SFmul. cbn [xorb].
  rewrite Pos.mul_comm, mul_2_52.
  unfold binary_round_aux, shr_fexp at 1, fexp, emin, f64.prec, f64.emax.
  cbn [Zdigits2 shr_record_of_loc]. rewrite digits2_iter_xO.
  match goal with
  | |- context [shr _ _ ?n] => remember n as n1 eqn:Hn1
  end.
  assert (Hcases : (n1 = 52 /\ e = Zpos (digits2_pos m) + e - 53)
                   \/ (n1 = 51 /\ e = -1074 /\ Zpos (digits2_pos m) = 52)
                   \/ (n1 = 50 /\ e = -1074 /\ Zpos (digits2_pos m) <= 51)) by lia.
  clear Hn1.
  destruct Hcases as [[-> Hn] | [(-> & -> & Hd) | (-> & -> & Hd)]];
    cbn [shr]; cbv [Pos.iter]; cbn [SpecFloat.iter_pos shr_1 orb].
  - assert (Hb' : bounded f64.prec f64.emax m (e + -50 + 52) = true)
      by (apply bounded_intro; unfold f64.prec, f64.emax; lia).
    exists m, (e + -50 + 52). split; [by apply binary_round_aux_end|].
    split; [exact Hb' | lia].
  - assert (Hb' : bounded f64.prec f64.emax (xO m) (-1074 + -50 + 51) = true)
      by (apply bounded_intro; unfold f64.prec, f64.emax; cbn [digits2_pos]; lia).
    exists (xO m), (-1074 + -50 + 51). split; [by apply binary_round_aux_end|].
    split; [exact Hb' | cbn [digits2_pos]; lia].
  - assert (Hb' : bounded f64.prec f64.emax (xO (xO m)) (-1074 + -50 + 50) = true)
      by (apply bounded_intro; unfold f64.prec, f64.emax; cbn [digits2_pos]; lia).
    exists (xO (xO m)), (-1074 + -50 + 50). split; [by apply binary_round_aux_end|].
    split; [exact Hb' | cbn [digits2_pos]; lia].
Qed.

(** [d < 0.25] by the magnitude of [d]. *)
Lemma ltb_quarter m e :
  bounded f64.prec f64.emax m e = true ->
  f64.ltb (S754_finite false m e) f64.quarter
  = bool_decide (Zpos (digits2_pos m) + e <= -2).
Proof.
  intros Hb. apply bounded_inv in Hb as [Hc He].
  unfold f64.prec, f64.emax in Hc, He.
  pose proof (digits2_bounds m) as [Hlow _].
  rewrite quarter_eq. unfold f64.ltb, SFltb, SFcompare.
  destruct (Z.compare_spec e (-54)) as [Heq|Hlt|Hgt].
  - rewrite bool_decide_eq_false_2 by lia.
    rewrite Pos.compare_cont_spec. cbn [Pos.switch_Eq].
    assert (Hd : Zpos (digits2_pos m) - 1 = 52) by lia.
    rewrite Hd in Hlow.
    assert (Hpow : 2 ^ 52 = 4503599627370496) by reflexivity.
    rewrite Hpow in Hlow.
    destruct (Pos.compare_spec m 4503599627370496) as [?|Hm|?].
    + reflexivity.
    + exfalso. clear - Hm Hlow. apply Pos2Z.pos_lt_pos in Hm. lia.
    + reflexivity.
  - rewrite bool_decide_eq_true_2 by lia. reflexivity.
  - rewrite bool_decide_eq_false_2 by lia. reflexivity.
Qed.

Lemma downscale_steps_zero g : -1 <= g -> downscale_steps g = 0.
Proof. unfold downscale_steps. Z.to_euclidean_division_equations. lia. Qed.

Lemma downscale_steps_succ g : g <= -2 -> downscale_steps g = 1 + downscale_steps (g + 2).
Proof. unfold downscale_steps. Z.to_euclidean_division_equations. lia. Qed.

Lemma downscale_steps_mono g1 g2 : g1 <= g2 -> downscale_steps g2 <= downscale_steps g1.
Proof. unfold downscale_steps. Z.to_euclidean_division_equations. lia. Qed.

(** The loop, in closed form. *)
Lemma mipmapLevelForDownscale_loop_closed n :
  forall fuel m e level,
    bounded f64.prec f64.emax m e = true ->
    downscale_steps (Zpos (digits2_pos m) + e) = Z.of_nat n ->
    (n <= fuel)%nat -> 0 <= level -> level + Z.of_nat n < 2 ^ 62 ->
    mipmapLevelForDownscale_loop fuel (S754_finite false m e) level
    = Ok (level + Z.of_nat n).
Proof.
  induction n as [|n IH]; intros fuel m e level Hb Hsteps Hfuel Hlevel Hmax.
  - assert (Hg : -1 <= Zpos (digits2_pos m) + e).
    { destruct (Z_le_gt_dec (-1) (Zpos (digits2_pos m) + e)) as [|Hlt]; [done|].
      rewrite downscale_steps_succ in Hsteps by lia.
      unfold downscale_steps in Hsteps. lia. }
    destruct fuel; cbn [mipmapLevelForDownscale_loop];
      rewrite (ltb_quarter m e Hb), bool_decide_eq_false_2 by lia;
      f_equal; lia.
  - assert (Hg : Zpos (digits2_pos m) + e <= -2).
    { destruct (Z_le_gt_dec (Zpos (digits2_pos m) + e) (-2)) as [|Hgt]; [done|].
      rewrite downscale_steps_zero in Hsteps by lia. lia. }
    destruct fuel as [|fuel]; [lia|]. cbn [mipmapLevelForDownscale_loop].
    rewrite (ltb_quarter m e Hb), bool_decide_eq_true_2 by exact Hg.
    destruct (mul_four m e Hb Hg) as (m' & e' & -> & Hb' & Hmag').
    assert (Hadd : GoInt.add level 1 = level + 1).
    { apply GoIntFacts.wrap_id.
      unfold GoInt.inRange, GoInt.minInt, GoInt.maxInt. lia. }
    rewrite Hadd, (IH fuel m' e' (level + 1) Hb'); [f_equal; lia | | lia | lia | lia].
    rewrite Hmag'. rewrite downscale_steps_succ in Hsteps by exact Hg. lia.
Qed.

(** The loop ends after the first [n] multiplications by 4 that bring [d]
    to 0.25 or above. *)
Lemma times4_succ n d : times4 (S n) d = times4 n (f64.mul d f64.four).
Proof. unfold times4. by rewrite Nat.iter_succ_r. Qed.

Lemma mipmapLevelForDownscale_loop_least fuel :
  forall d level l,
    0 <= level -> level + Z.of_nat fuel < 2 ^ 62 ->
    mipmapLevelForDownscale_loop fuel d level = Ok l ->
    exists n,
      l = level + Z.of_nat n
      /\ f64.ltb (times4 n d) f64.quarter = false
      /\ forall k, (k < n)%nat -> f64.ltb (times4 k d) f64.quarter = true.
Proof.
  induction fuel as [|fuel IH]; intros d level l Hlevel Hmax Hrun;
    cbn [mipmapLevelForDownscale_loop] in Hrun;
    destruct (f64.ltb d f64.quarter) eqn:Hlt; try discriminate.
  - injection Hrun as <-. exists O. split; [lia|]. split; [exact Hlt | lia].
  - assert (Hadd : GoInt.add level 1 = level + 1).
    { apply GoIntFacts.wrap_id.
      unfold GoInt.inRange, GoInt.minInt, GoInt.maxInt. lia. }
    rewrite Hadd in Hrun. apply IH in Hrun as (n & -> & Hend & Hbelow); [|lia..].
    exists (S n). split; [lia|]. rewrite times4_succ. split; [exact Hend|].
    intros [|k] Hk; [exact Hlt|]. rewrite times4_succ. apply Hbelow. lia.
  - injection Hrun as <-. exists O. split; [lia|]. split; [exact Hlt | lia].
Qed.

(** [mipmapLevelForDownscale] in closed form. *)
Lemma mipmapLevelForDownscale_closed (det : float32) :
  f32.valid det ->
  mipmapLevelForDownscale det =
    match det with
    | S754_nan => Panic PanicDetNaN_mipmapLevelForDownscale
    | S754_zero _ => Panic PanicDetZero_mipmapLevelForDownscale
    | S754_infinity _ => Ok 0
    | S754_finite _ _ _ => Ok (downscale_steps (mag det))
    end.
Proof.
  intros Hvalid.
  destruct det as [s|[]| |s m e];
    [vm_compute; reflexivity | vm_compute; reflexivity | vm_compute; reflexivity
    | vm_compute; reflexivity |].
  unfold f32.valid in Hvalid. cbn [valid_binary] in Hvalid.
  destruct (of_float32_finite s m e Hvalid) as (m' & e' & Hconv & Hb' & Hmag).
  pose proof (bounded_inv _ _ _ _ Hvalid) as [Hc He].
  unfold f32.prec, f32.emax in Hc, He.
  pose proof (Pos2Z.is_pos (digits2_pos m)) as Hpos.
  unfold mipmapLevelForDownscale. rewrite Hconv. cbn [IsNaN f64.abs SFabs].
  replace (f32.eqb (S754_finite s m e) f32.zero) with false by (by destruct s).
  cbn [mag].
  assert (Hsteps : 0 <= downscale_steps (Zpos (digits2_pos m) + e) <= 74)
    by (unfold downscale_steps; Z.to_euclidean_division_equations; lia).
  rewrite (mipmapLevelForDownscale_loop_closed
             (Z.to_nat (downscale_steps (Zpos (digits2_pos m) + e)))
             _ m' e' 0 Hb').
  - f_equal. lia.
  - rewrite Hmag. lia.
  - unfold mipmapLevelForDownscale_fuel. lia.
  - lia.
  - lia.
Qed.

(** [|d1| <= |d2|] on [float32] orders the magnitudes. *)
Lemma leb_abs_mag s1 m1 e1 s2 m2 e2 :
  bounded f32.prec f32.emax m1 e1 = true ->
  bounded f32.prec f32.emax m2 e2 = true ->
  f32.leb (SFabs (S754_finite s1 m1 e1)) (SFabs (S754_finite s2 m2 e2)) = true ->
  Zpos (digits2_pos m1) + e1 <= Zpos (digits2_pos m2) + e2.
Proof.
  intros Hb1 Hb2. apply bounded_inv in Hb1 as [Hc1 _], Hb2 as [Hc2 _].
  unfold f32.prec, f32.emax in Hc1, Hc2.
  unfold f32.leb, SFleb, SFabs, SFcompare.
  destruct (Z.compare_spec e1 e2) as [->|Hlt|Hgt]; [|lia|discriminate].
  rewrite Pos.compare_cont_spec. cbn [Pos.switch_Eq].
  destruct (Pos.compare_spec m1 m2) as [->|Hm|Hm]; [lia| |discriminate].
  intros _. pose proof (digits2_mono m1 m2 ltac:(lia)). lia.
Qed.

End floatFacts.

Module mipmapLevelForDownscaleSpec.
Import floatFacts.

(** C2, as the code has it.  The level does not decrease as [|det|]
    shrinks; it is the number of times the loop multiplies [|det|] by 4, the
    least [n] for which [|det| * 4^n] is not below 0.25; the determinants
    1.0, 0.2 and 0.05 give the levels 0, 1 and 2, and 0.003 gives the
    level 4. *)
Theorem mipmapLevelForDownscale_monotone :
  (forall d1 d2 : float32,
      f32.valid d1 -> f32.valid d2 ->
      f32.eqb d1 f32.zero = false ->
      f32.leb (SFabs d1) (SFabs d2) = true ->
      exists l1 l2,
        mipmapLevelForDownscale d1 = Ok l1
        /\ mipmapLevelForDownscale d2 = Ok l2
        /\ l2 <= l1)
  /\ (forall det : float32,
      f32.valid det ->
      IsNaN (f64.of_float32 det) = false ->
      f32.eqb det f32.zero = false ->
      exists n : nat,
        mipmapLevelForDownscale det = Ok (Z.of_nat n)
        /\ f64.ltb (times4 n (f64.abs (f64.of_float32 det))) f64.quarter = false
        /\ forall k, (k < n)%nat ->
             f64.ltb (times4 k (f64.abs (f64.of_float32 det))) f64.quarter = true)
  /\ mipmapLevelForDownscale (f32.of_Z 1) = Ok 0
  /\ mipmapLevelForDownscale (float32_of_ratio 2 10) = Ok 1
  /\ mipmapLevelForDownscale (float32_of_ratio 5 100) = Ok 2
  /\ mipmapLevelForDownscale (float32_of_ratio 3 1000) = Ok 4.
Proof.
  split; [|split; [|repeat split; vm_compute; reflexivity]].
  - intros d1 d2 Hv1 Hv2 Hnz Hle.
    rewrite (mipmapLevelForDownscale_closed d1 Hv1),
      (mipmapLevelForDownscale_closed d2 Hv2).
    destruct d1 as [s1|s1| |s1 m1 e1]; try discriminate.
    + destruct d2 as [s2|s2| |s2 m2 e2]; try discriminate.
      exists 0, 0. done.
    + destruct d2 as [s2|s2| |s2 m2 e2]; try discriminate.
      * eexists _, 0. split; [reflexivity|]. split; [reflexivity|].
        unfold downscale_steps. lia.
      * eexists _, _. split; [reflexivity|]. split; [reflexivity|].
        apply downscale_steps_mono. cbn [mag]. by eapply leb_abs_mag.
  - intros det Hvalid Hnan Hnz.
    pose proof (mipmapLevelForDownscale_closed det Hvalid) as Hclosed.
    assert (Hok : exists l, mipmapLevelForDownscale det = Ok l).
    { destruct det as [s|s| |s m e]; try discriminate; eauto. }
    destruct Hok as [l Hl].
    assert (Hrun : mipmapLevelForDownscale_loop mipmapLevelForDownscale_fuel
                     (f64.abs (f64.of_float32 det)) 0 = Ok l).
    { unfold mipmapLevelForDownscale in Hl. by rewrite Hnan, Hnz in Hl. }
    apply mipmapLevelForDownscale_loop_least in Hrun as (n & -> & Hend & Hbelow);
      [|lia | unfold mipmapLevelForDownscale_fuel; lia].
    exists n. rewrite Hl. split; [f_equal; lia|]. split; [exact Hend | exact Hbelow].
Qed.

Lemma mipmapLevelForDownscale_monotone_witness :
  (f32.valid (float32_of_ratio 5 100) /\ f32.valid (float32_of_ratio 2 10)
   /\ f32.eqb (float32_of_ratio 5 100) f32.zero = false
   /\ f32.leb (SFabs (float32_of_ratio 5 100)) (SFabs (float32_of_ratio 2 10)) = true)
  /\ exists l1 l2,
       mipmapLevelForDownscale (float32_of_ratio 5 100) = Ok l1
       /\ mipmapLevelForDownscale (float32_of_ratio 2 10) = Ok l2
       /\ l2 <= l1.
Proof.
  assert (Hv1 : f32.valid (float32_of_ratio 5 100)) by (vm_compute; reflexivity).
  assert (Hv2 : f32.valid (float32_of_ratio 2 10)) by (vm_compute; reflexivity).
  assert (Hnz : f32.eqb (float32_of_ratio 5 100) f32.zero = false)
    by (vm_compute; reflexivity).
  assert (Hle : f32.leb (SFabs (float32_of_ratio 5 100))
                  (SFabs (float32_of_ratio 2 10)) = true)
    by (vm_compute; reflexivity).
  split; [done|].
  exact (proj1 mipmapLevelForDownscale_monotone _ _ Hv1 Hv2 Hnz Hle).
Defined.

(** C2, as the specification has it, fails at its last example: the
    determinant 0.003 is below 0.25 after three multiplications by 4
    (0.192), and gives the level 4, not 3. *)
Lemma mipmapLevelForDownscale_0_003 :
  mipmapLevelForDownscale (float32_of_ratio 3 1000) <> Ok 3.
Proof. vm_compute. discriminate. Qed.

End mipmapLevelForDownscaleSpec.

(** ** The pixel patch store: reads, removal and replay *)

Module patchStore.
Import rectToPixels rectToPixelsFacts rectToPixelsInvariant rectToPixelsLookup.

Lemma valid_key_or_out rtp pt :
  last_valid rtp -> image.In pt (last rtp) = true -> last rtp ∈ keys rtp.
Proof. intros Hv. exact (last_valid_fresh rtp pt Hv). Qed.

Lemma patch_Some_m rtp r pix :
  patch rtp r = Some pix -> exists mp, m rtp = Some mp /\ mp !! r = Some pix.
Proof.
  unfold patch. destruct (m rtp) as [mp|]; cbn [default from_option id].
  - intros H. by exists mp.
  - rewrite lookup_empty. discriminate.
Qed.

Lemma index_Ok_inv pix idx (s : t) b s' :
  index pix idx s = (Ok b, s') ->
  0 <= idx < Z.of_nat (length pix) /\ b = nth (Z.to_nat idx) pix x00.
Proof.
  unfold index, ret, throw. case_bool_decide as Hidx; [|discriminate].
  intros [= <- _]. by split.
Qed.

Lemma add_small idx k len :
  0 <= k <= 3 -> GoInt.inRange idx ->
  0 <= GoInt.add idx k < len -> 0 <= idx -> GoInt.add idx k = idx + k.
Proof.
  intros Hk Hidx Hadd Hpos. unfold GoInt.add in *.
  unfold GoInt.inRange, GoInt.minInt, GoInt.maxInt in Hidx.
  destruct (decide (idx + k <= 2 ^ 63 - 1)) as [Hle|Hgt].
  - apply GoIntFacts.wrap_id. unfold GoInt.inRange, GoInt.minInt, GoInt.maxInt. lia.
  - exfalso. unfold GoInt.wrap in Hadd.
    replace (idx + k + 2 ^ 63) with ((idx + k - 2 ^ 63) + 1 * 2 ^ 64) in Hadd by lia.
    rewrite Z.mod_add in Hadd by lia.
    rewrite Z.mod_small in Hadd by lia. lia.
Qed.


Lemma at_read_Ok_inv r i j rtp p0 p1 p2 p3 found rtp' :
  at_read r i j rtp = (Ok (p0, p1, p2, p3, found), rtp') ->
  let pix := default [] (default ∅ (m rtp) !! r) in
  let idx :=
    GoInt.mul 4
      (GoInt.add
         (GoInt.mul (GoInt.sub j (image.Y (image.Min r))) (image.Dx r))
         (GoInt.sub i (image.X (image.Min r)))) in
  0 <= idx /\ idx + 3 < Z.of_nat (length pix)
  /\ p0 = nth (Z.to_nat idx) pix x00
  /\ p1 = nth (Z.to_nat (idx + 1)) pix x00
  /\ p2 = nth (Z.to_nat (idx + 2)) pix x00
  /\ p3 = nth (Z.to_nat (idx + 3)) pix x00.
Proof.
  unfold at_read, bind, get. cbv zeta.
  generalize (default [] (default ∅ (m rtp) !! r)). intros pix.
  assert (Hidx : GoInt.inRange (GoInt.mul 4
      (GoInt.add
         (GoInt.mul (GoInt.sub j (image.Y (image.Min r))) (image.Dx r))
         (GoInt.sub i (image.X (image.Min r)))))) by apply GoIntFacts.wrap_inRange.
  revert Hidx.
  generalize (GoInt.mul 4
      (GoInt.add
         (GoInt.mul (GoInt.sub j (image.Y (image.Min r))) (image.Dx r))
         (GoInt.sub i (image.X (image.Min r))))). intros idx Hidx Hrun.
  destruct (index pix idx rtp) as [[b0|?|] s0] eqn:H0; try discriminate.
  destruct (index pix (GoInt.add idx 1) s0) as [[b1|?|] s1] eqn:H1; try discriminate.
  destruct (index pix (GoInt.add idx 2) s1) as [[b2|?|] s2] eqn:H2; try discriminate.
  destruct (index pix (GoInt.add idx 3) s2) as [[b3|?|] s3] eqn:H3; try discriminate.
  unfold ret in Hrun. injection Hrun as -> -> -> -> _ _.
  apply index_Ok_inv in H0 as [Hi0 ->], H1 as [Hi1 ->], H2 as [Hi2 ->], H3 as [Hi3 ->].
  pose proof (add_small idx 1 _ ltac:(lia) Hidx Hi1 ltac:(lia)) as E1.
  pose proof (add_small idx 2 _ ltac:(lia) Hidx Hi2 ltac:(lia)) as E2.
  pose proof (add_small idx 3 _ ltac:(lia) Hidx Hi3 ltac:(lia)) as E3.
  rewrite E1, E2, E3. rewrite E3 in Hi3.
  split_and!; [lia | lia | reflexivity..].
Qed.

(** The store the examples run on: the zero value with the four bytes
    1, 2, 3, 4 written to the pixel at (0, 0). *)
Lemma one_pixel_order :
  let rtp := (addOrReplace [] ["001"; "002"; "003"; "004"]%byte 0 0 1 1 zero).2 in
  range_order rtp [image.Rect 0 0 1 1] /\ last_valid rtp /\ no_overlap rtp.
Proof.
  intros rtp. split; [|split].
  - unfold range_order. vm_compute. reflexivity.
  - by left.
  - apply (no_overlap_addOrReplace [] ["001"; "002"; "003"; "004"]%byte 0 0 1 1 zero);
      [unfold range_order; reflexivity | vm_compute; reflexivity | apply no_overlap_zero].
Qed.

(** X1.  On a store whose [last] is the zero rectangle or a stored rectangle,
    [at] at a point that lies in no stored rectangle returns four zero bytes
    and found = false, and leaves the store as it was. *)
Theorem at_outside_not_found order i j rtp :
  range_order rtp order -> last_valid rtp ->
  (forall r, r ∈ keys rtp -> image.In (image.Pt i j) r = false) ->
  at_ order i j rtp = (Ok (x00, x00, x00, x00, false), rtp).
Proof.
  intros Hord Hvalid Hout. apply at_not_found; [exact Hord | exact Hout |].
  by apply last_valid_fresh.
Qed.

Lemma at_outside_not_found_witness :
  let rtp := (addOrReplace [] ["001"; "002"; "003"; "004"]%byte 0 0 1 1 zero).2 in
  at_ [image.Rect 0 0 1 1] 5 5 rtp = (Ok (x00, x00, x00, x00, false), rtp).
Proof.
  intros rtp.
  apply (at_outside_not_found [image.Rect 0 0 1 1] 5 5 rtp).
  - unfold range_order. vm_compute. reflexivity.
  - left. vm_compute. reflexivity.
  - intros r Hr. vm_compute in Hr. apply list_elem_of_singleton in Hr as ->.
    vm_compute. reflexivity.
Defined.

(** X2.  When [at] finds the point, the four bytes it returns are bytes of
    the patch of the one stored rectangle that holds the point, at the offset
    the code computes from the corner of that rectangle: [at] never returns
    bytes of another rectangle's patch, and never changes the patches. *)
Theorem at_found_reads_patch order i j rtp p0 p1 p2 p3 rtp' :
  no_overlap rtp -> range_order rtp order -> last_valid rtp ->
  at_ order i j rtp = (Ok (p0, p1, p2, p3, true), rtp') ->
  exists r pix,
    patch rtp r = Some pix
    /\ image.In (image.Pt i j) r = true
    /\ (forall r', r' ∈ keys rtp -> image.In (image.Pt i j) r' = true -> r' = r)
    /\ (forall r', patch rtp' r' = patch rtp r')
    /\ let idx :=
         GoInt.mul 4
           (GoInt.add
              (GoInt.mul (GoInt.sub j (image.Y (image.Min r))) (image.Dx r))
              (GoInt.sub i (image.X (image.Min r)))) in
       0 <= idx /\ idx + 3 < Z.of_nat (length pix)
       /\ p0 = nth (Z.to_nat idx) pix x00
       /\ p1 = nth (Z.to_nat (idx + 1)) pix x00
       /\ p2 = nth (Z.to_nat (idx + 2)) pix x00
       /\ p3 = nth (Z.to_nat (idx + 3)) pix x00.
Proof.
  intros Hno Hord Hvalid Hrun.
  pose proof (m_at _ _ _ _ _ _ Hrun) as Hm.
  unfold at_, bind, get in Hrun.
  destruct (m rtp) as [mp|] eqn:Hmp; [|discriminate].
  destruct (at_find order (image.Pt i j) rtp) as [[[r|]|?|] rtp1] eqn:Hfind;
    try discriminate.
  assert (Hkey : r ∈ keys rtp /\ image.In (image.Pt i j) r = true).
  { unfold at_find, bind, get, put, ret in Hfind.
    destruct (image.In (image.Pt i j) (last rtp)) eqn:Hlast.
    - injection Hfind as <- _. split; [|exact Hlast].
      by apply (valid_key_or_out rtp (image.Pt i j)).
    - destruct (find (image.In (image.Pt i j)) order) as [rr|] eqn:Hf; [|discriminate].
      injection Hfind as <- _. apply find_some in Hf as [Hin Hpt].
      split; [|exact Hpt].
      apply (range_order_elem rtp order rr Hord). by apply list_elem_of_In. }
  destruct Hkey as [Hkey Hin].
  pose proof (at_find_m _ _ _ _ _ Hfind) as Hm1.
  destruct (proj1 (elem_of_keys rtp r) Hkey) as [pix Hpix].
  exists r, pix. split; [exact Hpix|]. split; [exact Hin|]. split; [|split].
  - intros r' Hr' Hin'. by eapply no_overlap_unique.
  - intros r'. unfold patch. by rewrite Hm, Hmp.
  - apply at_read_Ok_inv in Hrun.
    assert (Hp : default [] (default ∅ (m rtp1) !! r) = pix).
    { rewrite Hm1. unfold patch in Hpix. by rewrite Hpix. }
    rewrite Hp in Hrun. exact Hrun.
Qed.


Lemma at_found_reads_patch_witness :
  let rtp := (addOrReplace [] ["001"; "002"; "003"; "004"]%byte 0 0 1 1 zero).2 in
  exists r pix,
    patch rtp r = Some pix /\ image.In (image.Pt 0 0) r = true.
Proof.
  intros rtp.
  destruct (at_found_reads_patch [image.Rect 0 0 1 1] 0 0 rtp
              "001"%byte "002"%byte "003"%byte "004"%byte
              (at_ [image.Rect 0 0 1 1] 0 0 rtp).2)
    as (r & pix & Hpix & Hin & _).
  - apply one_pixel_order.
  - unfold range_order. vm_compute. reflexivity.
  - left. vm_compute. reflexivity.
  - vm_compute. reflexivity.
  - exists r, pix. split; [exact Hpix | exact Hin].
Defined.

(** X3.  Round trip.  On a store without overlaps whose [last] is the zero
    rectangle or a stored rectangle, an [addOrReplace] that returns, followed
    by [at] at a pixel (i, j) of the rectangle written, returns found = true
    and the four bytes supplied for that pixel, those at the offset
    [4*((j-y)*width + (i-x))] of the patch.  The sides are not negative and
    the coordinates and the byte count fit an [int]. *)
Theorem at_round_trip order pixels x y width height rtp rtp' order' i j :
  no_overlap rtp -> last_valid rtp -> range_order rtp order ->
  addOrReplace order pixels x y width height rtp = (Ok tt, rtp') ->
  range_order rtp' order' ->
  0 <= width -> 0 <= height ->
  GoInt.inRange x -> GoInt.inRange y ->
  GoInt.inRange (x + width) -> GoInt.inRange (y + height) ->
  GoInt.inRange (4 * width * height) ->
  x <= i < x + width -> y <= j < y + height ->
  let k := Z.to_nat (4 * ((j - y) * width + (i - x))) in
  exists rtp'',
    at_ order' i j rtp'
    = (Ok (nth k pixels x00, nth (k + 1) pixels x00, nth (k + 2) pixels x00,
           nth (k + 3) pixels x00, true), rtp'').
Proof.
  intros Hno Hvalid Hord Hrun Hord' Hw Hh Hx Hy Hxw Hyh Harea Hi Hj.
  eapply at_after_addOrReplace; eauto.
  apply last_valid_fresh. by eapply last_valid_addOrReplace.
Qed.

Lemma at_round_trip_witness :
  let pixels := ["001"; "002"; "003"; "004"; "005"; "006"; "007"; "008"]%byte in
  let rtp' := (addOrReplace [] pixels 3 7 2 1 zero).2 in
  exists rtp'',
    at_ [image.Rect 3 7 5 8] 4 7 rtp'
    = (Ok ("005"%byte, "006"%byte, "007"%byte, "008"%byte, true), rtp'').
Proof.
  intros pixels rtp'.
  apply (at_round_trip [] pixels 3 7 2 1 zero rtp' [image.Rect 3 7 5 8] 4 7).
  - apply no_overlap_zero.
  - apply last_valid_zero.
  - unfold range_order. reflexivity.
  - vm_compute. reflexivity.
  - unfold range_order. vm_compute. reflexivity.
  - lia.
  - lia.
  - vm_compute. split; discriminate.
  - vm_compute. split; discriminate.
  - vm_compute. split; discriminate.
  - vm_compute. split; discriminate.
  - vm_compute. split; discriminate.
  - lia.
  - lia.
Defined.

(** X4.  [remove] returns on every store; it deletes the patch of the
    rectangle [Rect(x, y, x+width, y+height)], if one is stored, and keeps
    every other patch.  It does not touch [last], also when [last] is the
    rectangle removed. *)
Theorem remove_deletes_region order x y width height rtp :
  range_order rtp order ->
  exists rtp',
    remove order x y width height rtp = (Ok tt, rtp')
    /\ last rtp' = last rtp
    /\ forall r,
         patch rtp' r =
           if decide (r = image.Rect x y (GoInt.add x width) (GoInt.add y height))
           then None else patch rtp r.
Proof.
  intros Hord. unfold remove, bind, get, put, ret.
  set (newr := image.Rect x y (GoInt.add x width) (GoInt.add y height)).
  destruct (m rtp) as [mp|] eqn:Hmp.
  - destruct (find (fun r => bool_decide (r = newr)) order) as [r0|] eqn:Hfind.
    + apply find_some in Hfind as [_ Heq]. apply bool_decide_eq_true_1 in Heq as ->.
      eexists. split; [reflexivity|]. split; [reflexivity|].
      intros r. unfold patch. cbn [m default from_option id]. rewrite Hmp.
      cbn [default from_option id]. rewrite lookup_delete.
      destruct (decide (newr = r)) as [->|Hne].
      * by rewrite decide_True.
      * rewrite decide_False by congruence. reflexivity.
    + exists rtp. split; [reflexivity|]. split; [reflexivity|].
      intros r. destruct (decide (r = newr)) as [->|Hne]; [|reflexivity].
      destruct (patch rtp newr) as [pix|] eqn:Hp; [|reflexivity]. exfalso.
      assert (Hk : newr ∈ keys rtp) by (apply elem_of_keys; by eexists).
      apply (range_order_elem rtp order newr Hord) in Hk.
      apply list_elem_of_In in Hk.
      pose proof (find_none _ _ Hfind newr Hk) as Hn.
      cbv beta in Hn. by rewrite bool_decide_eq_true_2 in Hn.
  - exists rtp. split; [reflexivity|]. split; [reflexivity|].
    intros r. unfold patch. rewrite Hmp. cbn [default from_option id].
    rewrite lookup_empty. by destruct (decide _).
Qed.

Lemma remove_deletes_region_witness :
  let rtp := (addOrReplace [] ["001"; "002"; "003"; "004"]%byte 0 0 1 1 zero).2 in
  exists rtp',
    remove [image.Rect 0 0 1 1] 0 0 1 1 rtp = (Ok tt, rtp')
    /\ patch rtp' (image.Rect 0 0 1 1) = None.
Proof.
  intros rtp.
  destruct (remove_deletes_region [image.Rect 0 0 1 1] 0 0 1 1 rtp)
    as (rtp' & Hrun & _ & Hpatch).
  - unfold range_order. vm_compute. reflexivity.
  - exists rtp'. split; [exact Hrun|].
    rewrite (Hpatch (image.Rect 0 0 1 1)). vm_compute. reflexivity.
Defined.

(** X5.  [addOrReplace] and [at] keep [last] the zero rectangle or a stored
    rectangle: on a store that is written and read but never removed from,
    [last] always names a stored patch when it holds a point. *)
Theorem last_stays_valid order rtp rtp' :
  range_order rtp order -> last_valid rtp ->
  (exists pixels x y width height,
      addOrReplace order pixels x y width height rtp = (Ok tt, rtp'))
  \/ (exists i j v, at_ order i j rtp = (Ok v, rtp')) ->
  last_valid rtp'.
Proof.
  intros Hord Hvalid [(pixels & x & y & width & height & Hrun) | (i & j & v & Hrun)].
  - by eapply last_valid_addOrReplace.
  - by eapply last_valid_at.
Qed.

Lemma last_stays_valid_witness :
  let rtp := (addOrReplace [] ["001"; "002"; "003"; "004"]%byte 0 0 1 1 zero).2 in
  last_valid (at_ [image.Rect 0 0 1 1] 0 0 rtp).2.
Proof.
  intros rtp.
  apply (last_stays_valid [image.Rect 0 0 1 1] rtp).
  - unfold range_order. vm_compute. reflexivity.
  - left. vm_compute. reflexivity.
  - right. exists 0, 0, ("001"%byte, "002"%byte, "003"%byte, "004"%byte, true).
    vm_compute. reflexivity.
Defined.

(** X6.  An [addOrReplace] that returns has stored the bytes supplied as the
    patch of [Rect(x, y, x+width, y+height)], whether that rectangle was
    stored before or not, and has changed no other patch and not [last]. *)
Theorem addOrReplace_stores_patch order pixels x y width height rtp rtp' :
  range_order rtp order ->
  addOrReplace order pixels x y width height rtp = (Ok tt, rtp') ->
  last rtp' = last rtp
  /\ forall r,
       patch rtp' r =
         if decide (r = image.Rect x y (GoInt.add x width) (GoInt.add y height))
         then Some pixels else patch rtp r.
Proof.
  intros Hord Hrun.
  destruct (decide (Z.of_nat (length pixels) = GoInt.mul (GoInt.mul 4 width) height))
    as [Hlen|Hlen];
    [|unfold addOrReplace in Hrun; rewrite bool_decide_eq_true_2 in Hrun by exact Hlen;
      discriminate].
  rewrite (addOrReplace_checked order pixels x y width height rtp Hlen) in Hrun.
  set (newr := image.Rect x y (GoInt.add x width) (GoInt.add y height)) in *.
  set (rtp0 := mk _ _) in Hrun.
  assert (Hstore : rtp' = (store newr pixels rtp0).2).
  { destruct (addOrReplace_range newr order) as [r|r|] eqn:Hrange.
    - apply addOrReplace_range_same in Hrange as [-> _]. by rewrite Hrun.
    - discriminate.
    - by rewrite Hrun. }
  subst rtp'. split; [reflexivity|].
  intros r. rewrite patch_store.
  assert (Hp0 : patch rtp0 r = patch rtp r).
  { unfold patch, rtp0. cbn [m]. by destruct (m rtp). }
  rewrite Hp0. destruct (decide (newr = r)) as [->|Hne].
  - by rewrite decide_True.
  - by rewrite decide_False by congruence.
Qed.

Lemma addOrReplace_stores_patch_witness :
  let pixels := ["001"; "002"; "003"; "004"]%byte in
  patch (addOrReplace [] pixels 0 0 1 1 zero).2 (image.Rect 0 0 1 1) = Some pixels.
Proof.
  intros pixels.
  destruct (addOrReplace_stores_patch [] pixels 0 0 1 1 zero
              (addOrReplace [] pixels 0 0 1 1 zero).2) as [_ Hpatch].
  - unfold range_order. reflexivity.
  - vm_compute. reflexivity.
  - rewrite (Hpatch (image.Rect 0 0 1 1)). vm_compute. reflexivity.
Defined.

(** X7.  [apply] makes one [ReplacePixels] call for each stored patch, with
    the bytes of the patch, the corner [Min] of its rectangle and the sides
    [Dx], [Dy]: in whatever order the map is ranged over, the calls are those
    of the entries of the map, each once. *)
Theorem apply_replays_patches order rtp :
  range_order rtp order ->
  apply order rtp ≡ₚ
    (fun rp : image.Rectangle * list byte =>
       mkReplacePixelsCall rp.2 (image.X (image.Min rp.1)) (image.Y (image.Min rp.1))
         (image.Dx rp.1) (image.Dy rp.1))
      <$> map_to_list (default ∅ (m rtp)).
Proof.
  unfold range_order, apply. intros ->.
  set (mp := default ∅ (m rtp)).
  assert (Hkeys : keys rtp ≡ₚ (map_to_list mp).*1).
  { unfold keys, mp. destruct (m rtp) as [mp'|]; cbn [default from_option id].
    - rewrite <- (elements_list_to_set (C := gset image.Rectangle) (map_to_list mp').*1)
        by apply NoDup_fst_map_to_list.
      apply elements_proper. apply dom_alt.
    - by rewrite map_to_list_empty. }
  rewrite Hkeys. rewrite <- list_fmap_compose.
  apply reflexive_eq. apply Forall_fmap_ext, Forall_forall.
  intros [r pix] Hin. apply elem_of_map_to_list in Hin.
  unfold compose, apply_call, patch. cbn [fst snd]. fold mp. by rewrite Hin.
Qed.


Lemma apply_replays_patches_witness :
  let pixels := ["001"; "002"; "003"; "004"]%byte in
  apply [image.Rect 0 0 1 1] (addOrReplace [] pixels 0 0 1 1 zero).2
  ≡ₚ [mkReplacePixelsCall pixels 0 0 1 1].
Proof.
  intros pixels.
  etransitivity.
  - apply (apply_replays_patches [image.Rect 0 0 1 1]
             (addOrReplace [] pixels 0 0 1 1 zero).2).
    unfold range_order. vm_compute. reflexivity.
  - vm_compute. reflexivity.
Defined.

(** X8.  A patch written by [addOrReplace] is replayed by [apply] with the
    arguments it was written with: the call [ReplacePixels(pixels, x, y,
    width, height)] is among the calls of an [apply] that follows, for sides
    that are not negative and coordinates that fit an [int]. *)
Theorem apply_after_addOrReplace order pixels x y width height rtp rtp' order' :
  range_order rtp order ->
  addOrReplace order pixels x y width height rtp = (Ok tt, rtp') ->
  range_order rtp' order' ->
  0 <= width -> 0 <= height ->
  GoInt.inRange x -> GoInt.inRange y ->
  GoInt.inRange width -> GoInt.inRange height ->
  GoInt.inRange (x + width) -> GoInt.inRange (y + height) ->
  mkReplacePixelsCall pixels x y width height ∈ apply order' rtp'.
Proof.
  intros Hord Hrun Hord' Hw Hh Hx Hy Hwr Hhr Hxw Hyh.
  destruct (addOrReplace_Ok _ _ _ _ _ _ _ _ Hord Hrun) as (_ & Hkey & Hpatch).
  assert (Hnewr : image.Rect x y (GoInt.add x width) (GoInt.add y height)
                  = image.mkRectangle (image.Pt x y) (image.Pt (x + width) (y + height))).
  { unfold GoInt.add. rewrite !GoIntFacts.wrap_id by assumption.
    unfold image.Rect. rewrite !bool_decide_eq_false_2 by lia. reflexivity. }
  rewrite Hnewr in Hkey, Hpatch.
  set (newr := image.mkRectangle (image.Pt x y) (image.Pt (x + width) (y + height))) in *.
  assert (Hcall : apply_call rtp' newr = mkReplacePixelsCall pixels x y width height).
  { unfold apply_call. rewrite Hpatch. cbn [default from_option id].
    unfold image.Dx, image.Dy, newr, GoInt.sub.
    cbn [image.X image.Y image.Min image.Max].
    replace (x + width - x) with width by lia.
    replace (y + height - y) with height by lia.
    by rewrite !GoIntFacts.wrap_id. }
  rewrite <- Hcall. unfold apply. apply list_elem_of_fmap_2.
  by apply (range_order_elem rtp' order').
Qed.

Lemma apply_after_addOrReplace_witness :
  let pixels := ["001"; "002"; "003"; "004"; "005"; "006"; "007"; "008"]%byte in
  mkReplacePixelsCall pixels 3 7 2 1
  ∈ apply [image.Rect 3 7 5 8] (addOrReplace [] pixels 3 7 2 1 zero).2.
Proof.
  intros pixels.
  apply (apply_after_addOrReplace [] pixels 3 7 2 1 zero
           (addOrReplace [] pixels 3 7 2 1 zero).2 [image.Rect 3 7 5 8]).
  - unfold range_order. reflexivity.
  - vm_compute. reflexivity.
  - unfold range_order. vm_compute. reflexivity.
  - lia.
  - lia.
  - vm_compute. split; discriminate.
  - vm_compute. split; discriminate.
  - vm_compute. split; discriminate.
  - vm_compute. split; discriminate.
  - vm_compute. split; discriminate.
  - vm_compute. split; discriminate.
Defined.

End patchStore.

(** ** The sizes of the levels, in closed form *)

Module levelSizes.

Lemma wrap_small z : 0 <= z <= GoInt.maxInt -> GoInt.wrap z = z.
Proof.
  intros Hz. apply GoIntFacts.wrap_id.
  unfold GoInt.inRange, GoInt.minInt, GoInt.maxInt in *. lia.
Qed.

Lemma quot_small w s : 0 <= w <= GoInt.maxInt -> 0 < s -> GoInt.quot w s = w / s.
Proof.
  intros Hw Hs. unfold GoInt.quot. rewrite Z.quot_div_nonneg by lia.
  apply wrap_small. split; [apply Z.div_pos; lia|].
  transitivity w; [|lia]. apply Z.div_le_upper_bound; nia.
Qed.

Lemma div_pow2_succ w n : 0 <= n -> w / 2 / 2 ^ n = w / 2 ^ (n + 1).
Proof.
  intros Hn. rewrite Z.div_div by lia. f_equal. rewrite Z.pow_add_r by lia. lia.
Qed.

Lemma div_pow2_zero w n : 0 <= w -> 0 <= n -> w / 2 = 0 -> w / 2 ^ (n + 1) = 0.
Proof.
  intros Hw Hn H0. rewrite <- div_pow2_succ by lia. rewrite H0. apply Z.div_0_l.
  lia.
Qed.

Lemma sizeForLevel_halve_closed n :
  forall w h, 0 <= w <= GoInt.maxInt -> 0 <= h <= GoInt.maxInt ->
    sizeForLevel_halve (S n) w h =
      if bool_decide (w / 2 ^ Z.of_nat (S n) = 0) || bool_decide (h / 2 ^ Z.of_nat (S n) = 0)
      then (0, 0)
      else (w / 2 ^ Z.of_nat (S n), h / 2 ^ Z.of_nat (S n)).
Proof.
  induction n as [|n IH]; intros w h Hw Hh.
  - cbn [sizeForLevel_halve]. rewrite !quot_small by lia.
    change (2 ^ Z.of_nat 1) with 2. reflexivity.
  - change (sizeForLevel_halve (S (S n)) w h) with
      (if bool_decide (GoInt.quot w 2 = 0) || bool_decide (GoInt.quot h 2 = 0)
       then (0, 0)
       else sizeForLevel_halve (S n) (GoInt.quot w 2) (GoInt.quot h 2)).
    rewrite !quot_small by lia.
    replace (Z.of_nat (S (S n))) with (Z.of_nat (S n) + 1) by lia.
    assert (Hw2 : 0 <= w / 2 <= GoInt.maxInt).
    { split; [apply Z.div_pos; lia|]. transitivity w; [|lia].
      apply Z.div_le_upper_bound; lia. }
    assert (Hh2 : 0 <= h / 2 <= GoInt.maxInt).
    { split; [apply Z.div_pos; lia|]. transitivity h; [|lia].
      apply Z.div_le_upper_bound; lia. }
    destruct (bool_decide (w / 2 = 0)) eqn:Ew; [|destruct (bool_decide (h / 2 = 0)) eqn:Eh].
    + apply bool_decide_eq_true_1 in Ew. cbn [orb].
      rewrite (div_pow2_zero w (Z.of_nat (S n))) by lia.
      by rewrite bool_decide_eq_true_2.
    + apply bool_decide_eq_true_1 in Eh. cbn [orb].
      rewrite (div_pow2_zero h (Z.of_nat (S n))) by lia.
      rewrite (bool_decide_eq_true_2 (0 = 0)) by done. by rewrite orb_true_r.
    + cbn [orb]. rewrite IH by assumption.
      rewrite !div_pow2_succ by lia. reflexivity.
Qed.

Lemma wrap_double a : GoInt.wrap (GoInt.wrap a * 2) = GoInt.wrap (a * 2).
Proof.
  unfold GoInt.wrap. f_equal.
  replace (((a + 2 ^ 63) `mod` 2 ^ 64 - 2 ^ 63) * 2 + 2 ^ 63)
    with (((a + 2 ^ 63) `mod` 2 ^ 64) * 2 + (- 1) * 2 ^ 63) by lia.
  replace (a * 2 + 2 ^ 63) with ((a + 2 ^ 63) * 2 + (- 1) * 2 ^ 63) by lia.
  rewrite <- (Zplus_mod_idemp_l ((a + 2 ^ 63) `mod` 2 ^ 64 * 2)).
  rewrite <- (Zplus_mod_idemp_l ((a + 2 ^ 63) * 2)).
  f_equal. f_equal. rewrite Z.mul_mod_idemp_l by lia. reflexivity.
Qed.

Lemma sizeForLevel_double_closed n :
  forall w h,
    sizeForLevel_double (S n) w h
    = (GoInt.wrap (w * 2 ^ Z.of_nat (S n)), GoInt.wrap (h * 2 ^ Z.of_nat (S n))).
Proof.
  induction n as [|n IH]; intros w h.
  - cbn [sizeForLevel_double]. unfold GoInt.mul. reflexivity.
  - change (sizeForLevel_double (S (S n)) w h) with
      (sizeForLevel_double (S n) (GoInt.mul w 2) (GoInt.mul h 2)).
    rewrite IH. unfold GoInt.mul.
    replace (Z.of_nat (S (S n))) with (1 + Z.of_nat (S n)) by lia.
    rewrite (Z.pow_add_r 2 1) by lia. change (2 ^ 1) with 2.
    assert (H : forall a, GoInt.wrap (GoInt.wrap (a * 2) * 2 ^ Z.of_nat (S n))
                          = GoInt.wrap (a * (2 * 2 ^ Z.of_nat (S n)))).
    { intros a. clear IH. induction n as [|n IHn].
      - change (2 ^ Z.of_nat 1) with 2. rewrite wrap_double. f_equal. lia.
      - replace (Z.of_nat (S (S n))) with (Z.of_nat (S n) + 1) by lia.
        rewrite (Z.pow_add_r 2 _ 1) by lia. change (2 ^ 1) with 2.
        rewrite !Z.mul_assoc. rewrite <- wrap_double. rewrite IHn.
        rewrite wrap_double. f_equal. lia. }
    by rewrite !H.
Qed.

Lemma sizeForLevel_div w h level :
  0 <= w <= GoInt.maxInt -> 0 <= h <= GoInt.maxInt -> 0 < level ->
  sizeForLevel w h level =
    if bool_decide (w / 2 ^ level = 0) || bool_decide (h / 2 ^ level = 0) then (0, 0)
    else (w / 2 ^ level, h / 2 ^ level).
Proof.
  intros Hw Hh Hlevel. unfold sizeForLevel.
  rewrite bool_decide_eq_true_2 by lia.
  destruct (Z.to_nat level) as [|n] eqn:Hn; [lia|].
  rewrite sizeForLevel_halve_closed by assumption.
  rewrite <- Hn. rewrite Z2Nat.id by lia. reflexivity.
Qed.

(** X9.  For sides that are not negative and a positive level,
    [sizeForLevel] is the floor of each side divided by [2^level], and
    (0, 0) if one of the two quotients is 0. *)
Theorem sizeForLevel_positive_closed w h level :
  0 <= w <= GoInt.maxInt -> 0 <= h <= GoInt.maxInt -> 0 < level ->
  sizeForLevel w h level =
    if bool_decide (w / 2 ^ level = 0) || bool_decide (h / 2 ^ level = 0) then (0, 0)
    else (w / 2 ^ level, h / 2 ^ level).
Proof. apply sizeForLevel_div. Qed.

Lemma sizeForLevel_positive_closed_witness :
  sizeForLevel 100 50 3 = (12, 6).
Proof.
  rewrite (sizeForLevel_positive_closed 100 50 3);
    [vm_compute; reflexivity | vm_compute; split; discriminate
    | vm_compute; split; discriminate | lia].
Defined.

(** X10.  For the level [-n], [n] not negative, [sizeForLevel] is each side
    multiplied by [2^n] on Go's [int]: the product, wrapped to 64 bits; it is
    the product itself whenever that fits an [int]. *)
Theorem sizeForLevel_negative_closed w h n :
  GoInt.inRange w -> GoInt.inRange h -> 0 <= n <= GoInt.maxInt ->
  sizeForLevel w h (- n) = (GoInt.wrap (w * 2 ^ n), GoInt.wrap (h * 2 ^ n))
  /\ (GoInt.inRange (w * 2 ^ n) -> GoInt.inRange (h * 2 ^ n) ->
      sizeForLevel w h (- n) = (w * 2 ^ n, h * 2 ^ n)).
Proof.
  intros Hw Hh Hn.
  assert (Hgo : sizeForLevel w h (- n)
                = (GoInt.wrap (w * 2 ^ n), GoInt.wrap (h * 2 ^ n))).
  { unfold sizeForLevel. rewrite bool_decide_eq_false_2 by lia.
    unfold GoInt.neg. rewrite Z.opp_involutive. rewrite wrap_small by lia.
    destruct (Z.to_nat n) as [|k] eqn:Hk.
    - assert (n = 0) as -> by lia. cbn [sizeForLevel_double].
      rewrite !Z.mul_1_r. by rewrite !GoIntFacts.wrap_id.
    - rewrite sizeForLevel_double_closed. rewrite <- Hk. rewrite Z2Nat.id by lia.
      reflexivity. }
  split; [exact Hgo|]. intros Hwn Hhn. rewrite Hgo.
  by rewrite !GoIntFacts.wrap_id.
Qed.

Lemma sizeForLevel_negative_closed_witness :
  sizeForLevel 100 50 (- 3) = (800, 400).
Proof.
  apply (proj2 (sizeForLevel_negative_closed 100 50 3
                  ltac:(vm_compute; split; discriminate)
                  ltac:(vm_compute; split; discriminate)
                  ltac:(vm_compute; split; discriminate)));
    vm_compute; split; discriminate.
Defined.

End levelSizes.
Module pow2Spec.

Lemma pow2_normal_all :
  Forall (fun p => pow2 p = S754_finite false 8388608 (p - 23)) (seqZ (-126) 189).
Proof. apply (bool_decide_unpack _). vm_compute. exact I. Qed.

Lemma pow2_large p : 64 <= p -> pow2 p = S754_zero false.
Proof.
  intros Hp. unfold pow2, GoInt.shl.
  rewrite bool_decide_eq_true_2 by lia. rewrite bool_decide_eq_false_2 by lia.
  reflexivity.
Qed.

(** X11.  For the powers from -126 to 62, [pow2] is exact: it returns the
    [float32] of mantissa [2^23] and exponent [power - 23], which is
    [2^power].  These are the powers [drawImage] uses, -6 to 6, and all
    others for which [2^power] is a normal [float32] and [1 << power] fits an
    [int].  From the power 64 on, [1 << power] is 0 and so is [pow2]. *)
Theorem pow2_exact power :
  (-126 <= power <= 62 -> pow2 power = S754_finite false 8388608 (power - 23))
  /\ (64 <= power -> pow2 power = S754_zero false).
Proof.
  split; [|apply pow2_large].
  intros Hp. pose proof pow2_normal_all as Hall.
  rewrite Forall_forall in Hall. apply Hall.
  apply elem_of_seqZ. lia.
Qed.

Lemma pow2_exact_witness :
  pow2 (-6) = S754_finite false 8388608 (-29) /\ pow2 64 = S754_zero false.
Proof.
  split.
  - apply (proj1 (pow2_exact (-6))). lia.
  - apply (proj2 (pow2_exact 64)). lia.
Defined.

End pow2Spec.

(** ** The level [drawImage] draws from *)

Module levelChoice.
Import levelSizes.

Lemma shl_one n : 0 <= n <= 62 -> GoInt.shl 1 n = 2 ^ n.
Proof.
  intros Hn. unfold GoInt.shl. rewrite bool_decide_eq_true_2 by lia.
  rewrite Z.mul_1_l. apply wrap_small. unfold GoInt.maxInt. split; [lia|].
  assert (2 ^ n <= 2 ^ 62) by (apply Z.pow_le_mono_r; lia). lia.
Qed.

Lemma shl_one_63 : GoInt.shl 1 63 = GoInt.minInt.
Proof. vm_compute. reflexivity. Qed.

Lemma shl_one_big n : 64 <= n -> GoInt.shl 1 n = 0.
Proof. intros Hn. unfold GoInt.shl. by rewrite bool_decide_eq_false_2 by lia. Qed.

Lemma drawImage_adjust_eq w h level :
  drawImage_adjust w h level =
    let s := GoInt.shl 1 (Z.of_nat level) in
    if bool_decide (s = 0) then Panic PanicDivideByZero
    else if bool_decide (GoInt.quot w s = 0) || bool_decide (GoInt.quot h s = 0) then
      match level with
      | O => Ok (-1)
      | S level' => drawImage_adjust w h level'
      end
    else Ok (Z.of_nat level).
Proof. destruct level; reflexivity. Qed.

Lemma pow2_pos n : 0 <= n -> 0 < 2 ^ n.
Proof. intros Hn. apply Z.pow_pos_nonneg; lia. Qed.

Lemma drawImage_adjust_small w h level :
  0 <= w <= GoInt.maxInt -> 0 <= h <= GoInt.maxInt -> (level <= 62)%nat ->
  exists l,
    drawImage_adjust w h level = Ok l
    /\ -1 <= l <= Z.of_nat level
    /\ (0 <= l -> w / 2 ^ l <> 0 /\ h / 2 ^ l <> 0)
    /\ (forall l', l < l' <= Z.of_nat level -> w / 2 ^ l' = 0 \/ h / 2 ^ l' = 0).
Proof.
  intros Hw Hh. induction level as [|level IH]; intros Hlevel.
  - rewrite drawImage_adjust_eq. cbv zeta.
    rewrite shl_one by lia. change (2 ^ Z.of_nat 0) with 1.
    rewrite (bool_decide_eq_false_2 (1 = 0)) by lia.
    rewrite !quot_small by lia. rewrite !Z.div_1_r.
    destruct (bool_decide (w = 0)) eqn:Ew; [|destruct (bool_decide (h = 0)) eqn:Eh].
    + apply bool_decide_eq_true_1 in Ew. cbn [orb]. exists (-1).
      split_and!; [reflexivity | lia | lia | lia |].
      intros l' Hl'. assert (l' = 0) as -> by lia. left. rewrite Z.div_1_r. exact Ew.
    + apply bool_decide_eq_true_1 in Eh. cbn [orb]. exists (-1).
      split_and!; [reflexivity | lia | lia | lia |].
      intros l' Hl'. assert (l' = 0) as -> by lia. right. rewrite Z.div_1_r. exact Eh.
    + apply bool_decide_eq_false_1 in Ew, Eh. cbn [orb]. exists 0.
      split_and!; [reflexivity | lia | lia | |].
      * intros _. change (2 ^ 0) with 1. rewrite !Z.div_1_r. by split.
      * intros l' Hl'. lia.
  - rewrite drawImage_adjust_eq. cbv zeta.
    rewrite shl_one by lia.
    pose proof (pow2_pos (Z.of_nat (S level)) ltac:(lia)) as Hpos.
    rewrite (bool_decide_eq_false_2 (2 ^ Z.of_nat (S level) = 0)) by lia.
    rewrite !quot_small by lia.
    destruct (bool_decide (w / 2 ^ Z.of_nat (S level) = 0)) eqn:Ew;
      [|destruct (bool_decide (h / 2 ^ Z.of_nat (S level) = 0)) eqn:Eh].
    + apply bool_decide_eq_true_1 in Ew. cbn [orb].
      destruct (IH ltac:(lia)) as (l & Hrun & Hl & Hnz & Hz).
      exists l. split_and!; [exact Hrun | lia | lia | exact Hnz |].
      intros l' Hl'. destruct (decide (l' = Z.of_nat (S level))) as [->|Hne];
        [by left | apply Hz; lia].
    + apply bool_decide_eq_true_1 in Eh. cbn [orb].
      destruct (IH ltac:(lia)) as (l & Hrun & Hl & Hnz & Hz).
      exists l. split_and!; [exact Hrun | lia | lia | exact Hnz |].
      intros l' Hl'. destruct (decide (l' = Z.of_nat (S level))) as [->|Hne];
        [by right | apply Hz; lia].
    + apply bool_decide_eq_false_1 in Ew, Eh. cbn [orb]. exists (Z.of_nat (S level)).
      split_and!; [reflexivity | lia | lia | by intros _ | intros l' Hl'; lia].
Qed.

(** X12.  The adjustment loop of [drawImage], entered with a level up to 63
    on sides that are not negative, ends with the largest level not above
    the one given at which neither side, divided by [2^level], is 0, or with
    -1 if there is none.  At a positive level it ends with, [sizeForLevel]
    gives exactly these two quotients, so the level has an image. *)
Theorem drawImage_adjust_largest w h level :
  0 <= w <= GoInt.maxInt -> 0 <= h <= GoInt.maxInt -> (level <= 63)%nat ->
  exists l,
    drawImage_adjust w h level = Ok l
    /\ -1 <= l <= Z.of_nat level
    /\ (0 <= l -> w / 2 ^ l <> 0 /\ h / 2 ^ l <> 0)
    /\ (forall l', l < l' <= Z.of_nat level -> w / 2 ^ l' = 0 \/ h / 2 ^ l' = 0)
    /\ (0 < l -> sizeForLevel w h l = (w / 2 ^ l, h / 2 ^ l)).
Proof.
  intros Hw Hh Hlevel.
  assert (Hsmall : exists l,
    drawImage_adjust w h level = Ok l
    /\ -1 <= l <= Z.of_nat level
    /\ (0 <= l -> w / 2 ^ l <> 0 /\ h / 2 ^ l <> 0)
    /\ (forall l', l < l' <= Z.of_nat level -> w / 2 ^ l' = 0 \/ h / 2 ^ l' = 0)).
  { destruct (decide (level <= 62)%nat) as [Hle|Hgt];
      [by apply drawImage_adjust_small|].
    assert (level = 63%nat) as -> by lia.
    rewrite drawImage_adjust_eq. cbv zeta.
    change (Z.of_nat 63) with 63. rewrite shl_one_63.
    rewrite (bool_decide_eq_false_2 (GoInt.minInt = 0)) by (vm_compute; discriminate).
    assert (Hq : forall a, 0 <= a <= GoInt.maxInt -> GoInt.quot a GoInt.minInt = 0).
    { intros a Ha. unfold GoInt.quot. unfold GoInt.maxInt in Ha.
      assert (Hz : a `quot` GoInt.minInt = 0).
      { apply Z.quot_small_iff; [vm_compute; discriminate|].
        unfold GoInt.minInt. lia. }
      rewrite Hz. vm_compute. reflexivity. }
    rewrite (Hq w Hw). rewrite (bool_decide_eq_true_2 (0 = 0)) by done. cbn [orb].
    destruct (drawImage_adjust_small w h 62 Hw Hh ltac:(lia))
      as (l & Hrun & Hl & Hnz & Hz).
    exists l. split_and!; [exact Hrun | lia | lia | exact Hnz |].
    intros l' Hl'. destruct (decide (l' = 63)) as [->|Hne]; [|apply Hz; lia].
    left. apply Z.div_small. unfold GoInt.maxInt in Hw. lia. }
  destruct Hsmall as (l & Hrun & Hl & Hnz & Hz).
  exists l. split_and!; try assumption; try lia.
  intros Hpos. destruct (Hnz ltac:(lia)) as [Hwl Hhl].
  rewrite sizeForLevel_div by lia.
  by rewrite !bool_decide_eq_false_2.
Qed.

Lemma drawImage_adjust_largest_witness :
  exists l, drawImage_adjust 100 50 7 = Ok l /\ -1 <= l <= 7.
Proof.
  destruct (drawImage_adjust_largest 100 50 7) as (l & Hrun & Hl & _).
  - vm_compute. split; discriminate.
  - vm_compute. split; discriminate.
  - lia.
  - exists l. split; [exact Hrun | exact Hl].
Defined.

End levelChoice.

(** ** The level [mipmapLevel] chooses *)

Module mipmapLevelProps.
Import monadFacts mipmapFacts floatFacts.

Lemma valid_finite_steps s m e :
  f32.valid (S754_finite s m e) ->
  0 <= downscale_steps (mag (S754_finite s m e)) <= 74.
Proof.
  intros Hvalid. unfold f32.valid in Hvalid. cbn [valid_binary] in Hvalid.
  pose proof (bounded_inv _ _ _ _ Hvalid) as [Hc He].
  unfold f32.prec, f32.emax in Hc, He.
  pose proof (Pos2Z.is_pos (digits2_pos m)) as Hpos.
  cbn [mag]. unfold downscale_steps. Z.to_euclidean_division_equations. lia.
Qed.

Lemma downscale_Ok det :
  f32.valid det ->
  IsNaN (f64.of_float32 det) = false -> f32.eqb det f32.zero = false ->
  mipmapLevelForDownscale det = Ok (downscale_steps (mag det))
  /\ 0 <= downscale_steps (mag det) <= 74.
Proof.
  intros Hvalid Hnan Hzero.
  rewrite (mipmapLevelForDownscale_closed det Hvalid).
  destruct det as [s|s| |s m e].
  - destruct s; discriminate.
  - split; [reflexivity | vm_compute; split; discriminate].
  - discriminate.
  - split; [reflexivity | by apply valid_finite_steps].
Qed.

(** The loop of [mipmapLevel] on a side between 1 and 1023: the side reaches
    [mipmapMaxSize] within 10 doublings, whatever the scales are. *)
Lemma mipmapLevel_loop_side (d : nat) :
  forall fuel sx sy w h level,
    (d <= fuel)%nat ->
    1 <= w < 1024 -> 1024 <= w * 2 ^ Z.of_nat d ->
    - 2 ^ 62 <= level - Z.of_nat d -> level <= 0 ->
    exists l,
      mipmapLevel_loop fuel sx sy w h level = Ok l
      /\ level - Z.of_nat d <= l <= level
      /\ (f32.leb tooBigScale sx || f32.leb tooBigScale sy = true -> l < level).
Proof.
  induction d as [|d IH]; intros fuel sx sy w h level Hfuel Hw Hd Hlevel Hneg.
  - change (2 ^ Z.of_nat 0) with 1 in Hd. lia.
  - destruct fuel as [|fuel]; [lia|].
    cbn [mipmapLevel_loop].
    destruct (f32.leb tooBigScale sx || f32.leb tooBigScale sy) eqn:Hbig.
    + assert (Hw2 : GoInt.mul w 2 = w * 2).
      { unfold GoInt.mul. apply GoIntFacts.wrap_id.
        unfold GoInt.inRange, GoInt.minInt, GoInt.maxInt. lia. }
      assert (Hl : GoInt.sub level 1 = level - 1).
      { unfold GoInt.sub. apply GoIntFacts.wrap_id.
        unfold GoInt.inRange, GoInt.minInt, GoInt.maxInt. lia. }
      rewrite Hw2, Hl. unfold mipmapMaxSize.
      destruct (bool_decide (w * 2 >= 1024) || bool_decide (GoInt.mul h 2 >= 1024))
        eqn:Hbreak.
      * exists (level - 1). split; [reflexivity|]. split; [lia|]. intros _. lia.
      * apply orb_false_elim in Hbreak as [Hbw _].
        apply bool_decide_eq_false_1 in Hbw.
        destruct (IH fuel (f32.div sx f32.two) (f32.div sy f32.two) (w * 2)
                    (GoInt.mul h 2) (level - 1))
          as (l & Hrun & Hl' & _); [lia | lia | | lia | lia |].
        { replace (Z.of_nat (S d)) with (1 + Z.of_nat d) in Hd by lia.
          rewrite Z.pow_add_r in Hd by lia. change (2 ^ 1) with 2 in Hd. lia. }
        exists l. split; [exact Hrun|]. split; [lia|]. intros _. lia.
    + exists level. split; [reflexivity|]. split; [lia | discriminate].
Qed.

(** The same with the sides exchanged. *)
Lemma mipmapLevel_loop_side' (d : nat) :
  forall fuel sx sy w h level,
    (d <= fuel)%nat ->
    1 <= h < 1024 -> 1024 <= h * 2 ^ Z.of_nat d ->
    - 2 ^ 62 <= level - Z.of_nat d -> level <= 0 ->
    exists l,
      mipmapLevel_loop fuel sx sy w h level = Ok l
      /\ level - Z.of_nat d <= l <= level
      /\ (f32.leb tooBigScale sx || f32.leb tooBigScale sy = true -> l < level).
Proof.
  induction d as [|d IH]; intros fuel sx sy w h level Hfuel Hh Hd Hlevel Hneg.
  - change (2 ^ Z.of_nat 0) with 1 in Hd. lia.
  - destruct fuel as [|fuel]; [lia|].
    cbn [mipmapLevel_loop].
    destruct (f32.leb tooBigScale sx || f32.leb tooBigScale sy) eqn:Hbig.
    + assert (Hh2 : GoInt.mul h 2 = h * 2).
      { unfold GoInt.mul. apply GoIntFacts.wrap_id.
        unfold GoInt.inRange, GoInt.minInt, GoInt.maxInt. lia. }
      assert (Hl : GoInt.sub level 1 = level - 1).
      { unfold GoInt.sub. apply GoIntFacts.wrap_id.
        unfold GoInt.inRange, GoInt.minInt, GoInt.maxInt. lia. }
      rewrite Hh2, Hl. unfold mipmapMaxSize.
      destruct (bool_decide (GoInt.mul w 2 >= 1024) || bool_decide (h * 2 >= 1024))
        eqn:Hbreak.
      * exists (level - 1). split; [reflexivity|]. split; [lia|]. intros _. lia.
      * apply orb_false_elim in Hbreak as [_ Hbh].
        apply bool_decide_eq_false_1 in Hbh.
        destruct (IH fuel (f32.div sx f32.two) (f32.div sy f32.two) (GoInt.mul w 2)
                    (h * 2) (level - 1))
          as (l & Hrun & Hl' & _); [lia | lia | | lia | lia |].
        { replace (Z.of_nat (S d)) with (1 + Z.of_nat d) in Hd by lia.
          rewrite Z.pow_add_r in Hd by lia. change (2 ^ 1) with 2 in Hd. lia. }
        exists l. split; [exact Hrun|]. split; [lia|]. intros _. lia.
    + exists level. split; [reflexivity|]. split; [lia | discriminate].
Qed.

Lemma mipmapLevel_loop_Ok sx sy w h :
  w < 1024 -> h < 1024 -> 1 <= w \/ 1 <= h ->
  exists l,
    mipmapLevel_loop mipmapLevel_fuel sx sy w h 0 = Ok l
    /\ -10 <= l <= 0
    /\ (f32.leb tooBigScale sx || f32.leb tooBigScale sy = true -> l < 0).
Proof.
  intros Hw Hh [H1 | H1].
  - destruct (mipmapLevel_loop_side 10 mipmapLevel_fuel sx sy w h 0)
      as (l & Hrun & Hl & Hlt); [unfold mipmapLevel_fuel; lia | lia | | lia | lia |].
    { change (2 ^ Z.of_nat 10) with 1024. lia. }
    exists l. split; [exact Hrun|]. split; [lia | exact Hlt].
  - destruct (mipmapLevel_loop_side' 10 mipmapLevel_fuel sx sy w h 0)
      as (l & Hrun & Hl & Hlt); [unfold mipmapLevel_fuel; lia | lia | | lia | lia |].
    { change (2 ^ Z.of_nat 10) with 1024. lia. }
    exists l. split; [exact Hrun|]. split; [lia | exact Hlt].
Qed.

Section Level.
Context {ext : Externals}.

Lemma mipmapLevel_Ok m geom width height filter (w : World) :
  f32.valid (GeoM_det geom) ->
  IsNaN (f64.of_float32 (GeoM_det geom)) = false ->
  f32.eqb (GeoM_det geom) f32.zero = false ->
  is_Some (mipmaps w !! m) ->
  1 <= width \/ 1 <= height ->
  exists lv,
    mipmapLevel m geom width height filter w = (Ok lv, w)
    /\ -10 <= lv <= 74
    /\ (filter <> FilterLinear -> lv <= 0)
    /\ (filter <> FilterNearest -> 0 <= lv).
Proof.
  intros Hvalid Hnan Hzero [mm Hmm] Hside.
  destruct (downscale_Ok _ Hvalid Hnan Hzero) as [Hdown Hrange].
  unfold mipmapLevel. rewrite Hnan, Hzero.
  destruct (geomScaleSize geom) as [sx sy].
  destruct (f32.leb tooBigScale sx || f32.leb tooBigScale sy) eqn:Hbig.
  - case_bool_decide as Hf.
    + exists 0. split; [reflexivity|]. split; [lia|]. split; intros; lia.
    + unfold mipmapMaxSize.
      destruct (bool_decide (width >= 1024) || bool_decide (height >= 1024)) eqn:Hmax.
      * exists 0. split; [reflexivity|]. split; [lia|]. split; intros; lia.
      * apply orb_false_elim in Hmax as [Hw Hh].
        apply bool_decide_eq_false_1 in Hw, Hh.
        destruct (mipmapLevel_loop_Ok sx sy width height ltac:(lia) ltac:(lia) Hside)
          as (l & Hrun & Hl & _).
        exists l. unfold lift. rewrite Hrun. split; [reflexivity|].
        split; [lia|]. split; [intros; lia|]. intros Hne. by destruct Hf.
  - case_bool_decide as Hf.
    + exists 0. split; [reflexivity|]. split; [lia|]. split; intros; lia.
    + rewrite (bind_Ok _ _ _ _ _ (deref_Some m w mm Hmm)).
      destruct (volatile mm).
      * exists 0. split; [reflexivity|]. split; [lia|]. split; intros; lia.
      * unfold lift. rewrite Hdown. eexists. split; [reflexivity|].
        split; [lia|]. split; [|intros; lia]. intros Hne. by destruct Hf.
Qed.

(** X15.  [mipmapLevel] returns, and does not change the world, for every
    determinant that is a number other than 0, on a pyramid that is allocated
    and for sizes of which one is at least 1.  The level is between -10 and
    74; it is not above 0 unless the filter is linear, and not below 0 unless
    the filter is nearest. *)
Theorem mipmapLevel_returns m geom width height filter (w : World) :
  f32.valid (GeoM_det geom) ->
  IsNaN (f64.of_float32 (GeoM_det geom)) = false ->
  f32.eqb (GeoM_det geom) f32.zero = false ->
  is_Some (mipmaps w !! m) ->
  1 <= width \/ 1 <= height ->
  exists lv,
    mipmapLevel m geom width height filter w = (Ok lv, w)
    /\ -10 <= lv <= 74
    /\ (filter <> FilterLinear -> lv <= 0)
    /\ (filter <> FilterNearest -> 0 <= lv).
Proof. apply mipmapLevel_Ok. Qed.

End Level.

Lemma mipmapLevel_returns_witness :
  exists lv,
    mipmapLevel (ext := sample.externals) 1%nat (sample.scale f32.half) 100 50
      sample.Linear sample.two = (Ok lv, sample.two)
    /\ -10 <= lv <= 74.
Proof.
  destruct (mipmapLevel_returns (ext := sample.externals) 1%nat (sample.scale f32.half)
              100 50 sample.Linear sample.two) as (lv & Hrun & Hlv & _).
  - vm_compute. reflexivity.
  - vm_compute. reflexivity.
  - vm_compute. reflexivity.
  - eexists. vm_compute. reflexivity.
  - left. lia.
  - exists lv. split; [exact Hrun | exact Hlv].
Defined.

End mipmapLevelProps.

(** ** Edges of [drawImage] *)

Module drawImageEdges.
Import monadFacts mipmapFacts floatFacts levelChoice mipmapLevelProps.

Section Edges.
Context {ext : Externals}.

Lemma drawImage_adjust_big w h level :
  (64 <= level)%nat -> drawImage_adjust w h level = Panic PanicDivideByZero.
Proof.
  intros Hlevel. rewrite drawImage_adjust_eq. cbv zeta.
  rewrite shl_one_big by lia. by rewrite bool_decide_eq_true_2.
Qed.

(** X13.  [drawImage] with the linear filter, from a pyramid that is not
    volatile and with a scale below 128, panics with an integer division by
    zero when the determinant is a number other than 0 of magnitude below
    [2^-128]: the level chosen for it is 64 or more, and the adjustment loop
    divides by [1 << uint(level)], which is 0.  The world is left as it
    was. *)
Theorem drawImage_tiny_det_panics m src bounds geom colorm mode (w : World) srcm s mant e :
  mipmaps w !! src = Some srcm -> volatile srcm = false ->
  (let '(sx, sy) := geomScaleSize geom in
   f32.leb tooBigScale sx || f32.leb tooBigScale sy) = false ->
  GeoM_det geom = S754_finite s mant e ->
  f32.valid (GeoM_det geom) ->
  mag (GeoM_det geom) <= -128 ->
  drawImage m src bounds geom colorm mode FilterLinear w
  = (Panic PanicDivideByZero, w).
Proof.
  intros Hsrc Hvol Hscale Hdet Hvalid Hmag.
  assert (Hnan : IsNaN (f64.of_float32 (GeoM_det geom)) = false).
  { rewrite Hdet in Hvalid |- *. unfold f32.valid in Hvalid. cbn [valid_binary] in Hvalid.
    destruct (of_float32_finite s mant e Hvalid) as (m' & e' & -> & _). reflexivity. }
  assert (Hzero : f32.eqb (GeoM_det geom) f32.zero = false)
    by (rewrite Hdet; by destruct s).
  destruct (downscale_Ok _ Hvalid Hnan Hzero) as [Hdown Hrange].
  assert (Hlv : 64 <= downscale_steps (mag (GeoM_det geom)))
    by (unfold downscale_steps; Z.to_euclidean_division_equations; lia).
  set (lv := downscale_steps (mag (GeoM_det geom))) in *.
  assert (Hlevel : mipmapLevel src geom (image.Dx bounds) (image.Dy bounds)
                     FilterLinear w = (Ok lv, w)).
  { unfold mipmapLevel. rewrite Hnan, Hzero.
    destruct (geomScaleSize geom) as [sx sy]. rewrite Hscale.
    rewrite bool_decide_eq_false_2 by (intros Hne; by apply Hne).
    rewrite (bind_Ok _ _ _ _ _ (deref_Some src w srcm Hsrc)).
    rewrite Hvol. unfold lift. by rewrite Hdown. }
  unfold drawImage. rewrite Hzero, Hnan.
  rewrite (bind_Ok _ _ _ _ _ Hlevel).
  rewrite bool_decide_eq_true_2 by lia.
  unfold bind, lift. rewrite drawImage_adjust_big by lia. reflexivity.
Qed.

(** X14.  [drawImage] with the nearest filter and a scale of 128 or more,
    from a volatile pyramid whose bounds are below 1024 on both sides and at
    least 1 on one, panics: the level chosen is negative, and [level] refuses
    a volatile pyramid.  The check [m.volatile] of [mipmapLevel] is made on
    the downscaling path only.  The world is left as it was. *)
Theorem drawImage_volatile_source_panics m src bounds geom colorm mode (w : World) srcm :
  mipmaps w !! src = Some srcm -> volatile srcm = true ->
  IsNaN (f64.of_float32 (GeoM_det geom)) = false ->
  f32.eqb (GeoM_det geom) f32.zero = false ->
  (let '(sx, sy) := geomScaleSize geom in
   f32.leb tooBigScale sx || f32.leb tooBigScale sy) = true ->
  image.Dx bounds < 1024 -> image.Dy bounds < 1024 ->
  1 <= image.Dx bounds \/ 1 <= image.Dy bounds ->
  ColorM_ScaleOnly colorm = false ->
  drawImage m src bounds geom colorm mode FilterNearest w
  = (Panic PanicVolatileMipmap, w).
Proof.
  intros Hsrc Hvol Hnan Hzero Hscale Hdx Hdy Hside Hcol.
  assert (Hlevel : exists lv,
             mipmapLevel src geom (image.Dx bounds) (image.Dy bounds) FilterNearest w
             = (Ok lv, w) /\ -10 <= lv < 0).
  { unfold mipmapLevel. rewrite Hnan, Hzero.
    destruct (geomScaleSize geom) as [sx sy]. rewrite Hscale.
    rewrite bool_decide_eq_false_2 by (intros Hne; by apply Hne).
    unfold mipmapMaxSize. rewrite !bool_decide_eq_false_2 by lia. cbn [orb].
    destruct (mipmapLevel_loop_Ok sx sy _ _ Hdx Hdy Hside) as (l & Hrun & Hl & Hlt).
    exists l. unfold lift. rewrite Hrun. split; [reflexivity|].
    specialize (Hlt Hscale). lia. }
  destruct Hlevel as (lv & Hlevel & Hlv).
  unfold drawImage. rewrite Hzero, Hnan.
  rewrite (bind_Ok _ _ _ _ _ Hlevel).
  rewrite (bool_decide_eq_false_2 (lv > 0)) by lia.
  unfold bind at 1. unfold ret at 1. cbn [andb].
  rewrite (bool_decide_eq_false_2 (lv > 6)) by lia.
  rewrite Hcol. unfold bind at 1. unfold ret at 1.
  destruct (GeoM_elements geom) as [[[[[a b] c] d] tx] ty].
  set (lv' := if bool_decide (lv < -6) then -6 else lv).
  assert (Hlv' : -6 <= lv' < 0) by (subst lv'; case_bool_decide; lia).
  rewrite (bool_decide_eq_false_2 (lv' = 0)) by lia.
  assert (Hpanic : level src bounds lv' w = (Panic PanicVolatileMipmap, w)).
  { rewrite level_eq by lia. rewrite level_rec_body. unfold level_body.
    rewrite bool_decide_eq_false_2 by (destruct (bool_decide (lv' < 0)); lia).
    rewrite (bind_Ok _ _ _ _ _ (deref_Some src w srcm Hsrc)).
    by rewrite Hvol. }
  unfold bind. by rewrite Hpanic.
Qed.

End Edges.

Lemma drawImage_tiny_det_panics_witness :
  drawImage (ext := sample.externals) 0%nat 1%nat sample.whole (sample.scale sample.tiny)
    None tt sample.Linear sample.two
  = (Panic PanicDivideByZero, sample.two).
Proof.
  apply (drawImage_tiny_det_panics (ext := sample.externals) 0%nat 1%nat sample.whole
           (sample.scale sample.tiny) None tt sample.two
           (mkMipmap 100 50 false (Some 1%nat) ∅) false 512 (-149)).
  - vm_compute. reflexivity.
  - reflexivity.
  - vm_compute. reflexivity.
  - vm_compute. reflexivity.
  - vm_compute. reflexivity.
  - vm_compute. discriminate.
Defined.

Lemma drawImage_volatile_source_panics_witness :
  drawImage (ext := sample.externals) 0%nat 1%nat sample.whole
    (sample.scale (f32.of_Z 128)) None tt sample.Nearest sample.volatile_source
  = (Panic PanicVolatileMipmap, sample.volatile_source).
Proof.
  apply (drawImage_volatile_source_panics (ext := sample.externals) 0%nat 1%nat
           sample.whole (sample.scale (f32.of_Z 128)) None tt sample.volatile_source
           (mkMipmap 100 50 true (Some 1%nat) ∅)).
  - vm_compute. reflexivity.
  - reflexivity.
  - vm_compute. reflexivity.
  - vm_compute. reflexivity.
  - vm_compute. reflexivity.
  - vm_compute. reflexivity.
  - vm_compute. reflexivity.
  - left. vm_compute. discriminate.
  - reflexivity.
Defined.

End drawImageEdges.

(** ** The images [level] derives *)

Module levelImages.
Import monadFacts mipmapFacts.

Lemma zero_side_halve s : s.1 = 0 \/ s.2 = 0 -> (halve_step s).1 = 0 \/ (halve_step s).2 = 0.
Proof.
  destruct s as [w h]. cbn [fst snd]. intros [-> | ->]; unfold halve_step.
  - change (GoInt.quot 0 2) with 0. rewrite (bool_decide_eq_true_2 (0 = 0)) by done.
    by left.
  - change (GoInt.quot 0 2) with 0. rewrite (bool_decide_eq_true_2 (0 = 0)) by done.
    rewrite orb_true_r. by left.
Qed.

Lemma zero_side_double s : s.1 = 0 \/ s.2 = 0 -> (double_step s).1 = 0 \/ (double_step s).2 = 0.
Proof.
  destruct s as [w h]. cbn [fst snd double_step]. intros [-> | ->]; [left | right];
    reflexivity.
Qed.

(** A side that is 0 at a level is 0 at the next level away from 0. *)
Lemma zero_side_next neg k w h :
  Z.of_nat (S (S k)) <= GoInt.maxInt ->
  (sizeForLevel w h (level_of neg k)).1 = 0 \/ (sizeForLevel w h (level_of neg k)).2 = 0 ->
  (sizeForLevel w h (level_of neg (S k))).1 = 0
  \/ (sizeForLevel w h (level_of neg (S k))).2 = 0.
Proof.
  intros Hk. unfold sizeForLevel, level_of. destruct neg.
  - rewrite !bool_decide_eq_false_2 by lia. unfold GoInt.neg.
    rewrite !Z.opp_involutive.
    rewrite !GoIntFacts.wrap_id
      by (unfold GoInt.inRange, GoInt.minInt, GoInt.maxInt in *; lia).
    rewrite !Nat2Z.id. rewrite (sizeForLevelSpec.sizeForLevel_double_last (S k)).
    apply zero_side_double.
  - rewrite !bool_decide_eq_true_2 by lia. rewrite !Nat2Z.id.
    rewrite (sizeForLevelSpec.sizeForLevel_halve_last (S k)).
    apply zero_side_halve.
Qed.

Lemma quadVertices_length sx0 sy0 sx1 sy1 a b c d tx ty cr cg cb ca h vs h' :
  quadVertices sx0 sy0 sx1 sy1 a b c d tx ty cr cg cb ca h = (Ok vs, h') ->
  length vs.2 = 48%nat.
Proof.
  unfold quadVertices. cbv zeta. intros Hrun.
  inv_bind Hrun as s h1 Hslice. inv_bind Hrun as u h2 Hcheck.
  injection Hrun as <- _. reflexivity.
Qed.

Section Images.
Context {ext : Externals}.

Lemma on_arena_quad_length sx0 sy0 sx1 sy1 a b c d tx ty cr cg cb ca (w : World) vs w' :
  on_arena (quadVertices sx0 sy0 sx1 sy1 a b c d tx ty cr cg cb ca) w = (Ok vs, w') ->
  length vs.2 = 48%nat.
Proof.
  unfold on_arena.
  destruct (quadVertices _ _ _ _ _ _ _ _ _ _ _ _ _ _ (arena w)) as [o h'] eqn:Hq.
  intros [= -> _]. by eapply quadVertices_length.
Qed.

(** What [level] returns on a pyramid with nothing cached for [r]. *)
Lemma level_rec_result neg k :
  forall m r (w : World) img w',
    Z.of_nat (S k) <= GoInt.maxInt ->
    (forall l, uncached m r l w) ->
    level_rec neg k m r w = (Ok img, w') ->
    let s := sizeForLevel (image.Dx r) (image.Dy r) (level_of neg k) in
    match img with
    | None => s.1 = 0 \/ s.2 = 0
    | Some i =>
        s.1 <> 0 /\ s.2 <> 0
        /\ exists evs src vs vertices,
             trace w' = trace w ++ evs ++
               [NewImage i s.1 s.2 false;
                DrawTriangles (Some i) src vs vertices QuadIndices None
                  CompositeModeCopy (if neg then FilterNearest else FilterLinear)
                  AddressClampToZero]
             /\ length vertices = 48%nat
    end.
Proof.
  induction k as [|k IH]; intros m r w img w' Hk Hun Hrun s.
  all: rewrite level_rec_body in Hrun; unfold level_body in Hrun; cbv zeta in Hrun.
  all: rewrite bool_decide_eq_false_2 in Hrun by (destruct neg; lia).
  all: inv_bind Hrun as mm w0 Hderef; apply deref_inv in Hderef as [-> Hm].
  all: destruct (volatile mm) eqn:Hvol; [discriminate|].
  all: inv_bind Hrun as u w1 Hensure.
  all: assert (Hw1 : trace w1 = trace w
                /\ (forall l, uncached m r l w1)
                /\ exists mm1, mipmaps w1 !! m = Some mm1 /\ volatile mm1 = false
                     /\ forall l, default ∅ (imgs mm1 !! r) !! l = None).
  1,3: destruct (imgs mm !! r) as [a1|] eqn:Hr;
    [ injection Hensure as _ <-; split; [reflexivity|]; split; [exact Hun|];
      exists mm; split; [exact Hm|]; split; [exact Hvol|];
      intros l; rewrite Hr; cbn [default from_option id]; by eapply Hun
    | rewrite assign_eq in Hensure; injection Hensure as _ <-;
      split; [reflexivity|]; split;
      [ intros l mm' a'; cbn [mipmaps]; rewrite lookup_insert_eq; intros [= <-];
        cbn [imgs]; rewrite lookup_insert_eq; intros [= <-]; apply lookup_empty
      | eexists; cbn [mipmaps]; rewrite lookup_insert_eq; split; [reflexivity|];
        split; [reflexivity|]; intros l; cbn [imgs]; rewrite lookup_insert_eq;
        cbn [default from_option id]; apply lookup_empty ] ].
  all: clear Hensure; destruct Hw1 as (Htr1 & Hun1 & mm1 & Hm1 & Hvol1 & Hmiss).
  all: inv_bind Hrun as mm1' w1' Hderef; apply deref_inv in Hderef as [-> Hm1'].
  all: assert (mm1' = mm1) as -> by congruence; clear Hm1'.
  all: rewrite Hmiss in Hrun.
  all: inv_bind Hrun as prepared w2 Hprepare.
  - (* level 1 or -1 *)
    inv_bind Hprepare as vs w3 Hquad.
    pose proof (on_arena_quad_length _ _ _ _ _ _ _ _ _ _ _ _ _ _ _ _ _ Hquad) as Hlen.
    apply on_arena_inv in Hquad as (_ & _ & Htr3).
    injection Hprepare as <- <-.
    change (if neg then - Z.of_nat 1 else Z.of_nat 1) with (level_of neg 0) in Hrun.
    fold s in Hrun. destruct s as [w2' h2'] eqn:Hs. cbn [fst snd].
    destruct (bool_decide (w2' = 0)) eqn:Ew; [|destruct (bool_decide (h2' = 0)) eqn:Eh].
    + cbn [orb] in Hrun. inv_bind Hrun as u' w4 Hset. injection Hrun as <- _.
      left. by apply bool_decide_eq_true_1 in Ew.
    + cbn [orb] in Hrun. inv_bind Hrun as u' w4 Hset. injection Hrun as <- _.
      right. by apply bool_decide_eq_true_1 in Eh.
    + cbn [orb] in Hrun. apply bool_decide_eq_false_1 in Ew, Eh.
      inv_bind Hrun as i w4 Hnew.
      rewrite shareable_NewImage_eq in Hnew. injection Hnew as <- <-.
      inv_bind Hrun as u' w5 Hemit. rewrite emit_eq in Hemit. injection Hemit as _ <-.
      inv_bind Hrun as u'' w6 Hset. injection Hrun as <- <-. destruct u''.
      apply set_level_inv in Hset as (mm2 & _ & ->).
      split; [exact Ew|]. split; [exact Eh|].
      exists [], (orig mm1), vs.1, vs.2. split; [|exact Hlen].
      cbn [trace app]. rewrite Htr3, Htr1, <- app_assoc. rewrite Hvol1. reflexivity.
  - (* level beyond 1 or -1 *)
    inv_bind Hprepare as src w3 Hsrc.
    pose proof (IH m r w1 src w3 ltac:(lia) Hun1 Hsrc) as Hprev. cbv zeta in Hprev.
    destruct (level_rec_extends _ _ _ _ _ _ _ Hsrc) as [evs3 [Htr3 _]].
    destruct src as [src|].
    2:{ inv_bind Hprepare as u' w4 Hset. injection Hprepare as <- _.
        injection Hrun as <- _. subst s.
        apply zero_side_next; [lia | exact Hprev]. }
    destruct (sizeForLevel (image.Dx r) (image.Dy r)
                (if neg then GoInt.add _ 1 else GoInt.sub _ 1)) as [pw ph].
    inv_bind Hprepare as vs w4 Hquad.
    pose proof (on_arena_quad_length _ _ _ _ _ _ _ _ _ _ _ _ _ _ _ _ _ Hquad) as Hlen.
    apply on_arena_inv in Hquad as (Hmaps4 & _ & Htr4).
    injection Hprepare as <- <-.
    change (if neg then - Z.of_nat (S (S k)) else Z.of_nat (S (S k)))
      with (level_of neg (S k)) in Hrun.
    fold s in Hrun. destruct s as [w2' h2'] eqn:Hs. cbn [fst snd].
    destruct (bool_decide (w2' = 0)) eqn:Ew; [|destruct (bool_decide (h2' = 0)) eqn:Eh].
    + cbn [orb] in Hrun. inv_bind Hrun as u' w5 Hset. injection Hrun as <- _.
      left. by apply bool_decide_eq_true_1 in Ew.
    + cbn [orb] in Hrun. inv_bind Hrun as u' w5 Hset. injection Hrun as <- _.
      right. by apply bool_decide_eq_true_1 in Eh.
    + cbn [orb] in Hrun. apply bool_decide_eq_false_1 in Ew, Eh.
      inv_bind Hrun as i w5 Hnew.
      rewrite shareable_NewImage_eq in Hnew. injection Hnew as <- <-.
      inv_bind Hrun as u' w6 Hemit. rewrite emit_eq in Hemit. injection Hemit as _ <-.
      inv_bind Hrun as u'' w7 Hset. injection Hrun as <- <-. destruct u''.
      apply set_level_inv in Hset as (mm2 & _ & ->).
      split; [exact Ew|]. split; [exact Eh|].
      exists evs3, (Some src), vs.1, vs.2. split; [|exact Hlen].
      cbn [trace app]. rewrite Htr4, Htr3, Htr1, <- !app_assoc. rewrite Hvol1.
      reflexivity.
Qed.

(** X16.  On a pyramid whose cache is empty, [level] returns nil exactly
    when [sizeForLevel] gives a side of 0 for the level, and otherwise an
    image of the size [sizeForLevel] gives: the last two calls to the backend
    allocate that image, not volatile, and draw one quad of four vertices
    into it, with composite mode copy, no colour matrix, and the linear
    filter for a positive level, the nearest filter for a negative one. *)
Theorem level_image_has_level_size m r lv (w : World) img w' :
  cache_empty m w ->
  - GoInt.maxInt <= lv <= GoInt.maxInt ->
  level m r lv w = (Ok img, w') ->
  let s := sizeForLevel (image.Dx r) (image.Dy r) lv in
  match img with
  | None => s.1 = 0 \/ s.2 = 0
  | Some i =>
      s.1 <> 0 /\ s.2 <> 0
      /\ exists evs src vs vertices,
           trace w' = trace w ++ evs ++
             [NewImage i s.1 s.2 false;
              DrawTriangles (Some i) src vs vertices QuadIndices None
                CompositeModeCopy
                (if bool_decide (lv < 0) then FilterNearest else FilterLinear)
                AddressClampToZero]
           /\ length vertices = 48%nat
  end.
Proof.
  intros Hempty Hlv Hrun.
  pose proof (level_Ok_nonzero _ _ _ _ _ _ Hrun) as Hnz.
  rewrite level_eq in Hrun by exact Hnz.
  pose proof (level_rec_result (bool_decide (lv < 0)) (Z.to_nat (Z.abs lv - 1))
                m r w img w') as Hres.
  rewrite (level_of_level lv Hnz) in Hres. apply Hres; [lia | | exact Hrun].
  intros l. by apply cache_empty_uncached.
Qed.

End Images.

Lemma level_image_has_level_size_witness :
  let w' := (level (ext := sample.externals) 0%nat sample.whole 2 sample.two).2 in
  (sizeForLevel (image.Dx sample.whole) (image.Dy sample.whole) 2).1 <> 0.
Proof.
  intros w'.
  assert (Hcache : cache_empty (ext := sample.externals) 0%nat sample.two).
  { eexists. split; vm_compute; reflexivity. }
  assert (Hrun : level (ext := sample.externals) 0%nat sample.whole 2 sample.two
                 = (Ok (Some 3%nat), w')) by (vm_compute; reflexivity).
  exact (proj1 (level_image_has_level_size (ext := sample.externals) 0%nat sample.whole 2
                  sample.two (Some 3%nat) w' Hcache
                  ltac:(vm_compute; split; discriminate) Hrun)).
Defined.

End levelImages.

(** ** What [level] leaves alone *)

Module levelFrame.
Import monadFacts mipmapFacts.

Section Frame.
Context {ext : Externals}.

Lemma fresh_event_mono n n' e :
  (n <= n')%nat -> fresh_event n' e -> fresh_event n e.
Proof. intros Hn. destruct e as [| | | |[i|]|]; cbn [fresh_event]; lia. Qed.

Lemma changes_refl m r touched (w : World) mm :
  mipmaps w !! m = Some mm -> level_changes m r touched w w.
Proof.
  intros Hm. split; [done|]. split.
  - by exists mm, mm.
  - split; [|lia]. exists []. by rewrite app_nil_r.
Qed.

Lemma changes_trans m r touched (w w1 w2 : World) :
  level_changes m r touched w w1 -> level_changes m r touched w1 w2 ->
  level_changes m r touched w w2.
Proof.
  intros (Ho1 & (mm & mm1 & Hm & Hm1 & Hw1 & Hh1 & Hv1 & Hor1 & Hr1 & Hl1)
            & (evs1 & Htr1 & Hf1) & Hn1)
         (Ho2 & (mm1' & mm2 & Hm1' & Hm2 & Hw2 & Hh2 & Hv2 & Hor2 & Hr2 & Hl2)
            & (evs2 & Htr2 & Hf2) & Hn2).
  assert (mm1' = mm1) as -> by congruence.
  split; [intros m' Hne; by rewrite Ho2, Ho1|]. split.
  - exists mm, mm2. split_and!; try congruence.
    + intros r' Hne. by rewrite Hr2, Hr1.
    + intros l Hl. by rewrite Hl2, Hl1.
  - split; [|lia]. exists (evs1 ++ evs2). split.
    + by rewrite Htr2, Htr1, app_assoc.
    + apply Forall_app. split; [exact Hf1|].
      eapply Forall_impl; [exact Hf2|]. intros e. by apply fresh_event_mono.
Qed.

Lemma changes_weaken m r (t1 t2 : Z -> Prop) (w w' : World) :
  (forall l, t1 l -> t2 l) -> level_changes m r t1 w w' -> level_changes m r t2 w w'.
Proof.
  intros Ht (Ho & (mm & mm' & Hm & Hm' & Hw & Hh & Hv & Hor & Hr & Hl) & Hev & Hn).
  split; [exact Ho|]. split; [|by split].
  exists mm, mm'. split_and!; try done. intros l Hl'. apply Hl. intros H1. by apply Hl', Ht.
Qed.

(** The same pyramids, trace and images: the arena apart, nothing changed. *)
Lemma changes_same m r touched (w w' : World) mm :
  mipmaps w !! m = Some mm ->
  mipmaps w' = mipmaps w -> trace w' = trace w -> next_image w' = next_image w ->
  level_changes m r touched w w'.
Proof.
  intros Hm Hmaps Htr Hn. split; [intros m' _; by rewrite Hmaps|]. split.
  - exists mm, mm. rewrite Hmaps. by split_and!.
  - split; [|lia]. exists []. by rewrite app_nil_r.
Qed.

Lemma changes_set_level m r level img (touched : Z -> Prop) (w w' : World) :
  touched level ->
  set_level m r level img w = (Ok tt, w') ->
  level_changes m r touched w w'.
Proof.
  intros Ht Hset. apply set_level_inv in Hset as (mm & Hm & ->).
  split; [intros m' Hne; cbn [mipmaps]; by rewrite lookup_insert_ne|]. split.
  - eexists mm, _. cbn [mipmaps]. rewrite lookup_insert_eq.
    split; [exact Hm|]. split; [reflexivity|].
    cbn [width height volatile orig imgs]. split_and!; try reflexivity.
    + intros r' Hne. by rewrite lookup_insert_ne.
    + intros l Hl. rewrite lookup_insert_eq. cbn [default from_option id].
      rewrite lookup_insert_ne; [reflexivity|]. intros ->. by apply Hl.
  - split; [|cbn [next_image]; lia]. exists []. cbn [trace]. by rewrite app_nil_r.
Qed.

Lemma level_rec_changes neg k :
  forall m r (w : World) img w',
    level_rec neg k m r w = (Ok img, w') ->
    level_changes m r (fun l => exists j, (j <= k)%nat /\ l = level_of neg j) w w'.
Proof.
  induction k as [|k IH]; intros m r w img w' Hrun.
  all: rewrite level_rec_body in Hrun; unfold level_body in Hrun; cbv zeta in Hrun.
  all: rewrite bool_decide_eq_false_2 in Hrun by (destruct neg; lia).
  all: inv_bind Hrun as mm w0 Hderef; apply deref_inv in Hderef as [-> Hm].
  all: destruct (volatile mm) eqn:Hvol; [discriminate|].
  all: inv_bind Hrun as u w1 Hensure.
  all: match goal with |- level_changes _ _ ?t _ _ => set (touched := t) end.
  all: assert (Hw1 : level_changes m r touched w w1).
  1,3: destruct (imgs mm !! r) as [a1|] eqn:Hr;
    [ injection Hensure as _ <-; by eapply changes_refl
    | rewrite assign_eq in Hensure; injection Hensure as _ <-;
      split; [intros m' Hne; cbn [mipmaps]; by rewrite lookup_insert_ne|]; split;
      [ eexists mm, _; cbn [mipmaps]; rewrite lookup_insert_eq;
        split; [exact Hm|]; split; [reflexivity|];
        cbn [width height volatile orig imgs]; split_and!; try reflexivity;
        [ by symmetry
        | intros r' Hne; by rewrite lookup_insert_ne
        | intros l _; rewrite lookup_insert_eq, Hr; reflexivity ]
      | split; [|cbn [next_image]; lia]; exists []; cbn [trace];
        by rewrite app_nil_r ] ].
  all: clear Hensure.
  all: assert (Hsome1 : exists mm1, mipmaps w1 !! m = Some mm1)
         by (destruct Hw1 as (_ & (? & mm1 & _ & ? & _) & _); by exists mm1).
  all: destruct Hsome1 as [mm1 Hm1].
  all: inv_bind Hrun as mm1' w1' Hderef; apply deref_inv in Hderef as [-> Hm1'].
  all: assert (mm1' = mm1) as -> by congruence; clear Hm1'.
  all: destruct (default ∅ (imgs mm1 !! r) !! _) as [img0|] eqn:Hlevel;
         [injection Hrun as _ <-; exact Hw1|].
  all: inv_bind Hrun as prepared w2 Hprepare.
  all: assert (Hw2 : level_changes m r touched w1 w2).
  - inv_bind Hprepare as vs w3 Hquad.
    apply on_arena_inv in Hquad as (Hmaps & Hnext & Htr).
    injection Hprepare as _ <-. by eapply changes_same.
  - clear Hprepare.
    pose proof (changes_trans _ _ _ _ _ _ Hw1 Hw2) as Hw.
    destruct prepared as [[src vs]|]; [|injection Hrun as _ <-; exact Hw].
    destruct (sizeForLevel _ _ _) as [w2' h2'].
    assert (Ht : touched (level_of neg 0)) by (exists O; split; [lia | reflexivity]).
    destruct (bool_decide (w2' = 0) || bool_decide (h2' = 0)).
    + inv_bind Hrun as u' w3 Hset. injection Hrun as _ <-. destruct u'.
      eapply changes_trans; [exact Hw|]. by eapply changes_set_level.
    + inv_bind Hrun as s w3 Hnew.
      rewrite shareable_NewImage_eq in Hnew. injection Hnew as <- <-.
      inv_bind Hrun as u' w4 Hemit. rewrite emit_eq in Hemit. injection Hemit as _ <-.
      inv_bind Hrun as u'' w5 Hset. injection Hrun as _ <-. destruct u''.
      eapply changes_trans; [exact Hw|].
      eapply changes_trans; [|by eapply changes_set_level].
      assert (Hsome2 : exists mm2, mipmaps w2 !! m = Some mm2)
        by (destruct Hw2 as (_ & (? & mm2 & _ & ? & _) & _); by exists mm2).
      destruct Hsome2 as [mm2 Hm2].
      split; [done|]. split; [by exists mm2, mm2|]. cbn [trace next_image].
      split; [|lia]. eexists [_; _]. split; [by rewrite <- app_assoc|].
      repeat constructor; cbn [fresh_event]; lia.
  - inv_bind Hprepare as src w3 Hsrc.
    pose proof (IH m r w1 src w3 Hsrc) as Hprev.
    apply (changes_weaken _ _ _ touched) in Hprev.
    2:{ intros l (j & Hj & ->). exists j. split; [lia | reflexivity]. }
    assert (Hsome3 : exists mm3, mipmaps w3 !! m = Some mm3)
      by (destruct Hprev as (_ & (? & mm3 & _ & ? & _) & _); by exists mm3).
    destruct Hsome3 as [mm3 Hm3].
    destruct src as [src|].
    + destruct (sizeForLevel _ _ _) as [pw ph].
      inv_bind Hprepare as vs w4 Hquad.
      apply on_arena_inv in Hquad as (Hmaps & Hnext & Htr).
      injection Hprepare as _ <-.
      eapply changes_trans; [exact Hprev|]. by eapply changes_same.
    + inv_bind Hprepare as u' w4 Hset. injection Hprepare as _ <-. destruct u'.
      eapply changes_trans; [exact Hprev|].
      eapply changes_set_level; [|exact Hset].
      exists (S k). split; [lia | reflexivity].
  - clear Hprepare.
    pose proof (changes_trans _ _ _ _ _ _ Hw1 Hw2) as Hw.
    destruct prepared as [[src vs]|]; [|injection Hrun as _ <-; exact Hw].
    destruct (sizeForLevel _ _ _) as [w2' h2'].
    assert (Ht : touched (level_of neg (S k)))
      by (exists (S k); split; [lia | reflexivity]).
    destruct (bool_decide (w2' = 0) || bool_decide (h2' = 0)).
    + inv_bind Hrun as u' w3 Hset. injection Hrun as _ <-. destruct u'.
      eapply changes_trans; [exact Hw|]. by eapply changes_set_level.
    + inv_bind Hrun as s w3 Hnew.
      rewrite shareable_NewImage_eq in Hnew. injection Hnew as <- <-.
      inv_bind Hrun as u' w4 Hemit. rewrite emit_eq in Hemit. injection Hemit as _ <-.
      inv_bind Hrun as u'' w5 Hset. injection Hrun as _ <-. destruct u''.
      eapply changes_trans; [exact Hw|].
      eapply changes_trans; [|by eapply changes_set_level].
      assert (Hsome2 : exists mm2, mipmaps w2 !! m = Some mm2)
        by (destruct Hw2 as (_ & (? & mm2 & _ & ? & _) & _); by exists mm2).
      destruct Hsome2 as [mm2 Hm2].
      split; [done|]. split; [by exists mm2, mm2|]. cbn [trace next_image].
      split; [|lia]. eexists [_; _]. split; [by rewrite <- app_assoc|].
      repeat constructor; cbn [fresh_event]; lia.
Qed.

(** X17.  A call [level(r, lv)] that returns has changed nothing of the
    pyramids but the cache of its own pyramid for the rectangle [r], at the
    levels from 1 to [lv] (from -1 to [lv] for a negative level): the other
    pyramids, the sizes, the base image and the cache of every other
    rectangle and level are as they were.  Of the backend it has only asked
    new images and draws into these new images: it never draws into, fills,
    writes or disposes an image that existed before the call. *)
Theorem level_changes_only_its_levels m r lv (w : World) img w' :
  level m r lv w = (Ok img, w') ->
  level_changes m r (fun l => 0 < l <= lv \/ lv <= l < 0) w w'.
Proof.
  intros Hrun. pose proof (level_Ok_nonzero _ _ _ _ _ _ Hrun) as Hnz.
  rewrite level_eq in Hrun by exact Hnz.
  apply level_rec_changes in Hrun.
  eapply changes_weaken; [|exact Hrun].
  intros l (j & Hj & ->). unfold level_of.
  destruct (bool_decide (lv < 0)) eqn:Hneg.
  - apply bool_decide_eq_true_1 in Hneg. right. lia.
  - apply bool_decide_eq_false_1 in Hneg. left. lia.
Qed.

End Frame.

Lemma level_changes_only_its_levels_witness :
  level_changes (ext := sample.externals) 0%nat sample.whole
    (fun l => 0 < l <= 2 \/ 2 <= l < 0) sample.two
    (level (ext := sample.externals) 0%nat sample.whole 2 sample.two).2.
Proof.
  apply (level_changes_only_its_levels (ext := sample.externals) 0%nat sample.whole 2
           sample.two (Some 3%nat)).
  vm_compute. reflexivity.
Defined.

End levelFrame.

(** ** The mutations of a pyramid *)

Module mipmapMutations.
Import monadFacts mipmapFacts.

Section Mutations.
Context {ext : Externals}.

(** A pyramid with its cache dropped. *)
Lemma disposeMipmaps_eq m (w : World) mm :
  mipmaps w !! m = Some mm ->
  exists imgs_,
    disposeMipmaps m w
    = (Ok tt,
       mkWorld (<[m := mkMipmap (width mm) (height mm) (volatile mm) (orig mm) ∅]>
                  (mipmaps w))
         (arena w) (next_image w) (trace w ++ (Dispose <$> imgs_)))
    /\ forall img, img ∈ imgs_ <->
         exists r a l, imgs mm !! r = Some a /\ a !! l = Some img.
Proof.
  intros Hm. unfold disposeMipmaps.
  rewrite (bind_Ok _ _ _ _ _ (deref_Some m w mm Hm)).
  set (l := mjoin _).
  exists l. split.
  - unfold bind at 1. rewrite dispose_each_eq.
    set (w1 := mkWorld _ _ _ _).
    assert (Hm1 : mipmaps w1 !! m = Some mm) by exact Hm.
    rewrite (bind_Ok _ _ _ _ _ (deref_Some m w1 mm Hm1)).
    rewrite assign_eq. reflexivity.
  - intros img. subst l. rewrite list_elem_of_join. split.
    + intros (l' & Himg & Hl'). apply list_elem_of_fmap in Hl' as ([r a] & -> & Hra).
      apply elem_of_map_to_list in Hra. cbn [snd] in Himg.
      apply list_elem_of_fmap in Himg as ([l img'] & -> & Hli).
      apply elem_of_map_to_list in Hli. by exists r, a, l.
    + intros (r & a & l & Hra & Hal). exists ((map_to_list a).*2). split.
      * apply list_elem_of_fmap. exists (l, img). split; [reflexivity|].
        by apply elem_of_map_to_list.
      * apply list_elem_of_fmap. exists (r, a). split; [reflexivity|].
        by apply elem_of_map_to_list.
Qed.






(** [dispose], in full. *)
Lemma dispose_eq m (w : World) mm :
  mipmaps w !! m = Some mm ->
  exists imgs_ w',
    dispose m w = (Ok tt, w')
    /\ trace w' = trace w ++ (Dispose <$> imgs_) ++ [Dispose (orig mm)]
    /\ (forall img, img ∈ imgs_ <->
          exists r a l, imgs mm !! r = Some a /\ a !! l = Some img)
    /\ mipmaps w' = <[m := mkMipmap (width mm) (height mm) (volatile mm) None ∅]>
                      (mipmaps w)
    /\ isDisposed m w' = (Ok true, w')
    /\ size m w' = (Ok (width mm, height mm), w').
Proof.
  intros Hm. destruct (disposeMipmaps_eq m w mm Hm) as (l & Hdisp & Hl).
  set (mm1 := mkMipmap (width mm) (height mm) (volatile mm) (orig mm) ∅) in *.
  set (w1 := mkWorld _ _ _ _) in Hdisp.
  assert (Hm1 : mipmaps w1 !! m = Some mm1) by apply lookup_insert_eq.
  set (w2 := mkWorld (mipmaps w1) (arena w1) (next_image w1)
               (trace w1 ++ [Dispose (orig mm1)])).
  assert (Hm2 : mipmaps w2 !! m = Some mm1) by exact Hm1.
  set (mm3 := mkMipmap (width mm) (height mm) (volatile mm) None ∅).
  set (w3 := mkWorld (<[m := mm3]> (mipmaps w2)) (arena w2) (next_image w2) (trace w2)).
  assert (Hm3 : mipmaps w3 !! m = Some mm3) by apply lookup_insert_eq.
  exists l, w3. split_and!.
  - unfold dispose. rewrite (bind_Ok _ _ _ _ _ Hdisp).
    rewrite (bind_Ok _ _ _ _ _ (deref_Some m w1 mm1 Hm1)).
    unfold bind at 1. rewrite emit_eq. fold w2.
    rewrite (bind_Ok _ _ _ _ _ (deref_Some m w2 mm1 Hm2)).
    rewrite assign_eq. reflexivity.
  - cbn [trace w3 w2 w1]. by rewrite <- app_assoc.
  - exact Hl.
  - cbn [mipmaps w3 w2 w1]. apply insert_insert_eq.
  - unfold isDisposed. rewrite (bind_Ok _ _ _ _ _ (deref_Some m w3 mm3 Hm3)).
    reflexivity.
  - unfold size. rewrite (bind_Ok _ _ _ _ _ (deref_Some m w3 mm3 Hm3)).
    reflexivity.
Qed.


(** X21.  The life of a pyramid.  [newMipmap] returns a pointer that was not
    allocated before, leaving the other pyramids as they were; it has asked
    the backend for one image, of the size and volatility given, which is the
    base image.  The new pyramid has the size given, is not disposed and has
    an empty cache.  [dispose] then disposes that image and nothing else,
    and [isDisposed] returns true. *)
Theorem dispose_after_newMipmap width height vol (w : World) :
  exists m w1 w2,
    newMipmap width height vol w = (Ok m, w1)
    /\ mipmaps w !! m = None
    /\ (forall m', m' <> m -> mipmaps w1 !! m' = mipmaps w !! m')
    /\ trace w1 = trace w ++ [NewImage (next_image w) width height vol]
    /\ size m w1 = (Ok (width, height), w1)
    /\ isDisposed m w1 = (Ok false, w1)
    /\ cache_empty m w1
    /\ dispose m w1 = (Ok tt, w2)
    /\ trace w2 = trace w1 ++ [Dispose (Some (next_image w))]
    /\ isDisposed m w2 = (Ok true, w2).
Proof.
  set (m := fresh (dom (mipmaps w))).
  set (mm := mkMipmap width height vol (Some (next_image w)) ∅).
  set (w1 := mkWorld (<[m := mm]> (mipmaps w)) (arena w) (S (next_image w))
               (trace w ++ [NewImage (next_image w) width height vol])).
  assert (Hm1 : mipmaps w1 !! m = Some mm) by apply lookup_insert_eq.
  destruct (dispose_eq m w1 mm Hm1)
    as (l & w2 & Hdisp & Htr & Hl & _ & Hisd & _).
  assert (Hnil : l = []).
  { destruct l as [|img l]; [reflexivity|]. exfalso.
    destruct (proj1 (Hl img) ltac:(left)) as (r & a & lv & Hr & _).
    cbn [imgs mm] in Hr. by rewrite lookup_empty in Hr. }
  subst l. exists m, w1, w2. split_and!.
  - unfold newMipmap. unfold bind at 1. rewrite shareable_NewImage_eq.
    unfold bind at 1. unfold get at 1. cbn [mipmaps].
    unfold bind. rewrite assign_eq. reflexivity.
  - apply not_elem_of_dom. apply is_fresh.
  - intros m' Hne. cbn [mipmaps w1]. by rewrite lookup_insert_ne.
  - reflexivity.
  - unfold size. rewrite (bind_Ok _ _ _ _ _ (deref_Some m w1 mm Hm1)). reflexivity.
  - unfold isDisposed. rewrite (bind_Ok _ _ _ _ _ (deref_Some m w1 mm Hm1)).
    reflexivity.
  - by exists mm.
  - exact Hdisp.
  - exact Htr.
  - exact Hisd.
Qed.

End Mutations.




End mipmapMutations.

(** ** The largest and the least of a list of floats *)

Module floatOrder.

Lemma SFltb_irrefl a : SFltb a a = false.
Proof.
  unfold SFltb, SFcompare. destruct a as [[]|[]| |[] m e]; try reflexivity.
  - rewrite Z.compare_refl. change (Pos.compare_cont Eq m m) with (Pos.compare m m).
    by rewrite Pos.compare_refl.
  - rewrite Z.compare_refl. change (Pos.compare_cont Eq m m) with (Pos.compare m m).
    by rewrite Pos.compare_refl.
Qed.

Lemma SFltb_trans a b c : SFltb a b = true -> SFltb b c = true -> SFltb a c = true.
Proof.
  unfold SFltb, SFcompare.
  destruct a as [sa|sa| |sa ma ea], b as [sb|sb| |sb mb eb], c as [sc|sc| |sc mc ec];
    try discriminate; try reflexivity;
    try (destruct sa; try discriminate; try reflexivity;
         destruct sb; try discriminate; try reflexivity;
         destruct sc; try discriminate; try reflexivity; fail);
    try (destruct sa, sb; try discriminate; try reflexivity; fail);
    try (destruct sa, sc; try discriminate; try reflexivity; fail);
    try (destruct sb, sc; try discriminate; try reflexivity; fail).
  all: change (Pos.compare_cont Eq ma mb) with (Pos.compare ma mb).
  all: change (Pos.compare_cont Eq mb mc) with (Pos.compare mb mc).
  all: change (Pos.compare_cont Eq ma mc) with (Pos.compare ma mc).
  all: destruct sa, sb, sc; try discriminate; try reflexivity.
  all: destruct (Z.compare_spec ea eb), (Z.compare_spec eb ec), (Z.compare_spec ea ec);
         try discriminate; try reflexivity; try lia.
  all: destruct (Pos.compare_spec ma mb), (Pos.compare_spec mb mc),
         (Pos.compare_spec ma mc); cbn [CompOpp];
         try discriminate; try reflexivity; try lia.
Qed.

Lemma SFltb_nan_r a : SFltb a S754_nan = false.
Proof. by destruct a. Qed.

Lemma max_step_above acc v x :
  f32.ltb acc x = false -> f32.ltb (max_step acc v) x = false.
Proof.
  unfold max_step, f32.ltb. intros Hx. destruct (SFltb acc v) eqn:Hv; [|exact Hx].
  destruct (SFltb v x) eqn:Hvx; [|reflexivity].
  by rewrite (SFltb_trans _ _ _ Hv Hvx) in Hx.
Qed.

Lemma max_step_self acc v : f32.ltb (max_step acc v) v = false.
Proof.
  unfold max_step, f32.ltb. destruct (SFltb acc v) eqn:Hv; [apply SFltb_irrefl | exact Hv].
Qed.

Lemma min_step_below acc v x :
  f32.ltb x acc = false -> f32.ltb x (min_step acc v) = false.
Proof.
  unfold min_step, f32.ltb. intros Hx. destruct (SFltb v acc) eqn:Hv; [|exact Hx].
  destruct (SFltb x v) eqn:Hxv; [|reflexivity].
  by rewrite (SFltb_trans _ _ _ Hxv Hv) in Hx.
Qed.

Lemma min_step_self acc v : f32.ltb v (min_step acc v) = false.
Proof.
  unfold min_step, f32.ltb. destruct (SFltb v acc) eqn:Hv; [apply SFltb_irrefl | exact Hv].
Qed.

Lemma fold_max_above values : forall acc x,
  f32.ltb acc x = false -> f32.ltb (fold_left max_step values acc) x = false.
Proof.
  induction values as [|v values IH]; intros acc x Hx; [exact Hx|].
  cbn [fold_left]. apply IH. by apply max_step_above.
Qed.

Lemma fold_min_below values : forall acc x,
  f32.ltb x acc = false -> f32.ltb x (fold_left min_step values acc) = false.
Proof.
  induction values as [|v values IH]; intros acc x Hx; [exact Hx|].
  cbn [fold_left]. apply IH. by apply min_step_below.
Qed.

Lemma fold_max_bound values : forall acc v,
  v ∈ values -> f32.ltb (fold_left max_step values acc) v = false.
Proof.
  induction values as [|v0 values IH]; intros acc v Hv; [inversion Hv|].
  cbn [fold_left]. apply elem_of_cons in Hv as [-> | Hv]; [|by apply IH].
  apply fold_max_above, max_step_self.
Qed.

Lemma fold_min_bound values : forall acc v,
  v ∈ values -> f32.ltb v (fold_left min_step values acc) = false.
Proof.
  induction values as [|v0 values IH]; intros acc v Hv; [inversion Hv|].
  cbn [fold_left]. apply elem_of_cons in Hv as [-> | Hv]; [|by apply IH].
  apply fold_min_below, min_step_self.
Qed.

Lemma fold_max_elem values : forall acc,
  fold_left max_step values acc = acc \/ fold_left max_step values acc ∈ values.
Proof.
  induction values as [|v values IH]; intros acc; [by left|].
  cbn [fold_left]. destruct (IH (max_step acc v)) as [-> | Hin].
  - unfold max_step. destruct (f32.ltb acc v); [right; left | by left].
  - right. by right.
Qed.

Lemma fold_min_elem values : forall acc,
  fold_left min_step values acc = acc \/ fold_left min_step values acc ∈ values.
Proof.
  induction values as [|v values IH]; intros acc; [by left|].
  cbn [fold_left]. destruct (IH (min_step acc v)) as [-> | Hin].
  - unfold min_step. destruct (f32.ltb v acc); [right; left | by left].
  - right. by right.
Qed.

Lemma fold_max_not_nan values : forall acc,
  acc <> S754_nan -> fold_left max_step values acc <> S754_nan.
Proof.
  induction values as [|v values IH]; intros acc Hacc; [exact Hacc|].
  cbn [fold_left]. apply IH. unfold max_step, f32.ltb.
  destruct (SFltb acc v) eqn:Hv; [|exact Hacc].
  intros ->. by rewrite SFltb_nan_r in Hv.
Qed.

Lemma fold_min_not_nan values : forall acc,
  acc <> S754_nan -> fold_left min_step values acc <> S754_nan.
Proof.
  induction values as [|v values IH]; intros acc Hacc; [exact Hacc|].
  cbn [fold_left]. apply IH. unfold min_step, f32.ltb.
  destruct (SFltb v acc) eqn:Hv; [|exact Hacc].
  intros ->. discriminate.
Qed.

(** X22.  [maxf32] returns minus infinity or one of its arguments; none of
    its arguments is above the result ([result < v] is false for each), and
    the result is never NaN: an argument that is NaN is passed over.
    [minf32] is the same with plus infinity and below. *)
Theorem maxf32_minf32_bounds values :
  (forall v, v ∈ values -> f32.ltb (maxf32 values) v = false)
  /\ (maxf32 values = f32.inf true \/ maxf32 values ∈ values)
  /\ maxf32 values <> S754_nan
  /\ (forall v, v ∈ values -> f32.ltb v (minf32 values) = false)
  /\ (minf32 values = f32.inf false \/ minf32 values ∈ values)
  /\ minf32 values <> S754_nan.
Proof.
  change (maxf32 values) with (fold_left max_step values (f32.inf true)).
  change (minf32 values) with (fold_left min_step values (f32.inf false)).
  split_and!.
  - intros v Hv. by apply fold_max_bound.
  - apply fold_max_elem.
  - by apply fold_max_not_nan.
  - intros v Hv. by apply fold_min_bound.
  - apply fold_min_elem.
  - by apply fold_min_not_nan.
Qed.

End floatOrder.

(** ** The ids of the touches *)

Module touchIDs.
Import ebitenmobileview.

Lemma maxID_fold order : forall acc,
  let r := fold_left (fun maxID id => if bool_decide (maxID < id) then id else maxID)
             order acc in
  acc <= r /\ (forall id, id ∈ order -> id <= r) /\ (r = acc \/ r ∈ order).
Proof.
  induction order as [|id0 order IH]; intros acc; cbv zeta.
  - cbn [fold_left]. split; [lia|]. split; [intros id Hid; inversion Hid | by left].
  - cbn [fold_left].
    destruct (IH (if bool_decide (acc < id0) then id0 else acc)) as (Hle & Hall & Hin).
    cbv zeta in *. split_and!.
    + case_bool_decide; lia.
    + intros id Hid. apply elem_of_cons in Hid as [-> | Hid]; [|by apply Hall].
      case_bool_decide; lia.
    + destruct Hin as [-> | Hin]; [|right; by right].
      case_bool_decide; [right; left | by left].
Qed.

Lemma maxID_range_spec order :
  0 <= maxID_range order
  /\ (forall id, id ∈ order -> id <= maxID_range order)
  /\ (maxID_range order = 0 \/ maxID_range order ∈ order).
Proof. apply (maxID_fold order 0). Qed.

Lemma range_order_value ptrToID order p id :
  range_order ptrToID order -> ptrToID !! p = Some id -> id ∈ order.
Proof.
  unfold range_order. intros -> Hp. apply list_elem_of_fmap. exists (p, id).
  split; [reflexivity|]. by apply elem_of_map_to_list.
Qed.

Lemma range_order_owner ptrToID order id :
  range_order ptrToID order -> id ∈ order -> exists p, ptrToID !! p = Some id.
Proof.
  unfold range_order. intros -> Hid. apply list_elem_of_fmap in Hid as ([p id'] & -> & Hin).
  exists p. by apply elem_of_map_to_list.
Qed.

(** The id a pointer gets that has none. *)
Lemma new_id order ptrToID :
  range_order ptrToID order ->
  (forall p id, ptrToID !! p = Some id -> id < GoInt.maxInt) ->
  GoInt.add (maxID_range order) 1 = maxID_range order + 1
  /\ 1 <= maxID_range order + 1
  /\ forall p id, ptrToID !! p = Some id -> id < maxID_range order + 1.
Proof.
  intros Hord Hbound. destruct (maxID_range_spec order) as (H0 & Hall & Hin).
  assert (Hmax : maxID_range order < GoInt.maxInt).
  { destruct Hin as [-> | Hin]; [vm_compute; reflexivity|].
    destruct (range_order_owner _ _ _ Hord Hin) as [p Hp]. by eapply Hbound. }
  split_and!.
  - unfold GoInt.add. apply GoIntFacts.wrap_id.
    unfold GoInt.inRange, GoInt.minInt, GoInt.maxInt in *. lia.
  - lia.
  - intros p id Hp. pose proof (Hall id (range_order_value _ _ _ _ Hord Hp)). lia.
Qed.

Lemma ids_distinct_insert ptrToID ptr id :
  ids_distinct ptrToID ->
  (forall p id', ptrToID !! p = Some id' -> id' <> id) ->
  ids_distinct (<[ptr := id]> ptrToID).
Proof.
  intros Hd Hfresh p1 p2 i H1 H2.
  rewrite lookup_insert in H1, H2.
  destruct (decide (ptr = p1)) as [E1|N1], (decide (ptr = p2)) as [E2|N2];
    try injection H1 as <-; try injection H2 as <-.
  - congruence.
  - by destruct (Hfresh _ _ H2).
  - by destruct (Hfresh _ _ H1).
  - by eapply Hd.
Qed.

Lemma ids_distinct_delete ptrToID ptr :
  ids_distinct ptrToID -> ids_distinct (delete ptr ptrToID).
Proof.
  intros Hd p1 p2 i H1 H2.
  apply lookup_delete_Some in H1 as [_ H1], H2 as [_ H2]. by eapply Hd.
Qed.

Lemma getIDFromPtr_cases order ptr ptrToID :
  range_order ptrToID order ->
  (forall p id, ptrToID !! p = Some id -> id < GoInt.maxInt) ->
  exists id,
    getIDFromPtr order ptr ptrToID = (id, <[ptr := id]> ptrToID)
    /\ (forall id0, ptrToID !! ptr = Some id0 ->
          id = id0 /\ <[ptr := id]> ptrToID = ptrToID)
    /\ (ptrToID !! ptr = None ->
          1 <= id /\ forall p id', ptrToID !! p = Some id' -> id' < id)
    /\ (ids_distinct ptrToID -> ids_distinct (<[ptr := id]> ptrToID)).
Proof.
  intros Hord Hbound. unfold getIDFromPtr.
  destruct (ptrToID !! ptr) as [id0|] eqn:Hptr.
  - exists id0. rewrite (insert_id _ _ _ Hptr). split_and!; try done.
    intros id1 [= <-]. done.
  - destruct (new_id order ptrToID Hord Hbound) as (Hadd & H1 & Hlt).
    cbv zeta. rewrite Hadd. eexists. split; [reflexivity|]. split_and!; try done.
    intros Hd. apply ids_distinct_insert; [exact Hd|].
    intros p id' Hp. specialize (Hlt p id' Hp). lia.
Qed.

(** X23.  [getIDFromPtr] returns the id the pointer has, the map left as it
    is, or, for a pointer that has none, an id that is at least 1 and above
    every id in the map, which it records for the pointer.  So the ids of
    different pointers stay different, and asking again for the same pointer
    gives the same id.  The ids in the map are below the largest [int]. *)
Theorem getIDFromPtr_gives_own_id order ptr ptrToID :
  range_order ptrToID order ->
  (forall p id, ptrToID !! p = Some id -> id < GoInt.maxInt) ->
  exists id,
    getIDFromPtr order ptr ptrToID = (id, <[ptr := id]> ptrToID)
    /\ (forall id0, ptrToID !! ptr = Some id0 ->
          id = id0 /\ <[ptr := id]> ptrToID = ptrToID)
    /\ (ptrToID !! ptr = None ->
          1 <= id /\ forall p id', ptrToID !! p = Some id' -> id' < id)
    /\ (ids_distinct ptrToID -> ids_distinct (<[ptr := id]> ptrToID))
    /\ (forall order', getIDFromPtr order' ptr (<[ptr := id]> ptrToID)
                       = (id, <[ptr := id]> ptrToID)).
Proof.
  intros Hord Hbound.
  destruct (getIDFromPtr_cases order ptr ptrToID Hord Hbound)
    as (id & Hrun & Hknown & Hnew & Hd).
  exists id. split_and!; try done.
  intros order'. unfold getIDFromPtr. by rewrite lookup_insert_eq.
Qed.

Lemma getIDFromPtr_gives_own_id_witness :
  exists id,
    getIDFromPtr [1; 2] 7 (<[5 := 1]> (<[6 := 2]> ∅)) = (id, <[7 := id]> (<[5 := 1]> (<[6 := 2]> ∅)))
    /\ (forall p id', (<[5 := 1]> (<[6 := 2]> (∅ : gmap Z Z))) !! p = Some id' -> id' < id).
Proof.
  destruct (getIDFromPtr_gives_own_id [1; 2] 7 (<[5 := 1]> (<[6 := 2]> ∅)))
    as (id & Hrun & _ & Hnew & _).
  - unfold range_order. vm_compute. reflexivity.
  - intros p id' Hp. rewrite lookup_insert in Hp. case_decide.
    + injection Hp as <-. vm_compute. reflexivity.
    + rewrite lookup_insert in Hp. case_decide; [|by rewrite lookup_empty in Hp].
      injection Hp as <-. vm_compute. reflexivity.
  - exists id. split; [exact Hrun|]. apply Hnew. vm_compute. reflexivity.
Defined.

Section Phases.
Context `{UIKit}.

Lemma phase_groups phase :
  (phase = UITouchPhaseEnded \/ phase = UITouchPhaseCancelled) ->
  ~ (phase = UITouchPhaseBegan \/ phase = UITouchPhaseMoved
     \/ phase = UITouchPhaseStationary).
Proof.
  pose proof UITouchPhase_NoDup as Hnd.
  apply NoDup_cons in Hnd as [H1 Hnd]. apply NoDup_cons in Hnd as [H2 Hnd].
  apply NoDup_cons in Hnd as [H3 _].
  intros [-> | ->] [E | [E | E]]; rewrite E in *; set_solver.
Qed.

(** X24.  [updateTouchesOnIOSImpl] keeps every touch owned by a pointer and
    the ids of different pointers different.  For the phases began, moved
    and stationary it records the position under the id of the pointer and
    changes no other touch; for the phases ended and cancelled it forgets
    the pointer and the touch of its id, and changes no other pointer and no
    touch of another pointer; each of these calls [updateTouches] once.  For
    any other phase it panics and changes nothing. *)
Theorem updateTouchesOnIOSImpl_keeps_touches_owned order phase ptr x y s :
  range_order (ptrToID s) order ->
  (forall p id, ptrToID s !! p = Some id -> id < GoInt.maxInt) ->
  touches_owned s ->
  let r := (updateTouchesOnIOSImpl order phase ptr x y s).1 in
  let s' := (updateTouchesOnIOSImpl order phase ptr x y s).2 in
  (r = Done -> touches_owned s' /\ updateTouches_calls s' = S (updateTouches_calls s))
  /\ (phase = UITouchPhaseBegan \/ phase = UITouchPhaseMoved
      \/ phase = UITouchPhaseStationary ->
      r = Done
      /\ exists id,
           ptrToID s' !! ptr = Some id
           /\ touches s' !! id = Some (mkPosition x y)
           /\ (forall id', id' <> id -> touches s' !! id' = touches s !! id')
           /\ (forall p, p <> ptr -> ptrToID s' !! p = ptrToID s !! p))
  /\ (phase = UITouchPhaseEnded \/ phase = UITouchPhaseCancelled ->
      r = Done
      /\ ptrToID s' !! ptr = None
      /\ (forall p, p <> ptr -> ptrToID s' !! p = ptrToID s !! p)
      /\ (forall id, ptrToID s !! ptr = Some id -> touches s' !! id = None)
      /\ (forall p id, p <> ptr -> ptrToID s !! p = Some id ->
            touches s' !! id = touches s !! id))
  /\ (~ (phase = UITouchPhaseBegan \/ phase = UITouchPhaseMoved
         \/ phase = UITouchPhaseStationary) ->
      ~ (phase = UITouchPhaseEnded \/ phase = UITouchPhaseCancelled) ->
      r = PanicInvalidPhase phase /\ s' = s).
Proof.
  intros Hord Hbound [Hd Hown] r s'.
  destruct (getIDFromPtr_cases order ptr (ptrToID s) Hord Hbound)
    as (id & Hrun & Hknown & Hnew & Hdist).
  assert (Hother : forall p id', p <> ptr -> ptrToID s !! p = Some id' -> id' <> id).
  { intros p id' Hne Hp ->. destruct (ptrToID s !! ptr) as [id0|] eqn:Hptr.
    - destruct (Hknown id0 eq_refl) as [-> _]. apply Hne. by eapply Hd.
    - destruct (Hnew eq_refl) as [_ Hlt]. specialize (Hlt p id Hp). lia. }
  subst r s'. unfold updateTouchesOnIOSImpl. rewrite Hrun.
  case_bool_decide as Hbegan; [|case_bool_decide as Hended].
  - cbn [fst snd ptrToID touches updateTouches_calls]. split_and!.
    + intros _. split; [|reflexivity]. split; cbn [ptrToID touches].
      * by apply Hdist.
      * intros id' [pos Hpos]. rewrite lookup_insert in Hpos.
        destruct (decide (id = id')) as [<-|Hne].
        -- exists ptr. apply lookup_insert_eq.
        -- destruct (Hown id' ltac:(by eexists)) as [p Hp]. exists p.
           rewrite lookup_insert_ne; [exact Hp|]. intros <-.
           destruct (Hknown id' Hp) as [-> _]. done.
    + intros _. split; [reflexivity|]. exists id. split_and!.
      * apply lookup_insert_eq.
      * apply lookup_insert_eq.
      * intros id' Hne. by rewrite lookup_insert_ne.
      * intros p Hne. by rewrite lookup_insert_ne.
    + intros Hend. by destruct (phase_groups phase Hend).
    + intros Hnot. by destruct Hnot.
  - cbn [fst snd ptrToID touches updateTouches_calls].
    assert (Hdel : forall p, p <> ptr ->
              delete ptr (<[ptr := id]> (ptrToID s)) !! p = ptrToID s !! p).
    { intros p Hne. rewrite lookup_delete_ne by done. by rewrite lookup_insert_ne. }
    split_and!.
    + intros _. split; [|reflexivity]. split; cbn [ptrToID touches].
      * by apply ids_distinct_delete, Hdist.
      * intros id' [pos Hpos]. apply lookup_delete_Some in Hpos as [Hne Hpos].
        destruct (Hown id' ltac:(by eexists)) as [p Hp]. exists p.
        rewrite Hdel; [exact Hp|]. intros ->.
        destruct (Hknown id' Hp) as [-> _]. done.
    + intros Hb. by destruct Hbegan.
    + intros _. split; [reflexivity|]. split_and!.
      * apply lookup_delete_eq.
      * exact Hdel.
      * intros id0 Hp. destruct (Hknown id0 Hp) as [-> _]. apply lookup_delete_eq.
      * intros p id' Hne Hp. rewrite lookup_delete_ne; [reflexivity|].
        intros ->. by eapply Hother.
    + intros _ Hnot. by destruct Hnot.
  - cbn [fst snd]. split_and!; done.
Qed.

End Phases.

Lemma updateTouchesOnIOSImpl_keeps_touches_owned_witness :
  let s := mkState ∅ ∅ 0 in
  touches_owned (updateTouchesOnIOSImpl [] 0 7 10 20 s).2.
Proof.
  intros s.
  apply (updateTouchesOnIOSImpl_keeps_touches_owned [] 0 7 10 20 s).
  - unfold range_order. vm_compute. reflexivity.
  - intros p id Hp. cbn [ptrToID s] in Hp. by rewrite lookup_empty in Hp.
  - split.
    + intros p1 p2 id Hp. cbn [ptrToID s] in Hp. by rewrite lookup_empty in Hp.
    + intros id [pos Hpos]. cbn [touches s] in Hpos. by rewrite lookup_empty in Hpos.
  - vm_compute. reflexivity.
Defined.

End touchIDs.

(** ** More on the level for a downscale, and on the vertex arena *)

Module downscaleLevel.
Import floatFacts mipmapLevelProps.

(** X25.  For a determinant that is a number other than 0,
    [mipmapLevelForDownscale] returns: the loop ends.  The level is 0 for an
    infinite determinant and otherwise [max(0, floor(-g / 2))], where [g] is
    the magnitude of the determinant, [2^(g-1) <= |det| < 2^g]; it is between
    0 and 74. *)
Theorem mipmapLevelForDownscale_level det :
  f32.valid det ->
  IsNaN (f64.of_float32 det) = false -> f32.eqb det f32.zero = false ->
  mipmapLevelForDownscale det = Ok (Z.max 0 (- mag det / 2))
  /\ 0 <= Z.max 0 (- mag det / 2) <= 74.
Proof. intros Hvalid Hnan Hzero. by apply downscale_Ok. Qed.

Lemma mipmapLevelForDownscale_level_witness :
  mipmapLevelForDownscale (float32_of_ratio 3 1000) = Ok 4.
Proof.
  destruct (mipmapLevelForDownscale_level (float32_of_ratio 3 1000)) as [Hrun _].
  - vm_compute. reflexivity.
  - vm_compute. reflexivity.
  - vm_compute. reflexivity.
  - rewrite Hrun. vm_compute. reflexivity.
Defined.

(** X26.  The loop of [mipmapLevel] does not end when a scale is plus
    infinity and both sides are 0: halving leaves the scale infinite and
    doubling leaves the sides 0, so neither exit is reached, whatever the
    number of rounds allowed. *)
Theorem mipmapLevel_loop_never_ends fuel sy level :
  mipmapLevel_loop fuel (f32.inf false) sy 0 0 level = Diverge.
Proof.
  revert sy level. induction fuel as [|fuel IH]; intros sy level.
  - reflexivity.
  - cbn [mipmapLevel_loop].
    change (f32.leb tooBigScale (f32.inf false)) with true. cbn [orb].
    change (f32.div (f32.inf false) f32.two) with (f32.inf false).
    change (GoInt.mul 0 2) with 0.
    rewrite !bool_decide_eq_false_2 by (unfold mipmapMaxSize; lia).
    cbn [orb]. apply IH.
Qed.

End downscaleLevel.

Module vertexArena.
Import monadFacts verticesBackend.

(** X27.  [slice] with a negative count panics, for a count down to
    [-2^58] on a well-formed arena: the slice expression [v.backend[v.head :
    v.head+need]] has its upper bound below its lower bound.  The cursor is
    left where it was. *)
Theorem slice_negative_panics n h :
  wf h -> - 2 ^ 58 <= n < 0 ->
  exists low high cap h',
    slice n h = (Panic (PanicSliceBounds low high cap), h')
    /\ high < low
    /\ head (v h') = head (v h).
Proof.
  intros Hwf Hn. unfold slice.
  assert (Hneed : GoInt.mul n VertexFloatNum = n * 12).
  { unfold GoInt.mul, VertexFloatNum. apply GoIntFacts.wrap_id.
    unfold GoInt.inRange, GoInt.minInt, GoInt.maxInt. lia. }
  rewrite Hneed. destruct h as [[b hd] arrs]. unfold wf in Hwf.
  cbn [v backend head arrays] in Hwf.
  unfold bind, get, put, ret. cbn [v backend head arrays].
  destruct b as [[a l]|].
  - destruct Hwf as (Hhd & Hl & Hnth).
    assert (Hadd : GoInt.add hd (n * 12) = hd + n * 12).
    { unfold GoInt.add. apply GoIntFacts.wrap_id.
      unfold GoInt.inRange, GoInt.minInt, GoInt.maxInt. lia. }
    rewrite Hadd. cbn [len].
    rewrite bool_decide_eq_false_2 by lia. cbn [v backend head arrays].
    unfold reslice, throw. rewrite bool_decide_eq_false_2 by (cbn [len]; lia).
    eexists _, _, _, _. split; [reflexivity|]. split; [lia | reflexivity].
  - subst hd.
    assert (Hadd : GoInt.add 0 (n * 12) = n * 12).
    { unfold GoInt.add. apply GoIntFacts.wrap_id.
      unfold GoInt.inRange, GoInt.minInt, GoInt.maxInt. lia. }
    rewrite Hadd. cbn [len].
    rewrite bool_decide_eq_false_2 by lia. cbn [v backend head arrays].
    rewrite (bool_decide_eq_false_2 (n > 1024)) by lia.
    unfold make, bind, get, put, ret.
    rewrite bool_decide_eq_false_2 by (vm_compute; discriminate).
    cbn [v backend head arrays]. rewrite Hadd.
    unfold reslice, throw. rewrite bool_decide_eq_false_2 by lia.
    eexists _, _, _, _. split; [reflexivity|]. split; [lia | reflexivity].
Qed.

Lemma slice_negative_panics_witness :
  exists low high cap h',
    slice (-1) init = (Panic (PanicSliceBounds low high cap), h') /\ high < low.
Proof.
  destruct (slice_negative_panics (-1) init) as (low & high & cap & h' & Hrun & Hlt & _).
  - vm_compute. reflexivity.
  - lia.
  - by exists low, high, cap, h'.
Defined.

Lemma quadVertices_Ok sx0 sy0 sx1 sy1 a b c d tx ty cr cg cb ca h :
  wf h ->
  exists vs floats h',
    quadVertices sx0 sy0 sx1 sy1 a b c d tx ty cr cg cb ca h = (Ok (vs, floats), h')
    /\ hi vs - lo vs = 48 /\ within h' vs /\ wf h'
    /\ length floats = 48%nat
    /\ take 2 floats = [tx; ty]
    /\ (fun k => take 2 (drop (12 * k + 2) floats)) <$> [0; 1; 2; 3]%nat
       = [[f32.of_Z sx0; f32.of_Z sy0]; [f32.of_Z sx1; f32.of_Z sy0];
          [f32.of_Z sx0; f32.of_Z sy1]; [f32.of_Z sx1; f32.of_Z sy1]]
    /\ (forall k, (k < 4)%nat ->
          take 8 (drop (12 * k + 4) floats)
          = [f32.of_Z sx0; f32.of_Z sy0; f32.of_Z sx1; f32.of_Z sy1; cr; cg; cb; ca]).
Proof.
  intros Hwf.
  assert (Hsmall : small 4) by (unfold small; lia).
  pose proof (verticesBackendSpec.slice_refines 4 h Hwf Hsmall) as Hslice.
  destruct (verticesBackendSpec.slice_spec_cases 4 h Hwf Hsmall)
    as (Hwf1 & Hsize & Hwithin & _).
  cbv zeta in Hwf1, Hsize, Hwithin.
  change (4 * VertexFloatNum) with 48 in Hsize.
  unfold quadVertices. cbv zeta. unfold vertexSlice.
  rewrite (bind_Ok _ _ _ _ _ Hslice).
  rewrite bool_decide_eq_true_2 by lia.
  unfold bind, ret. eexists _, _, _. split; [reflexivity|].
  split_and!; try done.
  intros k Hk. destruct k as [|[|[|[|k]]]]; [reflexivity.. | lia].
Qed.

(** X28.  [quadVertices] on a well-formed arena returns a slice of 48 floats
    of the buffer, 12 for each of the four vertices, and leaves the arena
    well formed.  The first vertex is at the translation [(tx, ty)].  The
    source coordinates of the four vertices are the corners [(sx0, sy0)],
    [(sx1, sy0)], [(sx0, sy1)], [(sx1, sy1)], whatever the matrix is, and each
    vertex carries the source rectangle and the colour. *)
Theorem quadVertices_quad sx0 sy0 sx1 sy1 a b c d tx ty cr cg cb ca h :
  wf h ->
  exists vs floats h',
    quadVertices sx0 sy0 sx1 sy1 a b c d tx ty cr cg cb ca h = (Ok (vs, floats), h')
    /\ hi vs - lo vs = 48 /\ within h' vs /\ wf h'
    /\ length floats = 48%nat
    /\ take 2 floats = [tx; ty]
    /\ (fun k => take 2 (drop (12 * k + 2) floats)) <$> [0; 1; 2; 3]%nat
       = [[f32.of_Z sx0; f32.of_Z sy0]; [f32.of_Z sx1; f32.of_Z sy0];
          [f32.of_Z sx0; f32.of_Z sy1]; [f32.of_Z sx1; f32.of_Z sy1]]
    /\ (forall k, (k < 4)%nat ->
          take 8 (drop (12 * k + 4) floats)
          = [f32.of_Z sx0; f32.of_Z sy0; f32.of_Z sx1; f32.of_Z sy1; cr; cg; cb; ca]).
Proof. apply quadVertices_Ok. Qed.

Lemma quadVertices_quad_witness :
  exists vs floats h',
    quadVertices 0 0 100 50 f32.one f32.zero f32.zero f32.one f32.zero f32.zero
      f32.one f32.one f32.one f32.one init = (Ok (vs, floats), h')
    /\ hi vs - lo vs = 48.
Proof.
  destruct (quadVertices_quad 0 0 100 50 f32.one f32.zero f32.zero f32.one f32.zero
              f32.zero f32.one f32.one f32.one f32.one init)
    as (vs & floats & h' & Hrun & Hsize & _).
  - vm_compute. reflexivity.
  - by exists vs, floats, h'.
Defined.

End vertexArena.

(** ** What [drawImage] draws *)

Module drawImageDraws.
Import monadFacts mipmapFacts mipmapMutations levelFrame.

Section Draws.
Context {ext : Externals}.

Lemma index_f32_state (body : list float32) i (w : World) o w' :
  index_f32 body i w = (o, w') -> w' = w.
Proof. unfold index_f32, ret, throw. case_bool_decide; by intros [= _ <-]. Qed.



(** A draw into [base] or into an image allocated at [n] or later. *)
Lemma fresh_draws n (evs : list event) :
  Forall (fresh_event n) evs ->
  Forall (fun e => exists i src vs vertices indices colorm mode filter address,
            e = DrawTriangles (Some i) src vs vertices indices colorm mode filter address
            /\ (n <= i)%nat)
    (filter is_draw evs).
Proof.
  intros Hall. apply Forall_forall. intros e He.
  apply list_elem_of_filter in He as [Hdraw He].
  rewrite Forall_forall in Hall. specialize (Hall e He).
  destruct e as [| | | |[i|] src vs vertices indices colorm mode filter address|];
    try done.
  by eexists _, _, _, _, _, _, _, _, _.
Qed.

Lemma level_orig_kept m src r lv (w : World) img w' mm :
  level src r lv w = (Ok img, w') ->
  mipmaps w !! m = Some mm ->
  (exists mm', mipmaps w' !! m = Some mm' /\ orig mm' = orig mm)
  /\ exists evs, trace w' = trace w ++ evs /\ Forall (fresh_event (next_image w)) evs.
Proof.
  intros Hrun Hm. pose proof (level_Ok_nonzero _ _ _ _ _ _ Hrun) as Hnz.
  rewrite level_eq in Hrun by exact Hnz. apply level_rec_changes in Hrun.
  destruct Hrun as (Hother & (mmS & mmS' & HmS & HmS' & _ & _ & _ & Horig & _) & Hevs & _).
  split; [|exact Hevs].
  destruct (decide (m = src)) as [->|Hne].
  - exists mmS'. split; [exact HmS'|]. congruence.
  - exists mm. split; [|reflexivity]. by rewrite Hother.
Qed.

(** X30.  Every draw of a [drawImage] that returns goes into the base image
    of its destination [m] or into an image allocated during the call: the
    draws that derive the levels of the source go into new images, and they
    are followed by at most one draw into the base image of [m].  No other
    image that existed before the call is drawn into. *)
Theorem drawImage_draws_into_destination m src bounds geom colorm mode filter
    (w w' : World) mm :
  mipmaps w !! m = Some mm ->
  drawImage m src bounds geom colorm mode filter w = (Ok tt, w') ->
  exists derived final,
    draws w' = draws w ++ derived ++ final
    /\ Forall (fun e => exists i src' vs vertices indices colorm' mode' filter' address,
                 e = DrawTriangles (Some i) src' vs vertices indices colorm' mode'
                       filter' address
                 /\ (next_image w <= i)%nat) derived
    /\ (final = []
        \/ exists src' vs vertices colorm',
             final = [DrawTriangles (orig mm) src' vs vertices QuadIndices colorm' mode
                        filter AddressClampToZero]).
Proof.
  intros Hm Hrun.
  assert (Hnone : w' = w ->
    exists derived final,
      draws w' = draws w ++ derived ++ final
      /\ Forall (fun e => exists i src' vs vertices indices colorm' mode' filter' address,
                 e = DrawTriangles (Some i) src' vs vertices indices colorm' mode'
                       filter' address
                 /\ (next_image w <= i)%nat) derived
      /\ (final = []
          \/ exists src' vs vertices colorm',
               final = [DrawTriangles (orig mm) src' vs vertices QuadIndices colorm' mode
                          filter AddressClampToZero])).
  { intros ->. exists [], []. rewrite !app_nil_r. split; [reflexivity|].
    split; [constructor | by left]. }
  unfold drawImage in Hrun.
  destruct (f32.eqb (GeoM_det geom) f32.zero); [injection Hrun as <-; by apply Hnone|].
  destruct (IsNaN _); [injection Hrun as <-; by apply Hnone|].
  inv_bind Hrun as lv w1 Hlevel. apply mipmapLevel_state in Hlevel as ->.
  inv_bind Hrun as adjusted w2 Hadj.
  assert (w2 = w) as ->.
  { destruct (bool_decide (lv > 0)); [by apply lift_state in Hadj|].
    by injection Hadj as _ <-. }
  clear Hadj.
  destruct (bool_decide (lv > 0) && bool_decide (adjusted < 0));
    [injection Hrun as <-; by apply Hnone|].
  inv_bind Hrun as color w3 Hcolor.
  assert (w3 = w) as ->.
  { destruct (ColorM_ScaleOnly colorm); [|by injection Hcolor as _ <-].
    inv_bind Hcolor as cr wa Ha. apply index_f32_state in Ha as ->.
    inv_bind Hcolor as cg wb Hb. apply index_f32_state in Hb as ->.
    inv_bind Hcolor as cb wc Hc. apply index_f32_state in Hc as ->.
    inv_bind Hcolor as ca wd Hd. apply index_f32_state in Hd as ->.
    by injection Hcolor as _ <-. }
  clear Hcolor. destruct color as [[[[cr cg] cb] ca] colorm'].
  destruct (GeoM_elements geom) as [[[[[a b] c] d] tx] ty].
  inv_bind Hrun as u w4 Hdraw.
  apply disposeMipmaps_inv in Hrun as [_ Hdraws]. rewrite Hdraws. clear Hdraws.
  set (lv' := if bool_decide ((if bool_decide (adjusted > 6) then 6 else adjusted) < -6)
              then -6 else if bool_decide (adjusted > 6) then 6 else adjusted) in *.
  destruct (bool_decide (lv' = 0)).
  - inv_bind Hdraw as vs w5 Hquad.
    apply on_arena_inv in Hquad as (Hmaps & _ & Htr).
    inv_bind Hdraw as mm5 w6 Hderef. apply deref_inv in Hderef as [-> Hm5].
    inv_bind Hdraw as srcm w7 Hderef. apply deref_inv in Hderef as [-> Hsrc].
    rewrite emit_eq in Hdraw. injection Hdraw as _ <-.
    rewrite Hmaps in Hm5. assert (mm5 = mm) as -> by congruence.
    exists [], [DrawTriangles (orig mm) (orig srcm) vs.1 vs.2 QuadIndices colorm' mode
                  filter AddressClampToZero].
    split_and!.
    + unfold draws. cbn [trace]. rewrite Htr, filter_app. reflexivity.
    + constructor.
    + right. by eexists _, _, _, _.
  - inv_bind Hdraw as shared w5 Hshared.
    destruct (level_orig_kept m src bounds lv' w shared w5 mm Hshared Hm)
      as ((mm5 & Hm5 & Horig) & evs & Htr & Hfresh).
    destruct shared as [shared|].
    + destruct (sizeForLevel _ _ _) as [sw sh].
      inv_bind Hdraw as vs w6 Hquad.
      apply on_arena_inv in Hquad as (Hmaps & _ & Htr6).
      inv_bind Hdraw as mm6 w7 Hderef. apply deref_inv in Hderef as [-> Hm6].
      rewrite emit_eq in Hdraw. injection Hdraw as _ <-.
      rewrite Hmaps in Hm6. assert (mm6 = mm5) as -> by congruence.
      exists (base.filter is_draw evs),
        [DrawTriangles (orig mm) (Some shared) vs.1 vs.2 QuadIndices colorm' mode
           filter AddressClampToZero].
      split_and!.
      * unfold draws. cbn [trace]. rewrite Htr6, Htr, !filter_app, Horig.
        by rewrite <- app_assoc.
      * by apply fresh_draws.
      * right. by eexists _, _, _, _.
    + injection Hdraw as _ <-. exists (base.filter is_draw evs), [].
      split_and!.
      * unfold draws. rewrite Htr, filter_app. by rewrite app_nil_r.
      * by apply fresh_draws.
      * by left.
Qed.

End Draws.


Lemma drawImage_draws_into_destination_witness :
  exists derived final,
    draws (drawImage (ext := sample.externals) 0%nat 1%nat sample.whole
             (sample.scale f32.half) None tt sample.Linear sample.two).2
    = draws sample.two ++ derived ++ final.
Proof.
  destruct (drawImage_draws_into_destination (ext := sample.externals) 0%nat 1%nat
              sample.whole (sample.scale f32.half) None tt sample.Linear sample.two
              (drawImage (ext := sample.externals) 0%nat 1%nat sample.whole
                 (sample.scale f32.half) None tt sample.Linear sample.two).2
              (mkMipmap 100 50 false (Some 0%nat) ∅))
    as (derived & final & Hdraws & _).
  - vm_compute. reflexivity.
  - vm_compute. reflexivity.
  - by exists derived, final.
Defined.

End drawImageDraws.
